(** * grpc-connection-manager: circuit breaker, retry loop and connection registry

    A shallow embedding of the Go sources

      - [internal/interceptors] circuit breaker  ([CircuitBreaker.Call],
        [CircuitBreakerInterceptor]),
      - [internal/interceptors] retry loop       ([RetryInterceptor]),
      - [internal/manager]      registry         ([GetConnection], [Close],
        [CloseConnection], [GetConnectionsCount], [HealthCheck],
        [Config.Validate]).

    Conventions.
      - Go [int], [time.Duration] and [time.Time] are integers [Z]; an
        increment of an [int] wraps around at 64 bits ([incr]).
      - A Go [error] is [option error]: [None] is [nil].
      - The transport, the clock and the caller's context are external: they
        are operations on an abstract world [W], supplied through the classes
        [Clock], [Sleeper] and [Transport]; a call that may change the outside
        world takes a world and returns the next one.  Where the program
        reads the outside world twice and compares what it read, the world
        moves on by itself between the two reads ([Elapsing]).
      - Maps are stdpp [gmap]s.  A Go [range] over a map visits the entries in
        an unspecified order, so every loop over a map takes the visiting
        order as an explicit list that [ranges] relates to the map.
      - Calls to the logger and to the Prometheus collectors only write to
        sinks that are never read back; they are left out, except for the
        breaker-state gauge, which is returned as a value.
      - The mutexes are sequentially transparent.  The registry lock is kept
        as [EvLock]/[EvUnlock]/[EvRLock]/[EvRUnlock] entries in the event
        trace, and so are the calls to the transport and the writes to the
        handle map, so that lock scopes can be read off an execution. *)

From Stdlib Require Import ZArith Lia Bool.
From stdpp Require Import base option list strings gmap fin_maps.

#[local] Open Scope Z_scope.

(* ===================================================================== *)
(** * Machine integers, durations and time *)
(* ===================================================================== *)

Definition int_min : Z := - 2 ^ 63.
Definition int_max : Z := 2 ^ 63 - 1.

(** Two's complement wrap-around of a 64-bit signed integer. *)
Definition wrap (z : Z) : Z := (z + 2 ^ 63) mod 2 ^ 64 - 2 ^ 63.

(** [x++] on a Go [int]. *)
Definition incr (x : Z) : Z := wrap (x + 1).

(** [time.Duration]: a signed 64-bit count of nanoseconds. *)
Definition Duration : Type := Z.
(** [time.Time]: an instant, in nanoseconds after the zero [Time]. *)
Definition Time : Type := Z.

Definition Millisecond : Duration := 1000000.
Definition Second : Duration := 1000 * Millisecond.

(** [Time.Sub] saturates at the smallest and the largest [Duration]. *)
Definition saturate (d : Z) : Duration := Z.max int_min (Z.min int_max d).

(** The wall clock, read from the world. *)
Class Clock (W : Type) := { now : W → Time }.

(** [time.Since(t)]. *)
Definition Since {W} `{Clock W} (w : W) (t : Time) : Duration :=
  saturate (now w - t).

(** What the outside world does by itself from one read of it to the next:
    the clock advances, connection attempts end. *)
Class Elapsing (W : Type) := { elapse : W → W }.

(* ===================================================================== *)
(** * gRPC status codes and errors *)
(* ===================================================================== *)

(** [codes.Code]. *)
Inductive Code : Type :=
  | OK | Canceled | Unknown | InvalidArgument | DeadlineExceeded | NotFound
  | AlreadyExists | PermissionDenied | ResourceExhausted | FailedPrecondition
  | Aborted | OutOfRange | Unimplemented | Internal | Unavailable | DataLoss
  | Unauthenticated.

#[global] Instance Code_eq_dec : EqDecision Code.
Proof. solve_decision. Defined.

(** [status.Status]: a code and a message. *)
Record Status : Type := mkStatus { StatusCode : Code; StatusMessage : string }.

(** A non-nil Go [error], as far as [status.FromError] tells errors apart:
    either it carries a gRPC status ([status.Error c msg]) or it is some
    other error with text [msg] (for instance [ctx.Err()]). *)
Inductive error : Type :=
  | StatusError (c : Code) (msg : string)
  | OtherError (msg : string).

#[global] Instance error_eq_dec : EqDecision error.
Proof. solve_decision. Defined.

(** [status.FromError] on a non-nil error: the status and the [ok] flag.
    An error without a status is reported as [Unknown], [ok = false]. *)
Definition FromError (e : error) : Status * bool :=
  match e with
  | StatusError c msg => (mkStatus c msg, true)
  | OtherError msg => (mkStatus Unknown msg, false)
  end.

(** The loop [for _, code := range codes { if st.Code() == code {...; break} }]. *)
Definition isRetryable (st : Status) (codes : list Code) : bool :=
  existsb (λ code, bool_decide (StatusCode st = code)) codes.

(** A [grpc.UnaryInvoker] already applied to its arguments: it acts on the
    world and returns the call's error. *)
Definition Invoker (W : Type) : Type := W → option error * W.

(* ===================================================================== *)
(** * Circuit breaker *)
(* ===================================================================== *)

Module Breaker.

Inductive CircuitBreakerState : Type := StateClosed | StateOpen | StateHalfOpen.

#[global] Instance CircuitBreakerState_eq_dec : EqDecision CircuitBreakerState.
Proof. solve_decision. Defined.

(** [int(state)], the value of the [iota] constants. *)
Definition stateCode (s : CircuitBreakerState) : Z :=
  match s with StateClosed => 0 | StateOpen => 1 | StateHalfOpen => 2 end.

Record CircuitBreakerConfig : Type := mkConfig {
  FailureThreshold : Z;
  SuccessThreshold : Z;
  Timeout : Duration;
  RetryableCodes : list Code
}.

Definition DefaultCircuitBreakerConfig : CircuitBreakerConfig :=
  {| FailureThreshold := 5;
     SuccessThreshold := 2;
     Timeout := 30 * Second;
     RetryableCodes := [Unavailable; DeadlineExceeded; ResourceExhausted] |}.

Record CircuitBreaker : Type := mkBreaker {
  state : CircuitBreakerState;
  failures : Z;
  successes : Z;
  lastFailure : Time;
  config : CircuitBreakerConfig
}.

(** [cfg = None] is the nil pointer. *)
Definition NewCircuitBreaker (cfg : option CircuitBreakerConfig) : CircuitBreaker :=
  {| state := StateClosed;
     failures := 0;
     successes := 0;
     lastFailure := 0;
     config := default DefaultCircuitBreakerConfig cfg |}.

Definition set_state (s : CircuitBreakerState) (cb : CircuitBreaker) : CircuitBreaker :=
  {| state := s; failures := failures cb; successes := successes cb;
     lastFailure := lastFailure cb; config := config cb |}.
Definition set_failures (n : Z) (cb : CircuitBreaker) : CircuitBreaker :=
  {| state := state cb; failures := n; successes := successes cb;
     lastFailure := lastFailure cb; config := config cb |}.
Definition set_successes (n : Z) (cb : CircuitBreaker) : CircuitBreaker :=
  {| state := state cb; failures := failures cb; successes := n;
     lastFailure := lastFailure cb; config := config cb |}.
Definition set_lastFailure (t : Time) (cb : CircuitBreaker) : CircuitBreaker :=
  {| state := state cb; failures := failures cb; successes := successes cb;
     lastFailure := t; config := config cb |}.

(** A qualifying failure: the code of the error is one the breaker counts. *)
Definition qualifying (cfg : CircuitBreakerConfig) (e : error) : bool :=
  isRetryable (fst (FromError e)) (RetryableCodes cfg).

(** The error of a rejected call. *)
Definition errOpen : error := StatusError Unavailable "circuit breaker is open".

Section WithWorld.
Context {W : Type} `{Clock W}.

(** [Call], up to the invocation: [None] when the call is rejected,
    otherwise the breaker as the invocation finds it. *)
Definition precheck (cb : CircuitBreaker) (w : W) : option CircuitBreaker :=
  let state0 := state cb in
  let lastFailure0 := lastFailure cb in
  if bool_decide (state0 = StateOpen) then
    if bool_decide (Since w lastFailure0 < Timeout (config cb)) then None
    else
      Some (if bool_decide (state cb = StateOpen)
            then set_successes 0 (set_state StateHalfOpen cb)
            else cb)
  else Some cb.

(** [Call], after the invocation returned [err] in world [w]. *)
Definition record (cb : CircuitBreaker) (err : option error) (w : W) : CircuitBreaker :=
  match err with
  | Some e =>
      let st := fst (FromError e) in
      if isRetryable st (RetryableCodes (config cb)) then
        let cb1 := set_failures (incr (failures cb)) cb in
        let cb2 := set_lastFailure (now w) cb1 in
        if bool_decide (state cb2 = StateHalfOpen) then
          set_failures 0 (set_state StateOpen cb2)
        else if bool_decide (failures cb2 >= FailureThreshold (config cb2)) then
          set_state StateOpen cb2
        else cb2
      else cb
  | None =>
      let cb1 := set_failures 0 cb in
      if bool_decide (state cb1 = StateHalfOpen) then
        let cb2 := set_successes (incr (successes cb1)) cb1 in
        if bool_decide (successes cb2 >= SuccessThreshold (config cb2)) then
          set_state StateClosed cb2
        else cb2
      else cb1
  end.

(** [(cb *CircuitBreaker) Call]: the returned error, the breaker after
    the call and the world after the call. *)
Definition Call (cb : CircuitBreaker) (invoker : Invoker W) (w : W)
  : option error * CircuitBreaker * W :=
  match precheck cb w with
  | None => (Some errOpen, cb, w)
  | Some cb1 =>
      let '(err, w1) := invoker w in
      (err, record cb1 err w1, w1)
  end.

(** [n] calls in a row through the same breaker. *)
Fixpoint Calls (n : nat) (cb : CircuitBreaker) (invoker : Invoker W) (w : W)
  : CircuitBreaker * W :=
  match n with
  | O => (cb, w)
  | S n' =>
      let '(_, cb1, w1) := Call cb invoker w in
      Calls n' cb1 invoker w1
  end.

(** [getBreaker]: the breaker of [method], created on first use.  The
    second lookup is the re-check under the write lock. *)
Definition getBreaker (cfg : option CircuitBreakerConfig) (method : string)
    (breakers : gmap string CircuitBreaker)
  : CircuitBreaker * gmap string CircuitBreaker :=
  match breakers !! method with
  | Some breaker => (breaker, breakers)
  | None =>
      match breakers !! method with
      | Some breaker => (breaker, breakers)
      | None =>
          let breaker := NewCircuitBreaker cfg in
          (breaker, <[method := breaker]> breakers)
      end
  end.

(** The error returned for a nil reply. *)
Definition errNilReply : error :=
  StatusError Internal "grpc reply is nil (circuit breaker interceptor bug)".

(** The closure returned by [CircuitBreakerInterceptor serviceName cfg m].
    [metrics] tells whether [m != nil]; [reply] is [None] for a nil
    interface value.  The map holds pointers, so the entry of [method] is
    the breaker as [Call] left it.  Returns the error, the value written
    to the breaker gauge (if any), the breakers and the world. *)
Definition CircuitBreakerInterceptor (cfg : option CircuitBreakerConfig)
    (metrics : bool) (method : string) (reply : option positive)
    (invoker : Invoker W) (breakers : gmap string CircuitBreaker) (w : W)
  : option error * option Z * gmap string CircuitBreaker * W :=
  let '(breaker, breakers1) := getBreaker cfg method breakers in
  let '(err, breaker', w') := Call breaker invoker w in
  let breakers2 := <[method := breaker']> breakers1 in
  let gauge := if metrics then Some (stateCode (state breaker')) else None in
  if bool_decide (err = None) && bool_decide (reply = None) then
    (Some errNilReply, gauge, breakers2, w')
  else (err, gauge, breakers2, w').

End WithWorld.

End Breaker.


(* ===================================================================== *)
(** * Retry interceptor *)
(* ===================================================================== *)

Module Retry.

(** [float64], as far as the backoff computation uses it: the literal [2.0]
    and [time.Duration(float64(backoff) * m)]. *)
Class Float64 (F : Type) := {
  float_two : F;
  scaleDuration : Duration → F → Duration
}.

(** The [select] between [ctx.Done()] and [time.After(backoff)]:
    [Some e] when the context is done first, [e] being [ctx.Err()]. *)
Class Sleeper (W : Type) := { backoffWait : Duration → W → option error * W }.

Record RetryConfig (F : Type) : Type := mkConfig {
  MaxAttempts : Z;
  InitialBackoff : Duration;
  MaxBackoff : Duration;
  BackoffMultiplier : F;
  RetryableCodes : list Code
}.
Arguments mkConfig {F} _ _ _ _ _.
Arguments MaxAttempts {F} _.
Arguments InitialBackoff {F} _.
Arguments MaxBackoff {F} _.
Arguments BackoffMultiplier {F} _.
Arguments RetryableCodes {F} _.

Definition DefaultRetryConfig {F} `{Float64 F} : RetryConfig F :=
  {| MaxAttempts := 3;
     InitialBackoff := 100 * Millisecond;
     MaxBackoff := 3 * Second;
     BackoffMultiplier := float_two;
     RetryableCodes := [Unavailable; DeadlineExceeded; ResourceExhausted; Aborted] |}.

(** A failure the loop retries: an error with a status whose code is in
    the configured set. *)
Definition retryable {F} (cfg : RetryConfig F) (e : error) : bool :=
  snd (FromError e) && isRetryable (fst (FromError e)) (RetryableCodes cfg).

Section WithWorld.
Context {W F : Type} `{Sleeper W} `{Float64 F}.

(** The backoff of the next round. *)
Definition nextBackoff (cfg : RetryConfig F) (backoff : Duration) : Duration :=
  let backoff' := scaleDuration backoff (BackoffMultiplier cfg) in
  if bool_decide (backoff' > MaxBackoff cfg) then MaxBackoff cfg else backoff'.

(** The [for attempt := 1; attempt <= cfg.MaxAttempts; attempt++] loop, from
    the test of its condition on.  [fuel] bounds the rounds still to run;
    [Z.to_nat (MaxAttempts cfg)] rounds are enough ([retryLoop_fuel]). *)
Fixpoint retryLoop (fuel : nat) (cfg : RetryConfig F) (invoker : Invoker W)
    (attempt : Z) (backoff : Duration) (lastErr : option error) (w : W)
  : option error * W :=
  match fuel with
  | O => (lastErr, w)
  | S fuel' =>
      if bool_decide (attempt <= MaxAttempts cfg) then
        let '(err, w1) := invoker w in
        match err with
        | None => (None, w1)
        | Some e =>
            let '(st, ok) := FromError e in
            if negb ok then (Some e, w1)
            else
              let retryable := isRetryable st (RetryableCodes cfg) in
              if negb retryable || bool_decide (attempt >= MaxAttempts cfg)
              then (Some e, w1)
              else
                let '(cancelled, w2) := backoffWait backoff w1 in
                match cancelled with
                | Some ctxErr => (Some ctxErr, w2)
                | None =>
                    retryLoop fuel' cfg invoker (incr attempt)
                      (nextBackoff cfg backoff) (Some e) w2
                end
        end
      else (lastErr, w)
  end.

(** The closure returned by [RetryInterceptor cfg serviceName m];
    [cfg = None] is the nil pointer. *)
Definition RetryInterceptor (cfg : option (RetryConfig F)) (invoker : Invoker W) (w : W)
  : option error * W :=
  let cfg := default DefaultRetryConfig cfg in
  retryLoop (Z.to_nat (MaxAttempts cfg)) cfg invoker 1 (InitialBackoff cfg) None w.

End WithWorld.

(** An invoker that also records, in order, what every invocation returned
    (the counter [attempts++] of the repository's test, with the outcomes). *)
Definition recording {W} (invoker : Invoker W) : Invoker (W * list (option error)) :=
  λ '(w, log), let '(err, w') := invoker w in (err, (w', log ++ [err])).

(** The backoff wait, lifted to a world that carries the record. *)
#[global] Instance recording_Sleeper {W} `{Sleeper W} : Sleeper (W * list (option error)) :=
  {| backoffWait := λ d '(w, log), let '(r, w') := backoffWait d w in (r, (w', log)) |}.

End Retry.


(* ===================================================================== *)
(** * Connection registry *)
(* ===================================================================== *)

(** [connectivity.State]. *)
Module connectivity.
Inductive State : Type := Idle | Connecting | Ready | TransientFailure | Shutdown.

#[global] Instance State_eq_dec : EqDecision State.
Proof. solve_decision. Defined.
End connectivity.

Module Manager.

(** [*grpc.ClientConn]: the identity of a handle.  The registry only ever
    stores a handle that a successful dial returned, so no entry is nil. *)
Definition ClientConn : Type := positive.

(** [credentials.TransportCredentials], opaque. *)
Definition Credentials : Type := positive.

Record Config : Type := mkConfig {
  MaxMsgSize : Z;
  KeepAliveTime : Duration;
  KeepAliveTimeout : Duration;
  KeepAlivePermitWithoutStream : bool;
  MaxReconnectDelay : Duration;
  MinConnectTimeout : Duration;
  EnableLogging : bool;
  EnableMetrics : bool;
  EnableRetry : bool;
  EnableCircuitBreaker : bool;
  TransportCredentials : option Credentials
}.

(** [(c *Config) Validate]. *)
Definition Validate (c : Config) : option error :=
  if bool_decide (MaxMsgSize c <= 0) then
    Some (OtherError "MaxMsgSize must be greater than 0")
  else if bool_decide (KeepAliveTime c <= 0) then
    Some (OtherError "KeepAliveTime must be greater than 0")
  else if bool_decide (KeepAliveTimeout c <= 0) then
    Some (OtherError "KeepAliveTimeout must be greater than 0")
  else if bool_decide (MaxReconnectDelay c <= 0) then
    Some (OtherError "MaxReconnectDelay must be greater than 0")
  else if bool_decide (MinConnectTimeout c <= 0) then
    Some (OtherError "MinConnectTimeout must be greater than 0")
  else None.

Definition DefaultConfig : Config :=
  {| MaxMsgSize := 1024 * 1024 * 1024;
     KeepAliveTime := 30 * Second;
     KeepAliveTimeout := 5 * Second;
     KeepAlivePermitWithoutStream := true;
     MaxReconnectDelay := 3 * Second;
     MinConnectTimeout := 10 * Second;
     EnableLogging := true;
     EnableMetrics := false;
     EnableRetry := true;
     EnableCircuitBreaker := true;
     TransportCredentials := None |}.

(** The unary interceptors, in the order [createConnection] chains them. *)
Inductive Interceptor : Type :=
  | LoggingInterceptor | MetricsInterceptor | CircuitBreakerInterceptor | RetryInterceptor.

(** The dial options [createConnection] builds ([None] credentials: insecure). *)
Record DialOptions : Type := mkDialOptions {
  optCredentials : option Credentials;
  optMaxCallRecvMsgSize : Z;
  optMaxCallSendMsgSize : Z;
  optKeepaliveTime : Duration;
  optKeepaliveTimeout : Duration;
  optPermitWithoutStream : bool;
  optBackoffBaseDelay : Duration;
  optBackoffMaxDelay : Duration;
  optMinConnectTimeout : Duration;
  optChain : list Interceptor
}.

(** The errors the registry makes with [fmt.Errorf]. *)
Inductive mgrError : Type :=
  | ErrInvalidConfig (cause : error)
  | ErrAddressNotProvided (serviceName : string)
  | ErrCreateConnection (serviceName : string) (cause : error).

(** What an execution does to the lock, to the transport and to the
    entries of the handle map, in order. *)
Inductive Event : Type :=
  | EvLock | EvUnlock | EvRLock | EvRUnlock
  | EvGetState (conn : ClientConn)
  | EvClose (conn : ClientConn) (result : option error)
  | EvDial (address : string) (result : ClientConn + error)
  | EvInstall (serviceName : string) (conn : ClientConn)
  | EvForget (serviceName : string).

(** The gRPC library: handle state, close and dial. *)
Class Transport (W : Type) := {
  GetState : ClientConn → W → connectivity.State;
  StateString : connectivity.State → string;
  connClose : ClientConn → W → option error * W;
  DialContext : string → DialOptions → W → (ClientConn + error) * W
}.

Record ConnectionManager : Type := mkManager {
  connections : gmap string ClientConn;
  addresses : gmap string string;
  config : Config;
  metrics : bool
}.

(** [NewConnectionManager]; [cfg = None] is the nil pointer, [m] tells
    whether the metrics pointer is non-nil. *)
Definition NewConnectionManager (cfg : option Config) (m : bool)
  : ConnectionManager + mgrError :=
  let cfg := default DefaultConfig cfg in
  match Validate cfg with
  | Some err => inr (ErrInvalidConfig err)
  | None => inl {| connections := ∅; addresses := ∅; config := cfg; metrics := m |}
  end.

Record ConnectionHealth : Type := mkHealth {
  State : string;
  Healthy : bool;
  Error : string
}.

(** A visiting order of a [range] loop over the map [m]. *)
Definition ranges {V} (m : gmap string V) (order : list (string * V)) : Prop :=
  order ≡ₚ map_to_list m.

(** ** The state of an execution and its monad *)

Record Sys (W : Type) : Type := mkSys {
  mgr : ConnectionManager;
  world : W;
  trace : list Event
}.
Arguments mkSys {W} _ _ _.
Arguments mgr {W} _.
Arguments world {W} _.
Arguments trace {W} _.

Definition M (W A : Type) : Type := Sys W → A * Sys W.

#[global] Instance M_ret {W} : MRet (M W) := λ A a s, (a, s).
#[global] Instance M_bind {W} : MBind (M W) :=
  λ A B k c s, let '(a, s') := c s in k a s'.

Section WithTransport.
Context {W : Type} `{Transport W} `{Elapsing W}.

Definition emit (e : Event) : M W unit :=
  λ s, (tt, mkSys (mgr s) (world s) (trace s ++ [e])).

Definition mu_Lock : M W unit := emit EvLock.
Definition mu_Unlock : M W unit := emit EvUnlock.
Definition mu_RLock : M W unit := emit EvRLock.
Definition mu_RUnlock : M W unit := emit EvRUnlock.

Definition getManager : M W ConnectionManager := λ s, (mgr s, s).

Definition modifyManager (f : ConnectionManager → ConnectionManager) : M W unit :=
  λ s, (tt, mkSys (f (mgr s)) (world s) (trace s)).

(** [cm.addresses[serviceName] = address]. *)
Definition setAddress (serviceName address : string) : M W unit :=
  modifyManager (λ cm, mkManager (connections cm)
                         (<[serviceName := address]> (addresses cm))
                         (config cm) (metrics cm)).

(** [cm.addresses[serviceName]]: the empty string when the key is absent. *)
Definition lookupAddress (serviceName : string) : M W string :=
  cm ← getManager; mret (default "" (addresses cm !! serviceName)).

(** [cm.connections[serviceName]]: [None] (nil) when the key is absent. *)
Definition lookupConn (serviceName : string) : M W (option ClientConn) :=
  cm ← getManager; mret (connections cm !! serviceName).

(** [cm.connections[serviceName] = conn]. *)
Definition setConn (serviceName : string) (conn : ClientConn) : M W unit :=
  modifyManager (λ cm, mkManager (<[serviceName := conn]> (connections cm))
                         (addresses cm) (config cm) (metrics cm));;
  emit (EvInstall serviceName conn).

(** [delete(cm.connections, serviceName)]. *)
Definition deleteConn (serviceName : string) : M W unit :=
  modifyManager (λ cm, mkManager (delete serviceName (connections cm))
                         (addresses cm) (config cm) (metrics cm));;
  emit (EvForget serviceName).

(** Both maps replaced by fresh empty maps. *)
Definition resetMaps : M W unit :=
  modifyManager (λ cm, mkManager ∅ ∅ (config cm) (metrics cm)).

(** [conn.GetState()]. *)
Definition conn_GetState (conn : ClientConn) : M W connectivity.State :=
  λ s, (GetState conn (world s),
        mkSys (mgr s) (world s) (trace s ++ [EvGetState conn])).

(** The transport carries on while the caller is between two queries of a
    handle's state. *)
Definition meanwhile : M W unit :=
  λ s, (tt, mkSys (mgr s) (elapse (world s)) (trace s)).

(** [conn.Close()]. *)
Definition conn_Close (conn : ClientConn) : M W (option error) :=
  λ s, let '(r, w') := connClose conn (world s) in
       (r, mkSys (mgr s) w' (trace s ++ [EvClose conn r])).

(** [grpc.DialContext(ctx, address, opts...)]. *)
Definition grpc_DialContext (address : string) (opts : DialOptions)
  : M W (ClientConn + error) :=
  λ s, let '(r, w') := DialContext address opts (world s) in
       (r, mkSys (mgr s) w' (trace s ++ [EvDial address r])).

(** [state == connectivity.Ready || state == connectivity.Idle]. *)
Definition usable (st : connectivity.State) : bool :=
  bool_decide (st = connectivity.Ready) || bool_decide (st = connectivity.Idle).

(** The options and the interceptor chain of [createConnection]. *)
Definition dialOptions (cm : ConnectionManager) : DialOptions :=
  let c := config cm in
  {| optCredentials := TransportCredentials c;
     optMaxCallRecvMsgSize := MaxMsgSize c;
     optMaxCallSendMsgSize := MaxMsgSize c;
     optKeepaliveTime := KeepAliveTime c;
     optKeepaliveTimeout := KeepAliveTimeout c;
     optPermitWithoutStream := KeepAlivePermitWithoutStream c;
     optBackoffBaseDelay := 100 * Millisecond;
     optBackoffMaxDelay := MaxReconnectDelay c;
     optMinConnectTimeout := MinConnectTimeout c;
     optChain :=
       (if EnableLogging c then [LoggingInterceptor] else []) ++
       (if EnableMetrics c && metrics cm then [MetricsInterceptor] else []) ++
       (if EnableCircuitBreaker c then [CircuitBreakerInterceptor] else []) ++
       (if EnableRetry c then [RetryInterceptor] else []) |}.

(** [createConnection]. *)
Definition createConnection (address serviceName : string) : M W (ClientConn + error) :=
  cm ← getManager;
  grpc_DialContext address (dialOptions cm).

(** [GetConnection].  The state of a handle as the re-check under the
    exclusive lock finds it need not be the state the first query found:
    the transport has carried on in between ([meanwhile]). *)
Definition GetConnection (serviceName address : string) : M W (ClientConn + mgrError) :=
  mu_Lock;;
  address ← (if bool_decide (address ≠ "")
             then setAddress serviceName address;; mret address
             else lookupAddress serviceName);
  mu_Unlock;;
  if bool_decide (address = "") then mret (inr (ErrAddressNotProvided serviceName))
  else
    mu_RLock;;
    conn ← lookupConn serviceName;
    mu_RUnlock;;
    fast ← match conn with
           | Some c => st ← conn_GetState c; mret (if usable st then Some c else None)
           | None => mret None
           end;
    match fast with
    | Some c => mret (inl c)
    | None =>
        mu_Lock;;
        r ← (conn ← lookupConn serviceName;
             kept ← match conn with
                    | Some c =>
                        meanwhile;;
                        st ← conn_GetState c;
                        if usable st then mret (Some c)
                        else conn_Close c;; deleteConn serviceName;; mret None
                    | None => mret None
                    end;
             match kept with
             | Some c => mret (inl c)
             | None =>
                 dialed ← createConnection address serviceName;
                 match dialed with
                 | inr err => mret (inr (ErrCreateConnection serviceName err))
                 | inl newConn => setConn serviceName newConn;; mret (inl newConn)
                 end
             end);
        mu_Unlock;;
        mret r
    end.

(** Successive calls of [GetConnection] for one service, one per address
    in [addrs]; the results in order. *)
Fixpoint GetConnections (serviceName : string) (addrs : list string)
  : M W (list (ClientConn + mgrError)) :=
  match addrs with
  | [] => mret []
  | address :: rest =>
      r ← GetConnection serviceName address;
      rs ← GetConnections serviceName rest;
      mret (r :: rs)
  end.

(** [CloseConnection]. *)
Definition CloseConnection (serviceName : string) : M W (option error) :=
  mu_Lock;;
  conn ← lookupConn serviceName;
  deleteConn serviceName;;
  r ← match conn with
      | Some c => conn_Close c
      | None => mret None
      end;
  mu_Unlock;;
  mret r.

(** The loop of [Close] over [cm.connections], visited in [order]. *)
Fixpoint closeLoop (order : list (string * ClientConn)) (lastErr : option error)
  : M W (option error) :=
  match order with
  | [] => mret lastErr
  | (name, conn) :: rest =>
      err ← conn_Close conn;
      closeLoop rest (match err with Some e => Some e | None => lastErr end)
  end.

(** [Close].  The metrics loop at its end ranges over the map that was
    just emptied and has no rounds. *)
Definition Close (order : list (string * ClientConn)) : M W (option error) :=
  mu_Lock;;
  lastErr ← closeLoop order None;
  resetMaps;;
  mu_Unlock;;
  mret lastErr.

(** [GetConnectionsCount]. *)
Definition GetConnectionsCount : M W Z :=
  mu_RLock;;
  cm ← getManager;
  mu_RUnlock;;
  mret (Z.of_nat (size (connections cm))).

(** The entry of a service without a handle. *)
Definition notConnected : ConnectionHealth :=
  {| State := "NotConnected"; Healthy := false;
     Error := "connection not established yet" |}.

(** The entry of a handle in state [st]. *)
Definition healthOf (st : connectivity.State) : ConnectionHealth :=
  {| State := StateString st;
     Healthy := bool_decide (st = connectivity.Ready);
     Error := "" |}.

(** The first loop of [HealthCheck], over [cm.addresses]. *)
Fixpoint healthAddresses (order : list (string * string))
    (result : gmap string ConnectionHealth) : M W (gmap string ConnectionHealth) :=
  match order with
  | [] => mret result
  | (name, _) :: rest =>
      conn ← lookupConn name;
      match conn with
      | None => healthAddresses rest (<[name := notConnected]> result)
      | Some c =>
          st ← conn_GetState c;
          healthAddresses rest (<[name := healthOf st]> result)
      end
  end.

(** The second loop of [HealthCheck], over [cm.connections]. *)
Fixpoint healthConnections (order : list (string * ClientConn))
    (result : gmap string ConnectionHealth) : M W (gmap string ConnectionHealth) :=
  match order with
  | [] => mret result
  | (name, conn) :: rest =>
      cm ← getManager;
      match addresses cm !! name with
      | Some _ => healthConnections rest result
      | None =>
          st ← conn_GetState conn;
          healthConnections rest (<[name := healthOf st]> result)
      end
  end.

(** [HealthCheck]: its only result is the map. *)
Definition HealthCheck (orderA : list (string * string))
    (orderC : list (string * ClientConn)) : M W (gmap string ConnectionHealth) :=
  mu_RLock;;
  result ← healthAddresses orderA ∅;
  result ← healthConnections orderC result;
  mu_RUnlock;;
  mret result.

End WithTransport.

(** ** Reading lock scopes off a trace *)






(** The handles closed in a trace, with the result of each close. *)
Definition closes (tr : list Event) : list (ClientConn * option error) :=
  omap (λ e, match e with EvClose c r => Some (c, r) | _ => None end) tr.

(** The addresses dialed in a trace. *)
Definition dials (tr : list Event) : list string :=
  omap (λ e, match e with EvDial a _ => Some a | _ => None end) tr.

(** The close events of a run over [order] with the given results. *)
Definition closeEvents (order : list (string * ClientConn))
    (results : list (option error)) : list Event :=
  zip_with (λ p r, EvClose p.2 r) order results.

(** The first and the last error among the results of a run of closes. *)
Definition firstError (rs : list (option error)) : option error :=
  foldr (λ r acc, match r with Some e => Some e | None => acc end) None rs.
Definition lastError (rs : list (option error)) : option error :=
  foldl (λ acc r, match r with Some e => Some e | None => acc end) None rs.

(** Every tracked handle has a registered, non-empty address. *)
Definition registered (cm : ConnectionManager) : Prop :=
  ∀ name conn, connections cm !! name = Some conn →
    ∃ address, addresses cm !! name = Some address ∧ address ≠ "".

End Manager.


(** Unfolds the monad and the primitive actions of the registry. *)
Ltac run :=
  unfold Manager.mu_Lock, Manager.mu_Unlock, Manager.mu_RLock, Manager.mu_RUnlock,
    Manager.setAddress, Manager.lookupAddress, Manager.lookupConn, Manager.setConn,
    Manager.deleteConn, Manager.resetMaps, Manager.createConnection,
    Manager.emit, Manager.getManager, Manager.modifyManager,
    Manager.conn_GetState, Manager.meanwhile, Manager.conn_Close,
    Manager.grpc_DialContext,
    mbind, Manager.M_bind, mret, Manager.M_ret in *;
  cbn [Manager.mgr Manager.world Manager.trace Manager.connections Manager.addresses Manager.config Manager.metrics fst snd] in *.


(* ===================================================================== *)
(** * Concrete worlds for running the model *)
(* ===================================================================== *)

Module Fixtures.

(** A world for the interceptors: a clock and the number of invocations
    made so far. *)
Record Sim : Type := mkSim { clock : Time; invocations : nat }.

#[global] Instance Sim_Clock : Clock Sim := {| now := clock |}.

(** The context of the simulation is never cancelled. *)
#[global] Instance Sim_Sleeper : Retry.Sleeper Sim :=
  {| Retry.backoffWait := λ d w, (None, mkSim (clock w + d) (invocations w)) |}.

(** Multipliers are integers in the simulation. *)
#[global] Instance Z_Float64 : Retry.Float64 Z :=
  {| Retry.float_two := 2; Retry.scaleDuration := λ d m, d * m |}.

(** An invoker that takes [d] nanoseconds and answers by the number of the
    invocation, counted from 0. *)
Definition scripted (d : Duration) (script : nat → option error) : Invoker Sim :=
  λ w, (script (invocations w), mkSim (clock w + d) (S (invocations w))).

Definition unavailable : error := StatusError Unavailable "service unavailable".
Definition invalid : error := StatusError InvalidArgument "bad request".

(** The configuration of the repository's breaker test. *)
Definition breakerCfg : Breaker.CircuitBreakerConfig :=
  Breaker.mkConfig 2 1 Second [Unavailable].

(** A breaker configuration that takes three successes to close. *)
Definition breakerCfg3 : Breaker.CircuitBreakerConfig :=
  Breaker.mkConfig 2 3 Second [Unavailable].

(** The configuration of the repository's retry test. *)
Definition retryCfg : Retry.RetryConfig Z :=
  Retry.mkConfig 3 (10 * Millisecond) (100 * Millisecond) 2 [Unavailable].

(** The invoker of the repository's retry test: two failures, then success. *)
Definition failTwice : nat → option error :=
  λ n, if bool_decide (n < 2)%nat then Some unavailable else None.

(** A transport whose behaviour is tabulated: the state of each handle, the
    result of closing it and the result of dialing an address.  Closing a
    handle shuts it down. *)
Record Net : Type := mkNet {
  stateOf : Manager.ClientConn → connectivity.State;
  closeResult : Manager.ClientConn → option error;
  dialResult : string → Manager.ClientConn + error
}.

Definition stateName (st : connectivity.State) : string :=
  match st with
  | connectivity.Idle => "IDLE"
  | connectivity.Connecting => "CONNECTING"
  | connectivity.Ready => "READY"
  | connectivity.TransientFailure => "TRANSIENT_FAILURE"
  | connectivity.Shutdown => "SHUTDOWN"
  end.

#[global] Instance Net_Transport : Manager.Transport Net :=
  {| Manager.GetState := λ c w, stateOf w c;
     Manager.StateString := stateName;
     Manager.connClose := λ c w,
       (closeResult w c,
        mkNet (λ c', if bool_decide (c' = c) then connectivity.Shutdown else stateOf w c')
              (closeResult w) (dialResult w));
     Manager.DialContext := λ a _ w, (dialResult w a, w) |}.

(** Nothing happens in the tabulated transport unless the registry acts. *)
#[global] Instance Net_Elapsing : Elapsing Net := {| elapse := λ w, w |}.

Definition errA : error := OtherError "close a failed".
Definition errB : error := OtherError "close b failed".

(** Handles 1 and 2 are ready and fail to close, each with its own error;
    every dial succeeds with handle 3. *)
Definition net2 : Net :=
  mkNet (λ _, connectivity.Ready)
        (λ c, if bool_decide (c = 1%positive) then Some errA
              else if bool_decide (c = 2%positive) then Some errB else None)
        (λ _, inl 3%positive).

(** A manager that tracks handle 1 for service a and handle 2 for service b;
    service c is registered but has no handle. *)
Definition mgr2 : Manager.ConnectionManager :=
  Manager.mkManager (<["a" := 1%positive]> (<["b" := 2%positive]> ∅))
    (<["a" := "hosta:1"]> (<["b" := "hostb:1"]> (<["c" := "hostc:1"]> ∅)))
    Manager.DefaultConfig false.

Definition sys2 : Manager.Sys Net := Manager.mkSys mgr2 net2 [].

(** A manager that tracks nothing yet. *)
Definition mgr0 : Manager.ConnectionManager :=
  Manager.mkManager ∅ ∅ Manager.DefaultConfig false.

Definition sys0 : Manager.Sys Net := Manager.mkSys mgr0 net2 [].

End Fixtures.


(* ===================================================================== *)
(** * Histories of calls, the other interceptors and the metrics *)
(* ===================================================================== *)

Module History.
Import Breaker.

(** The bounds the breaker keeps on its counters. *)
Definition bounded (cb : CircuitBreaker) : Prop :=
  0 <= failures cb <= FailureThreshold (config cb) ∧
  0 <= successes cb <= SuccessThreshold (config cb) ∧
  (state cb = StateClosed → failures cb < FailureThreshold (config cb)) ∧
  (state cb = StateHalfOpen → successes cb < SuccessThreshold (config cb)).

Section WithWorld.
Context {W : Type} `{Clock W}.

(** A history of one breaker: before each call the world moves on (time
    passes), then the call is made with its own invoker. *)
Fixpoint CallEach (steps : list ((W → W) * Invoker W)) (cb : CircuitBreaker) (w : W)
  : CircuitBreaker * W :=
  match steps with
  | [] => (cb, w)
  | (pass, invoker) :: rest =>
      let '(_, cb1, w1) := Call cb invoker (pass w) in
      CallEach rest cb1 w1
  end.

(** [n] calls in a row through the closure of [CircuitBreakerInterceptor],
    all for one method. *)
Fixpoint Intercepts (n : nat) (cfg : option CircuitBreakerConfig) (metrics : bool)
    (method : string) (reply : option positive) (invoker : Invoker W)
    (breakers : gmap string CircuitBreaker) (w : W)
  : gmap string CircuitBreaker * W :=
  match n with
  | O => (breakers, w)
  | S n' =>
      let '(_, _, breakers1, w1) :=
        CircuitBreakerInterceptor cfg metrics method reply invoker breakers w in
      Intercepts n' cfg metrics method reply invoker breakers1 w1
  end.

(** A call through a breaker, as an invoker for an outer interceptor. *)
Definition throughBreaker (cb : CircuitBreaker) (invoker : Invoker W) : Invoker W :=
  λ w, let '(err, _, w1) := Call cb invoker w in (err, w1).

End WithWorld.

(** The clock of a world that carries a record of invocations. *)
#[global] Instance recording_Clock {W} `{Clock W} : Clock (W * list (option error)) :=
  {| now := λ s, now (fst s) |}.

(** A world that also carries the durations of the waits made so far. *)
#[global] Instance timing_Sleeper {W} `{Retry.Sleeper W} : Retry.Sleeper (W * list Duration) :=
  {| Retry.backoffWait := λ d '(w, waits),
       let '(r, w') := Retry.backoffWait d w in (r, (w', waits ++ [d])) |}.

(** An invoker on a world that carries the waits; it leaves them alone. *)
Definition timed {W} (invoker : Invoker W) : Invoker (W * list Duration) :=
  λ '(w, waits), let '(err, w') := invoker w in (err, (w', waits)).

End History.

(** [internal/metrics] and the metrics interceptor. *)
Module Metrics.

(** [codes.Code.String]. *)
Definition CodeString (c : Code) : string :=
  match c with
  | OK => "OK"
  | Canceled => "Canceled"
  | Unknown => "Unknown"
  | InvalidArgument => "InvalidArgument"
  | DeadlineExceeded => "DeadlineExceeded"
  | NotFound => "NotFound"
  | AlreadyExists => "AlreadyExists"
  | PermissionDenied => "PermissionDenied"
  | ResourceExhausted => "ResourceExhausted"
  | FailedPrecondition => "FailedPrecondition"
  | Aborted => "Aborted"
  | OutOfRange => "OutOfRange"
  | Unimplemented => "Unimplemented"
  | Internal => "Internal"
  | Unavailable => "Unavailable"
  | DataLoss => "DataLoss"
  | Unauthenticated => "Unauthenticated"
  end.

(** The arguments of one [RecordGRPCRequest]. *)
Record Request : Type := mkRequest {
  reqService : string;
  reqMethod : string;
  reqCode : string;
  reqDuration : Duration
}.

(** The closure returned by [MetricsInterceptor serviceName m]; [m] tells
    whether the metrics pointer is non-nil.  Returns the error, the request
    it recorded (if any) and the world.  The clock is read twice, before
    the invoker is called and after it has returned; the second reading is
    made in a world that has moved on since the invoker returned. *)
Definition MetricsInterceptor {W} `{Clock W} `{Elapsing W} (serviceName : string)
    (m : bool) (method : string) (invoker : Invoker W) (w : W)
  : option error * option Request * W :=
  if negb m then
    let '(err, w1) := invoker w in (err, None, w1)
  else
    let start := now w in
    let '(err, w1) := invoker w in
    let w2 := elapse w1 in
    let duration := Since w2 start in
    let code := match err with
                | Some e => CodeString (StatusCode (fst (FromError e)))
                | None => "OK"
                end in
    (err, Some (mkRequest serviceName method code duration), w2).

(** The gauge vector [grpcConnectionState]: the value of each series that
    was set, by its labels (service, state).  The values set are 0 and 1. *)
Abbreviation StateGauges := (gmap (string * string) Z).

(** [WithLabelValues(service, state).Set(v)]. *)
Definition setGauge (service state : string) (v : Z) (g : StateGauges) : StateGauges :=
  <[(service, state) := v]> g.

(** The five state labels [UpdateGRPCConnectionState] clears. *)
Definition stateLabels : list string :=
  ["Idle"; "Connecting"; "Ready"; "TransientFailure"; "Shutdown"].

(** [UpdateGRPCConnectionState]. *)
Definition UpdateGRPCConnectionState (service state : string) (g : StateGauges)
  : StateGauges :=
  let g := setGauge service "Idle" 0 g in
  let g := setGauge service "Connecting" 0 g in
  let g := setGauge service "Ready" 0 g in
  let g := setGauge service "TransientFailure" 0 g in
  let g := setGauge service "Shutdown" 0 g in
  setGauge service state 1 g.

End Metrics.

(** Sequences of operations on the registry. *)
Module Ops.
Import Manager.

(** The exported operations of the registry, with their arguments; a loop
    over a map comes with its visiting order. *)
Inductive Op : Type :=
  | OpGetConnection (serviceName address : string)
  | OpCloseConnection (serviceName : string)
  | OpClose (order : list (string * ClientConn))
  | OpGetConnectionsCount
  | OpHealthCheck (orderA : list (string * string)) (orderC : list (string * ClientConn)).

(** The address [GetConnection] works with: the one it is given or, when
    that is empty, the one stored for the service (empty when none is). *)
Definition resolved (cm : ConnectionManager) (serviceName address : string) : string :=
  if bool_decide (address ≠ "") then address
  else default "" (addresses cm !! serviceName).

(** The address map once [GetConnection] has stored a non-empty address. *)
Definition stored (cm : ConnectionManager) (serviceName address : string)
  : gmap string string :=
  if bool_decide (address ≠ "") then <[serviceName := address]> (addresses cm)
  else addresses cm.

(** What [GetConnection] returns for the result of a dial. *)
Definition dialed (serviceName : string) (d : ClientConn + error)
  : ClientConn + mgrError :=
  match d with
  | inl newConn => inl newConn
  | inr err => inr (ErrCreateConnection serviceName err)
  end.

(** The handle map after a dial with result [d]. *)
Definition installed (serviceName : string) (d : ClientConn + error)
    (conns : gmap string ClientConn) : gmap string ClientConn :=
  match d with
  | inl newConn => <[serviceName := newConn]> conns
  | inr _ => conns
  end.

(** The write to the handle map that follows a dial with result [d]. *)
Definition installing (serviceName : string) (d : ClientConn + error) : list Event :=
  match d with
  | inl newConn => [EvInstall serviceName newConn]
  | inr _ => []
  end.

Section WithTransport.
Context {W : Type} `{Transport W} `{Elapsing W}.

(** One operation, its result dropped. *)
Definition step (op : Op) : M W unit :=
  match op with
  | OpGetConnection serviceName address => GetConnection serviceName address;; mret tt
  | OpCloseConnection serviceName => CloseConnection serviceName;; mret tt
  | OpClose order => Close order;; mret tt
  | OpGetConnectionsCount => GetConnectionsCount;; mret tt
  | OpHealthCheck orderA orderC => HealthCheck orderA orderC;; mret tt
  end.

(** Operations one after the other. *)
Fixpoint exec (ops : list Op) : M W unit :=
  match ops with
  | [] => mret tt
  | op :: rest => step op;; exec rest
  end.

End WithTransport.
End Ops.

(** More worlds for running the model. *)
Module Scenarios.

(** A world whose context has a deadline: a wait that would pass it is cut
    short at the deadline with the context's error. *)
Record Timed : Type := mkTimed { tclock : Time; tdeadline : Time; tcalls : nat }.

#[global] Instance Timed_Clock : Clock Timed := {| now := tclock |}.

Definition deadlineExceeded : error := OtherError "context deadline exceeded".

#[global] Instance Timed_Sleeper : Retry.Sleeper Timed :=
  {| Retry.backoffWait := λ d w,
       if bool_decide (tdeadline w < tclock w + d)
       then (Some deadlineExceeded, mkTimed (tdeadline w) (tdeadline w) (tcalls w))
       else (None, mkTimed (tclock w + d) (tdeadline w) (tcalls w)) |}.

(** An invoker that takes one millisecond and always fails as unavailable. *)
Definition alwaysUnavailable : Invoker Timed :=
  λ w, (Some Fixtures.unavailable,
        mkTimed (tclock w + Millisecond) (tdeadline w) (S (tcalls w))).

(** Handle 1 has failed and closes with an error; dialing host good gives
    handle 7 and dialing any other address fails. *)
Definition dialError : error := StatusError Unavailable "connection refused".

Definition net1 : Fixtures.Net :=
  Fixtures.mkNet
    (λ c, if bool_decide (c = 1%positive) then connectivity.TransientFailure
          else connectivity.Ready)
    (λ c, if bool_decide (c = 1%positive) then Some Fixtures.errA else None)
    (λ a, if bool_decide (a = "good:1") then inl 7%positive else inr dialError).

(** A registry that tracks the failed handle 1 for service a. *)
Definition mgr1 : Manager.ConnectionManager :=
  Manager.mkManager (<["a" := 1%positive]> ∅) (<["a" := "good:1"]> ∅)
    Manager.DefaultConfig false.

Definition sys1 : Manager.Sys Fixtures.Net := Manager.mkSys mgr1 net1 [].

(** The same registry with an address that cannot be dialed. *)
Definition mgr1bad : Manager.ConnectionManager :=
  Manager.mkManager (<["a" := 1%positive]> ∅) (<["a" := "bad:1"]> ∅)
    Manager.DefaultConfig false.

Definition sys1bad : Manager.Sys Fixtures.Net := Manager.mkSys mgr1bad net1 [].

(** A nanosecond passes between two readings of the simulated clock. *)
#[global] Instance Sim_Elapsing : Elapsing Fixtures.Sim :=
  {| elapse := λ w, Fixtures.mkSim (Fixtures.clock w + 1) (Fixtures.invocations w) |}.

(** A transport in which connection attempts end by themselves: [settled]
    gives the state each handle has once the transport has carried on. *)
Record Flux : Type := mkFlux {
  present : Fixtures.Net;
  settled : Manager.ClientConn → connectivity.State
}.

#[global] Instance Flux_Transport : Manager.Transport Flux :=
  {| Manager.GetState := λ c w, Manager.GetState c (present w);
     Manager.StateString := Fixtures.stateName;
     Manager.connClose := λ c w,
       let '(r, n) := Manager.connClose c (present w) in
       (r, mkFlux n (λ c', if bool_decide (c' = c) then connectivity.Shutdown
                            else settled w c'));
     Manager.DialContext := λ a o w,
       let '(d, n) := Manager.DialContext a o (present w) in (d, mkFlux n (settled w)) |}.

#[global] Instance Flux_Elapsing : Elapsing Flux :=
  {| elapse := λ w,
       mkFlux (Fixtures.mkNet (settled w) (Fixtures.closeResult (present w))
                 (Fixtures.dialResult (present w)))
              (settled w) |}.

(** The failed handle 1 of [net1] is about to become ready again. *)
Definition flux1 : Flux := mkFlux net1 (λ _, connectivity.Ready).

Definition sysFlux : Manager.Sys Flux := Manager.mkSys mgr1 flux1 [].

(** The failed handle 1 of [net1] stays as it is. *)
Definition flux1stuck : Flux := mkFlux net1 (Fixtures.stateOf net1).

Definition sysStuck : Manager.Sys Flux := Manager.mkSys mgr1 flux1stuck [].

End Scenarios.

(* ===================================================================== *)
(** * Properties: machine integers *)
(* ===================================================================== *)

Lemma wrap_in_range (z : Z) : int_min <= z <= int_max → wrap z = z.
Proof.
  unfold wrap, int_min, int_max. intros Hz.
  rewrite Z.mod_small by lia. lia.
Qed.

Lemma incr_in_range (x : Z) : int_min <= x < int_max → incr x = x + 1.
Proof. intros Hx. unfold incr. apply wrap_in_range. lia. Qed.

Lemma saturate_in_range (d : Z) : int_min <= d <= int_max → saturate d = d.
Proof. unfold saturate. lia. Qed.

Lemma saturate_bounds (d : Z) : int_min <= saturate d <= int_max.
Proof. unfold saturate, int_min, int_max. lia. Qed.

(* ===================================================================== *)
(** * Properties: circuit breaker *)
(* ===================================================================== *)

Module BreakerFacts.
Import Breaker.

Section WithWorld.
Context {W : Type} `{Clock W}.

Lemma precheck_not_open (cb : CircuitBreaker) (w : W) :
  state cb ≠ StateOpen → precheck cb w = Some cb.
Proof. intros Hs. unfold precheck. by rewrite bool_decide_eq_false_2. Qed.

Lemma precheck_open_early (cb : CircuitBreaker) (w : W) :
  state cb = StateOpen → Since w (lastFailure cb) < Timeout (config cb) →
  precheck cb w = None.
Proof.
  intros Hs Ht. unfold precheck.
  rewrite bool_decide_eq_true_2 by done. by rewrite bool_decide_eq_true_2.
Qed.

Lemma precheck_open_late (cb : CircuitBreaker) (w : W) :
  state cb = StateOpen → Timeout (config cb) <= Since w (lastFailure cb) →
  precheck cb w = Some (set_successes 0 (set_state StateHalfOpen cb)).
Proof.
  intros Hs Ht. unfold precheck.
  rewrite bool_decide_eq_true_2 by done.
  by rewrite bool_decide_eq_false_2 by lia.
Qed.

(** A call that is let through runs the invoker once and records its result. *)
Lemma Call_passed (cb cb1 : CircuitBreaker) (invoker : Invoker W) (w w1 : W)
    (err : option error) :
  precheck cb w = Some cb1 → invoker w = (err, w1) →
  Call cb invoker w = (err, record cb1 err w1, w1).
Proof. intros Ha Hi. unfold Call. by rewrite Ha, Hi. Qed.

Lemma record_config (cb : CircuitBreaker) (err : option error) (w : W) :
  config (record cb err w) = config cb.
Proof.
  unfold record. destruct err as [e|]; simpl.
  - destruct (isRetryable _ _); [|done]. simpl.
    repeat (case_bool_decide; simpl); done.
  - repeat (case_bool_decide; simpl); done.
Qed.

(** What a qualifying failure does to a breaker that is not half-open. *)
Lemma record_failure_counted (cb : CircuitBreaker) (e : error) (w : W) :
  qualifying (config cb) e = true → state cb ≠ StateHalfOpen →
  record cb (Some e) w =
    let cb2 := set_lastFailure (now w) (set_failures (incr (failures cb)) cb) in
    if bool_decide (incr (failures cb) >= FailureThreshold (config cb))
    then set_state StateOpen cb2 else cb2.
Proof.
  intros Hq Hs. unfold record. unfold qualifying in Hq. rewrite Hq. simpl.
  by rewrite bool_decide_eq_false_2.
Qed.

(** A qualifying failure while half-open opens the breaker. *)
Lemma record_failure_half_open (cb : CircuitBreaker) (e : error) (w : W) :
  qualifying (config cb) e = true → state cb = StateHalfOpen →
  state (record cb (Some e) w) = StateOpen ∧ failures (record cb (Some e) w) = 0.
Proof.
  intros Hq Hs. unfold record. unfold qualifying in Hq. rewrite Hq. simpl.
  by rewrite bool_decide_eq_true_2.
Qed.

(** A failure that does not qualify leaves the breaker as it was. *)
Lemma record_failure_ignored (cb : CircuitBreaker) (e : error) (w : W) :
  qualifying (config cb) e = false → record cb (Some e) w = cb.
Proof. intros Hq. unfold record. unfold qualifying in Hq. by rewrite Hq. Qed.

(** A success leaves a breaker that is not half-open in its state and
    clears the failure count. *)
Lemma record_success_other (cb : CircuitBreaker) (w : W) :
  state cb ≠ StateHalfOpen → record cb None w = set_failures 0 cb.
Proof. intros Hs. unfold record. simpl. by rewrite bool_decide_eq_false_2. Qed.

(** A success while half-open counts towards the success threshold. *)
Lemma record_success_half_open (cb : CircuitBreaker) (w : W) :
  state cb = StateHalfOpen →
  record cb None w =
    let cb2 := set_successes (incr (successes cb)) (set_failures 0 cb) in
    if bool_decide (incr (successes cb) >= SuccessThreshold (config cb))
    then set_state StateClosed cb2 else cb2.
Proof. intros Hs. unfold record. simpl. by rewrite bool_decide_eq_true_2. Qed.

(** [k] successes of a half-open breaker that started counting at 0, fewer
    than the threshold: still half-open, [k] successes counted. *)
Lemma Calls_half_open_below (k : nat) (cb : CircuitBreaker) (invoker : Invoker W) (w : W) :
  (∀ w0, fst (invoker w0) = None) →
  state cb = StateHalfOpen → 0 <= successes cb →
  successes cb + Z.of_nat k < SuccessThreshold (config cb) →
  SuccessThreshold (config cb) <= int_max →
  let cb' := fst (Calls k cb invoker w) in
  state cb' = StateHalfOpen ∧ successes cb' = successes cb + Z.of_nat k ∧
  config cb' = config cb.
Proof.
  intros Hok. revert cb w.
  induction k as [|k IH]; intros cb w Hs H0 Hlt Hmax; simpl.
  - split; [done|]. split; [lia|done].
  - unfold Call. rewrite precheck_not_open by (rewrite Hs; done).
    specialize (Hok w). destruct (invoker w) as [err w1]. simpl in Hok. subst err.
    rewrite record_success_half_open by done.
    assert (Hincr : incr (successes cb) = successes cb + 1).
    { apply incr_in_range. unfold int_min. unfold int_max in *. lia. }
    cbv zeta. rewrite Hincr.
    rewrite bool_decide_eq_false_2 by lia.
    set (cb1 := set_successes _ _).
    destruct (IH cb1 w1) as (IH1 & IH2 & IH3); subst cb1; simpl; try done; try lia.
    simpl in *. split; [done|]. split; [lia|done].
Qed.

(** The last of [S k] calls in a row. *)
Lemma Calls_snoc (k : nat) (cb : CircuitBreaker) (invoker : Invoker W) (w : W) :
  Calls (S k) cb invoker w =
    let '(cb1, w1) := Calls k cb invoker w in
    let '(_, cb2, w2) := Call cb1 invoker w1 in (cb2, w2).
Proof.
  revert cb w. induction k as [|k IH]; intros cb w.
  - simpl. by destruct (Call cb invoker w) as [[? ?] ?].
  - change (Calls (S (S k)) cb invoker w)
      with (let '(_, cb1, w1) := Call cb invoker w in Calls (S k) cb1 invoker w1).
    change (Calls (S k) cb invoker w)
      with (let '(_, cb1, w1) := Call cb invoker w in Calls k cb1 invoker w1).
    destruct (Call cb invoker w) as [[? cb1] w1]. by rewrite IH.
Qed.

(** The success that reaches the threshold closes a half-open breaker. *)
Lemma Calls_half_open_closes (cb : CircuitBreaker) (invoker : Invoker W) (w : W) :
  (∀ w0, fst (invoker w0) = None) →
  state cb = StateHalfOpen → successes cb = 0 →
  1 <= SuccessThreshold (config cb) <= int_max →
  state (fst (Calls (Z.to_nat (SuccessThreshold (config cb))) cb invoker w)) = StateClosed.
Proof.
  intros Hok Hs H0 Hth.
  destruct (Z.to_nat (SuccessThreshold (config cb))) as [|m] eqn:Hn; [lia|].
  rewrite Calls_snoc.
  destruct (Calls_half_open_below m cb invoker w) as (Hs1 & Hn1 & Hc1);
    try done; try lia.
  destruct (Calls m cb invoker w) as [cb1 w1]. simpl in Hs1, Hn1, Hc1.
  unfold Call. rewrite precheck_not_open by (rewrite Hs1; done).
  specialize (Hok w1). destruct (invoker w1) as [err w2]. simpl in Hok. subst err.
  rewrite record_success_half_open by done. cbv zeta.
  rewrite incr_in_range by (unfold int_min; unfold int_max in *; lia).
  rewrite bool_decide_eq_true_2; [done|]. simpl. rewrite Hc1. lia.
Qed.

(** A qualifying failure stamps the breaker with the time at which the
    failing call returned. *)
Lemma record_failure_stamped (cb : CircuitBreaker) (e : error) (w : W) :
  qualifying (config cb) e = true → lastFailure (record cb (Some e) w) = now w.
Proof.
  intros Hq. unfold record. unfold qualifying in Hq. rewrite Hq. simpl.
  repeat (case_bool_decide; simpl); done.
Qed.

(** A call to an open breaker made once the timeout has elapsed is the call
    of the same breaker, half-open and with no success counted. *)
Lemma Call_open_late (cb : CircuitBreaker) (invoker : Invoker W) (w : W) :
  state cb = StateOpen → Timeout (config cb) <= Since w (lastFailure cb) →
  Call cb invoker w = Call (set_successes 0 (set_state StateHalfOpen cb)) invoker w.
Proof.
  intros Hs Ht. unfold Call. rewrite precheck_open_late by done.
  by rewrite precheck_not_open by (simpl; done).
Qed.

Lemma Calls_open_late (k : nat) (cb : CircuitBreaker) (invoker : Invoker W) (w : W) :
  state cb = StateOpen → Timeout (config cb) <= Since w (lastFailure cb) →
  Calls (S k) cb invoker w =
    Calls (S k) (set_successes 0 (set_state StateHalfOpen cb)) invoker w.
Proof.
  intros Hs Ht.
  change (Calls (S k) cb invoker w)
    with (let '(_, cb1, w1) := Call cb invoker w in Calls k cb1 invoker w1).
  by rewrite Call_open_late.
Qed.

(** C1.  With [FailureThreshold = 2]: two qualifying failures in a row take
    a closed breaker with no failure counted to open (it is still closed
    after the first), and the open breaker carries the time at which the
    second failing call returned.  Measured from that time: a call made
    before the timeout has elapsed returns the unavailable error and leaves
    breaker and world as they were, whatever the invoker; a call made once
    the timeout has elapsed is let through to the invoker by the breaker
    half-open with success count 0; and [SuccessThreshold] successes in a
    row from then on close it, fewer leaving it half-open.  The same holds
    of any open breaker, measured from the time it carries.
    [SuccessThreshold] successes in a row close a half-open breaker, and
    fewer leave it half-open; one qualifying failure while half-open opens
    it again, and the timeout then runs from the time that failing call
    returned. *)
Theorem breaker_lifecycle (cfg : CircuitBreakerConfig) :
  FailureThreshold cfg = 2 →
  1 <= SuccessThreshold cfg <= int_max →
  (∀ cb (inv1 inv2 : Invoker W) w e1 w1 e2 w2,
     config cb = cfg → state cb = StateClosed → failures cb = 0 →
     inv1 w = (Some e1, w1) → qualifying cfg e1 = true →
     inv2 w1 = (Some e2, w2) → qualifying cfg e2 = true →
     ∃ cb1 cb2,
       Call cb inv1 w = (Some e1, cb1, w1) ∧ state cb1 = StateClosed ∧
       Call cb1 inv2 w1 = (Some e2, cb2, w2) ∧ state cb2 = StateOpen ∧
       config cb2 = cfg ∧ lastFailure cb2 = now w2 ∧
       (∀ (inv : Invoker W) w3,
          Since w3 (now w2) < Timeout cfg →
          Call cb2 inv w3 = (Some errOpen, cb2, w3)) ∧
       (∀ (inv : Invoker W) w3 err w4,
          Timeout cfg <= Since w3 (now w2) → inv w3 = (err, w4) →
          ∃ cbH,
            precheck cb2 w3 = Some cbH ∧ state cbH = StateHalfOpen ∧
            successes cbH = 0 ∧ config cbH = cfg ∧
            Call cb2 inv w3 = (err, record cbH err w4, w4)) ∧
       (∀ (inv : Invoker W) w3,
          Timeout cfg <= Since w3 (now w2) → (∀ w0, fst (inv w0) = None) →
          (∀ k, (0 < k < Z.to_nat (SuccessThreshold cfg))%nat →
                state (fst (Calls k cb2 inv w3)) = StateHalfOpen) ∧
          state (fst (Calls (Z.to_nat (SuccessThreshold cfg)) cb2 inv w3)) = StateClosed)) ∧
  (∀ cb (inv : Invoker W) w,
     config cb = cfg → state cb = StateOpen →
     Since w (lastFailure cb) < Timeout cfg →
     Call cb inv w = (Some errOpen, cb, w) ∧
     StatusCode (fst (FromError errOpen)) = Unavailable) ∧
  (∀ cb (inv : Invoker W) w err w1,
     config cb = cfg → state cb = StateOpen →
     Timeout cfg <= Since w (lastFailure cb) →
     inv w = (err, w1) →
     ∃ cbH,
       precheck cb w = Some cbH ∧ state cbH = StateHalfOpen ∧ successes cbH = 0 ∧
       config cbH = cfg ∧
       Call cb inv w = (err, record cbH err w1, w1)) ∧
  (∀ cb (inv : Invoker W) w,
     config cb = cfg → state cb = StateHalfOpen → successes cb = 0 →
     (∀ w0, fst (inv w0) = None) →
     (∀ k, (k < Z.to_nat (SuccessThreshold cfg))%nat →
           state (fst (Calls k cb inv w)) = StateHalfOpen) ∧
     state (fst (Calls (Z.to_nat (SuccessThreshold cfg)) cb inv w)) = StateClosed) ∧
  (∀ cb (inv : Invoker W) w e w1,
     config cb = cfg → state cb = StateHalfOpen →
     inv w = (Some e, w1) → qualifying cfg e = true →
     ∃ cb',
       Call cb inv w = (Some e, cb', w1) ∧ state cb' = StateOpen ∧
       config cb' = cfg ∧ lastFailure cb' = now w1 ∧
       (∀ (inv' : Invoker W) w2,
          Since w2 (now w1) < Timeout cfg →
          Call cb' inv' w2 = (Some errOpen, cb', w2))).
Proof.
  intros Hft Hst.
  assert (Hrejected : ∀ cb (inv : Invoker W) w,
            config cb = cfg → state cb = StateOpen →
            Since w (lastFailure cb) < Timeout cfg →
            Call cb inv w = (Some errOpen, cb, w)).
  { intros cb inv w Hc Hs Ht. subst cfg. unfold Call. by rewrite precheck_open_early. }
  assert (Hlet : ∀ cb (inv : Invoker W) w err w1,
            config cb = cfg → state cb = StateOpen →
            Timeout cfg <= Since w (lastFailure cb) → inv w = (err, w1) →
            ∃ cbH,
              precheck cb w = Some cbH ∧ state cbH = StateHalfOpen ∧
              successes cbH = 0 ∧ config cbH = cfg ∧
              Call cb inv w = (err, record cbH err w1, w1)).
  { intros cb inv w err w1 Hc Hs Ht Hi. subst cfg.
    eexists. split; [by apply precheck_open_late|].
    split; [done|]. split; [done|]. split; [done|].
    apply Call_passed; [by apply precheck_open_late|done]. }
  assert (Hsucc : ∀ cb (inv : Invoker W) w,
            config cb = cfg → state cb = StateHalfOpen → successes cb = 0 →
            (∀ w0, fst (inv w0) = None) →
            (∀ k, (k < Z.to_nat (SuccessThreshold cfg))%nat →
                  state (fst (Calls k cb inv w)) = StateHalfOpen) ∧
            state (fst (Calls (Z.to_nat (SuccessThreshold cfg)) cb inv w)) = StateClosed).
  { intros cb inv w Hc Hs H0 Hok. subst cfg. split.
    - intros k Hk.
      by destruct (Calls_half_open_below k cb inv w) as (? & _); try done; lia.
    - by apply Calls_half_open_closes. }
  split; [|split; [|split; [|split]]].
  - (* two failures *)
    intros cb inv1 inv2 w e1 w1 e2 w2 Hc Hs Hf Hi1 Hq1 Hi2 Hq2.
    assert (Hr1 : record cb (Some e1) w1 =
                  set_lastFailure (now w1) (set_failures 1 cb)).
    { rewrite record_failure_counted by (try done; rewrite ?Hc, ?Hs; done).
      cbv zeta. rewrite Hf, Hc, Hft. change (incr 0) with 1.
      by rewrite bool_decide_eq_false_2 by lia. }
    assert (Hr2 : record (record cb (Some e1) w1) (Some e2) w2 =
                  set_state StateOpen
                    (set_lastFailure (now w2)
                       (set_failures 2 (set_lastFailure (now w1) (set_failures 1 cb))))).
    { rewrite Hr1.
      rewrite record_failure_counted by (simpl; rewrite ?Hc, ?Hs; done).
      cbv zeta. simpl. rewrite Hc, Hft. change (incr 1) with 2.
      by rewrite bool_decide_eq_true_2 by lia. }
    exists (record cb (Some e1) w1), (record (record cb (Some e1) w1) (Some e2) w2).
    split; [|split; [|split; [|split; [|split; [|split; [|split; [|split]]]]]]].
    + apply Call_passed; [|exact Hi1]. apply precheck_not_open. by rewrite Hs.
    + by rewrite Hr1.
    + apply Call_passed; [|exact Hi2]. apply precheck_not_open.
      rewrite Hr1. simpl. by rewrite Hs.
    + by rewrite Hr2.
    + by rewrite Hr2.
    + by rewrite Hr2.
    + intros inv w3 Ht. apply Hrejected; rewrite Hr2; done.
    + intros inv w3 err w4 Ht Hi. apply Hlet; try done; rewrite Hr2; done.
    + intros inv w3 Ht Hok. rewrite Hr2.
      set (cb2 := set_state StateOpen _).
      set (cbH := set_successes 0 (set_state StateHalfOpen cb2)).
      assert (Hopen : ∀ k, Calls (S k) cb2 inv w3 = Calls (S k) cbH inv w3).
      { intros k. apply Calls_open_late; [done|]. subst cb2. simpl. by rewrite Hc. }
      destruct (Hsucc cbH inv w3) as [Hbelow Hclosed]; try done.
      split.
      * intros [|k] Hk; [lia|]. rewrite Hopen. apply Hbelow. lia.
      * destruct (Z.to_nat (SuccessThreshold cfg)) as [|m] eqn:Hn; [lia|].
        by rewrite Hopen.
  - (* rejected *)
    intros cb inv w Hc Hs Ht. split; [by apply Hrejected|done].
  - (* let through *)
    exact Hlet.
  - (* successes *)
    exact Hsucc.
  - (* failure while half-open *)
    intros cb inv w e w1 Hc Hs Hi Hq.
    assert (Hq' : qualifying (config cb) e = true) by (by rewrite Hc).
    destruct (record_failure_half_open cb e w1 Hq' Hs) as [Ho _].
    exists (record cb (Some e) w1).
    split; [|split; [|split; [|split]]].
    + apply Call_passed; [|exact Hi]. apply precheck_not_open. by rewrite Hs.
    + done.
    + by rewrite record_config.
    + by apply record_failure_stamped.
    + intros inv' w2 Ht. apply Hrejected; [by rewrite record_config|done|].
      by rewrite record_failure_stamped.
Qed.

(** C3, as the code has it.  A call through a closed breaker opens it
    exactly when the call fails with a qualifying error and the failure
    count, with this failure counted, is at least the failure threshold;
    the breaker then keeps that count (it is not reset), and in every other
    case it stays closed. *)
Theorem closed_opens_at_threshold (cb : CircuitBreaker) (inv : Invoker W) (w : W) :
  state cb = StateClosed →
  let '(err, cb', _) := Call cb inv w in
  (state cb' = StateOpen ↔
     (∃ e, err = Some e ∧ qualifying (config cb) e = true) ∧
     incr (failures cb) >= FailureThreshold (config cb)) ∧
  (state cb' = StateOpen →
     failures cb' = incr (failures cb) ∧
     failures cb' >= FailureThreshold (config cb')) ∧
  (state cb' ≠ StateOpen → state cb' = StateClosed).
Proof.
  intros Hs. unfold Call. rewrite precheck_not_open by (rewrite Hs; done).
  destruct (inv w) as [[e|] w1].
  - destruct (qualifying (config cb) e) eqn:Hq.
    + rewrite record_failure_counted by (try done; rewrite Hs; done). cbv zeta.
      case_bool_decide as Hth; simpl.
      * split; [|split]; [split| |]; try done. intros _. split; [eauto|done].
      * rewrite Hs. split; [|split]; [split| |]; try done.
        intros [_ Hge]. done.
    + rewrite record_failure_ignored by done. rewrite Hs.
      split; [|split]; [split| |]; try done.
      intros [(e' & He' & Hq') _]. congruence.
  - rewrite record_success_other by (rewrite Hs; done). simpl. rewrite Hs.
    split; [|split]; [split| |]; try done.
    intros [(e' & He' & _) _]. done.
Qed.

(** C10.  The interceptor runs the call through the breaker of its method;
    when that returns no error and the reply is nil it returns the
    Internal-code error, and otherwise returns what the breaker returned;
    the world is the one the breaker's call left. *)
Theorem interceptor_nil_reply (cfg : option CircuitBreakerConfig) (metrics : bool)
    (method : string) (reply : option positive) (inv : Invoker W)
    (breakers : gmap string CircuitBreaker) (w : W) :
  let breaker := fst (getBreaker cfg method breakers) in
  let '(err, _, w1) := Call breaker inv w in
  let '(res, _, _, w') :=
    CircuitBreakerInterceptor cfg metrics method reply inv breakers w in
  w' = w1 ∧
  (err = None → reply = None → res = Some errNilReply) ∧
  StatusCode (fst (FromError errNilReply)) = Internal ∧
  (¬ (err = None ∧ reply = None) → res = err).
Proof.
  unfold CircuitBreakerInterceptor.
  destruct (getBreaker cfg method breakers) as [breaker breakers1]. simpl.
  destruct (Call breaker inv w) as [[err cb'] w1].
  destruct err as [e|], reply as [r|]; simpl; repeat split; try done.
  all: intros Hn; exfalso; apply Hn; done.
Qed.

End WithWorld.

(** The lifecycle on the simulated world, from a fresh breaker that needs
    two failures to open, three successes to close and one second to probe
    again.  The two failing calls return at 1 s and at 2 s; the breaker
    they open rejects the calls made at 2 s + 1 ns and at 3 s - 1 ns and lets
    the call made at 3 s through. *)
Lemma breaker_lifecycle_run :
  let failing := Fixtures.scripted Second (λ _, Some Fixtures.unavailable) in
  let passing := Fixtures.scripted Second (λ _, None) in
  let cb0 := NewCircuitBreaker (Some Fixtures.breakerCfg3) in
  ∃ cb1 cb2,
    Call cb0 failing (Fixtures.mkSim 0 0)
      = (Some Fixtures.unavailable, cb1, Fixtures.mkSim Second 1) ∧
    state cb1 = StateClosed ∧
    Call cb1 failing (Fixtures.mkSim Second 1)
      = (Some Fixtures.unavailable, cb2, Fixtures.mkSim (2 * Second) 2) ∧
    state cb2 = StateOpen ∧ lastFailure cb2 = 2 * Second ∧
    Call cb2 passing (Fixtures.mkSim (2 * Second + 1) 2)
      = (Some errOpen, cb2, Fixtures.mkSim (2 * Second + 1) 2) ∧
    Call cb2 passing (Fixtures.mkSim (3 * Second - 1) 2)
      = (Some errOpen, cb2, Fixtures.mkSim (3 * Second - 1) 2) ∧
    (∃ cbH,
       precheck cb2 (Fixtures.mkSim (3 * Second) 2) = Some cbH ∧
       state cbH = StateHalfOpen ∧ successes cbH = 0 ∧
       Call cb2 passing (Fixtures.mkSim (3 * Second) 2)
         = (None, record cbH None (Fixtures.mkSim (4 * Second) 3),
            Fixtures.mkSim (4 * Second) 3) ∧
       state (fst (Calls 2 cbH passing (Fixtures.mkSim (3 * Second) 2))) = StateHalfOpen ∧
       state (fst (Calls 3 cbH passing (Fixtures.mkSim (3 * Second) 2))) = StateClosed ∧
       ∃ cb',
         Call cbH failing (Fixtures.mkSim (3 * Second) 2)
           = (Some Fixtures.unavailable, cb', Fixtures.mkSim (4 * Second) 3) ∧
         state cb' = StateOpen ∧ lastFailure cb' = 4 * Second ∧
         Call cb' passing (Fixtures.mkSim (5 * Second - 1) 3)
           = (Some errOpen, cb', Fixtures.mkSim (5 * Second - 1) 3)) ∧
    state (fst (Calls 2 cb2 passing (Fixtures.mkSim (3 * Second) 2))) = StateHalfOpen ∧
    state (fst (Calls 3 cb2 passing (Fixtures.mkSim (3 * Second) 2))) = StateClosed.
Proof.
  intros failing passing cb0.
  destruct (breaker_lifecycle (W := Fixtures.Sim) Fixtures.breakerCfg3)
    as (H1 & _ & _ & H4 & H5).
  - reflexivity.
  - simpl. unfold int_max. lia.
  - destruct (H1 cb0 failing failing (Fixtures.mkSim 0 0)
                Fixtures.unavailable (Fixtures.mkSim Second 1)
                Fixtures.unavailable (Fixtures.mkSim (2 * Second) 2))
      as (cb1 & cb2 & Hc1 & Hs1 & Hc2 & Hs2 & Hcfg2 & Hlf & Hrej & Hlet & Hcl);
      try reflexivity.
    exists cb1, cb2.
    split; [exact Hc1|]. split; [exact Hs1|]. split; [exact Hc2|].
    split; [exact Hs2|]. split; [exact Hlf|].
    split; [apply Hrej; reflexivity|]. split; [apply Hrej; reflexivity|].
    split; [|split].
    + destruct (Hlet passing (Fixtures.mkSim (3 * Second) 2) None
                  (Fixtures.mkSim (4 * Second) 3))
        as (cbH & Hp & HsH & HnH & HcfgH & HcallH); [by vm_compute|reflexivity|].
      exists cbH.
      split; [exact Hp|]. split; [exact HsH|]. split; [exact HnH|].
      split; [exact HcallH|].
      destruct (H4 cbH passing (Fixtures.mkSim (3 * Second) 2) HcfgH HsH HnH)
        as [Hbelow Hclosed]; [reflexivity|].
      split; [apply Hbelow; simpl; lia|]. split; [exact Hclosed|].
      destruct (H5 cbH failing (Fixtures.mkSim (3 * Second) 2) Fixtures.unavailable
                  (Fixtures.mkSim (4 * Second) 3) HcfgH HsH)
        as (cb' & Hc' & Hs' & _ & Hlf' & Hrej'); try reflexivity.
      exists cb'. split; [exact Hc'|]. split; [exact Hs'|]. split; [exact Hlf'|].
      apply Hrej'. reflexivity.
    + apply (Hcl passing (Fixtures.mkSim (3 * Second) 2)); [by vm_compute|reflexivity|].
      simpl. lia.
    + apply (Hcl passing (Fixtures.mkSim (3 * Second) 2)); [by vm_compute|reflexivity].
Defined.

(** C3 as stated fails on the breaker of the repository's test: its second
    failing call takes it from closed to open, and the failure count is then
    2, not 0. *)
Lemma closed_to_open_keeps_count :
  let failing := Fixtures.scripted Second (λ _, Some Fixtures.unavailable) in
  let cb0 := NewCircuitBreaker (Some Fixtures.breakerCfg) in
  let '(cb1, w1) := Calls 1 cb0 failing (Fixtures.mkSim 0 0) in
  let '(_, cb2, _) := Call cb1 failing w1 in
  state cb1 = StateClosed ∧ state cb2 = StateOpen ∧
  failures cb2 = 2 ∧ failures cb2 ≠ 0.
Proof. vm_compute. repeat split; discriminate. Qed.

(** The closed breaker of the test with one failure counted meets its
    threshold of two at the next qualifying failure. *)
Lemma closed_opens_at_threshold_run :
  let failing := Fixtures.scripted Second (λ _, Some Fixtures.unavailable) in
  let cb1 := mkBreaker StateClosed 1 0 Second Fixtures.breakerCfg in
  let '(err, cb', _) := Call cb1 failing (Fixtures.mkSim Second 1) in
  (state cb' = StateOpen ↔
     (∃ e, err = Some e ∧ qualifying Fixtures.breakerCfg e = true) ∧
     incr 1 >= 2) ∧
  (state cb' = StateOpen → failures cb' = incr 1 ∧ failures cb' >= 2) ∧
  (state cb' ≠ StateOpen → state cb' = StateClosed).
Proof.
  exact (closed_opens_at_threshold (W := Fixtures.Sim)
           (mkBreaker StateClosed 1 0 Second Fixtures.breakerCfg)
           (Fixtures.scripted Second (λ _, Some Fixtures.unavailable))
           (Fixtures.mkSim Second 1) eq_refl).
Defined.

(** A successful call with a nil reply through a fresh interceptor. *)
Lemma interceptor_nil_reply_run :
  let passing := Fixtures.scripted Second (λ _, None) in
  let '(res, gauge, _, _) :=
    CircuitBreakerInterceptor None true "svc/Method" None passing ∅
      (Fixtures.mkSim 0 0) in
  res = Some errNilReply ∧ gauge = Some 0.
Proof.
  pose proof (interceptor_nil_reply (W := Fixtures.Sim) None true "svc/Method" None
                (Fixtures.scripted Second (λ _, None)) ∅ (Fixtures.mkSim 0 0)) as Hi.
  cbv zeta in Hi |- *.
  destruct (Call _ _ _) as [[err cb'] w1] eqn:Hcall in Hi.
  destruct (CircuitBreakerInterceptor _ _ _ _ _ _ _) as [[[res gauge] bs] w'] eqn:Hrun.
  destruct Hi as (_ & Hnil & _ & _).
  split.
  - apply Hnil; [|done]. vm_compute in Hcall. by inversion Hcall.
  - vm_compute in Hrun. by inversion Hrun.
Defined.

End BreakerFacts.


(* ===================================================================== *)
(** * Properties: retry interceptor *)
(* ===================================================================== *)

Module RetryFacts.
Import Retry.

Section WithWorld.
Context {W F : Type} `{Sleeper W} `{Float64 F}.

Lemma retryable_status (cfg : RetryConfig F) (e : error) :
  retryable cfg e = true →
  ∃ st, FromError e = (st, true) ∧ isRetryable st (RetryableCodes cfg) = true.
Proof.
  unfold retryable. destruct (FromError e) as [st ok]. simpl.
  intros [-> Hr]%andb_true_iff. eauto.
Qed.

(** A round whose invocation succeeds ends the loop with success. *)
Lemma retryLoop_success (fuel : nat) (cfg : RetryConfig F) (invoker : Invoker W)
    (attempt : Z) (backoff : Duration) (lastErr : option error) (w w1 : W) :
  attempt <= MaxAttempts cfg → invoker w = (None, w1) →
  retryLoop (S fuel) cfg invoker attempt backoff lastErr w = (None, w1).
Proof.
  intros Ha Hi. simpl. rewrite bool_decide_eq_true_2 by done. by rewrite Hi.
Qed.

(** A round whose invocation fails with an error that is not retried, or
    the last round, ends the loop with the error of the invocation. *)
Lemma retryLoop_final (fuel : nat) (cfg : RetryConfig F) (invoker : Invoker W)
    (attempt : Z) (backoff : Duration) (lastErr : option error) (w w1 : W) (e : error) :
  attempt <= MaxAttempts cfg → invoker w = (Some e, w1) →
  retryable cfg e = false ∨ attempt >= MaxAttempts cfg →
  retryLoop (S fuel) cfg invoker attempt backoff lastErr w = (Some e, w1).
Proof.
  intros Ha Hi Hend. simpl. rewrite bool_decide_eq_true_2 by done. rewrite Hi.
  unfold retryable in Hend. destruct (FromError e) as [st ok]. simpl in Hend.
  destruct ok; simpl; [|done].
  destruct (isRetryable st (RetryableCodes cfg)); simpl; [|done].
  destruct Hend as [Hf|Hge]; [done|]. by rewrite bool_decide_eq_true_2.
Qed.

(** A round whose invocation fails with a retried error before the last
    attempt waits and goes on to the next round. *)
Lemma retryLoop_retry (fuel : nat) (cfg : RetryConfig F) (invoker : Invoker W)
    (attempt : Z) (backoff : Duration) (lastErr : option error) (w w1 w2 : W) (e : error) :
  attempt < MaxAttempts cfg → invoker w = (Some e, w1) → retryable cfg e = true →
  backoffWait backoff w1 = (None, w2) →
  retryLoop (S fuel) cfg invoker attempt backoff lastErr w =
  retryLoop fuel cfg invoker (incr attempt) (nextBackoff cfg backoff) (Some e) w2.
Proof.
  intros Ha Hi Hr Hw. simpl. rewrite bool_decide_eq_true_2 by lia. rewrite Hi.
  destruct (retryable_status cfg e Hr) as (st & -> & ->). simpl.
  rewrite bool_decide_eq_false_2 by lia. by rewrite Hw.
Qed.

(** A wait that the context cuts short ends the loop with the context's error. *)
Lemma retryLoop_cancelled (fuel : nat) (cfg : RetryConfig F) (invoker : Invoker W)
    (attempt : Z) (backoff : Duration) (lastErr : option error) (w w1 w2 : W)
    (e ctxErr : error) :
  attempt < MaxAttempts cfg → invoker w = (Some e, w1) → retryable cfg e = true →
  backoffWait backoff w1 = (Some ctxErr, w2) →
  retryLoop (S fuel) cfg invoker attempt backoff lastErr w = (Some ctxErr, w2).
Proof.
  intros Ha Hi Hr Hw. simpl. rewrite bool_decide_eq_true_2 by lia. rewrite Hi.
  destruct (retryable_status cfg e Hr) as (st & -> & ->). simpl.
  rewrite bool_decide_eq_false_2 by lia. by rewrite Hw.
Qed.

(** The fuel [RetryInterceptor] gives the loop is enough: more changes nothing. *)
Lemma retryLoop_fuel (fuel : nat) (cfg : RetryConfig F) (invoker : Invoker W)
    (attempt : Z) (backoff : Duration) (lastErr : option error) (w : W) :
  1 <= attempt → MaxAttempts cfg <= int_max →
  (Z.to_nat (MaxAttempts cfg - attempt + 1) ≤ fuel)%nat →
  retryLoop (S fuel) cfg invoker attempt backoff lastErr w =
  retryLoop fuel cfg invoker attempt backoff lastErr w.
Proof.
  intros H1 Hmax. revert attempt backoff lastErr w H1.
  induction fuel as [|fuel IH]; intros attempt backoff lastErr w H1 Hf.
  - simpl. by rewrite bool_decide_eq_false_2 by lia.
  - cbn [retryLoop]. case_bool_decide as Hle; [|done].
    destruct (invoker w) as [[e|] w1]; [|done].
    destruct (FromError e) as [st ok]. destruct ok; simpl; [|done].
    destruct (isRetryable st (RetryableCodes cfg)); simpl; [|done].
    case_bool_decide as Hge; [done|].
    destruct (backoffWait backoff w1) as [[ctxErr|] w2]; [done|].
    assert (Hincr : incr attempt = attempt + 1).
    { apply incr_in_range. unfold int_min. lia. }
    rewrite Hincr. apply IH; lia.
Qed.

(** With a context that is done during the first wait, the interceptor
    stops after one invocation and returns the context's error. *)
Lemma RetryInterceptor_cancelled (cfg : RetryConfig F) (invoker : Invoker W)
    (w w1 w2 : W) (e ctxErr : error) :
  1 < MaxAttempts cfg → invoker w = (Some e, w1) → retryable cfg e = true →
  backoffWait (InitialBackoff cfg) w1 = (Some ctxErr, w2) →
  RetryInterceptor (Some cfg) invoker w = (Some ctxErr, w2).
Proof.
  intros Hmax Hi Hr Hw. unfold RetryInterceptor. simpl default.
  destruct (Z.to_nat (MaxAttempts cfg)) as [|fuel] eqn:Hn; [lia|].
  by apply (retryLoop_cancelled _ _ _ _ _ _ _ w1 w2 e).
Qed.

End WithWorld.

Section Recorded.
Context {W F : Type} `{Sleeper W} `{Float64 F}.

(** What the recording invoker and the wait do to the record. *)
Lemma recording_run (invoker : Invoker W) (w w1 : W) (err : option error)
    (log : list (option error)) :
  invoker w = (err, w1) → recording invoker (w, log) = (err, (w1, log ++ [err])).
Proof. intros Hi. unfold recording. by rewrite Hi. Qed.

Lemma recording_wait (d : Duration) (w w1 : W) (r : option error)
    (log : list (option error)) :
  backoffWait d w = (r, w1) → backoffWait d (w, log) = (r, (w1, log)).
Proof. intros Hw. simpl. by rewrite Hw. Qed.

(** When every invocation fails with a retried error and no wait is cut
    short, the rounds from [attempt] to [MaxAttempts] are all made and the
    loop returns the error of the last one. *)
Lemma retryLoop_exhausted (fuel : nat) (cfg : RetryConfig F) (invoker : Invoker W) :
  (∀ w, ∃ e w1, invoker w = (Some e, w1) ∧ retryable cfg e = true) →
  (∀ d w, fst (backoffWait d w) = None) →
  MaxAttempts cfg <= int_max →
  ∀ (attempt : Z) (backoff : Duration) (lastErr : option error) (w : W)
    (log0 : list (option error)),
    1 <= attempt → Z.of_nat (S fuel) = MaxAttempts cfg - attempt + 1 →
    ∃ e w' log,
      retryLoop (S fuel) cfg (recording invoker) attempt backoff lastErr (w, log0)
        = (Some e, (w', log0 ++ log)) ∧
      length log = S fuel ∧ last log = Some (Some e) ∧
      Forall (λ r, ∃ e', r = Some e' ∧ retryable cfg e' = true) log.
Proof.
  intros Hfail Hwait Hmax.
  induction fuel as [|fuel IH]; intros attempt backoff lastErr w log0 H1 Hf.
  - destruct (Hfail w) as (e & w1 & Hi & Hr).
    exists e, w1, [Some e]. split; [|split; [done|split; [done|]]].
    + apply retryLoop_final; [lia| by apply recording_run |right; lia].
    + constructor; [eauto|constructor].
  - destruct (Hfail w) as (e & w1 & Hi & Hr).
    destruct (backoffWait backoff w1) as [r w2] eqn:Hw.
    pose proof (Hwait backoff w1) as Hnone. rewrite Hw in Hnone. simpl in Hnone.
    subst r.
    rewrite (retryLoop_retry _ _ _ _ _ _ _ (w1, log0 ++ [Some e]) (w2, log0 ++ [Some e]) e);
      [|lia|by apply recording_run|done|by apply recording_wait].
    assert (Hincr : incr attempt = attempt + 1).
    { apply incr_in_range. unfold int_min. lia. }
    rewrite Hincr.
    destruct (IH (attempt + 1) (nextBackoff cfg backoff) (Some e) w2 (log0 ++ [Some e]))
      as (e' & w' & log & Hrun & Hlen & Hlast & Hall); [lia|lia|].
    exists e', w', (Some e :: log). split; [|split; [|split]].
    + rewrite Hrun. by rewrite <- app_assoc.
    + simpl. by rewrite Hlen.
    + destruct log as [|r log]; [done|]. done.
    + constructor; [eauto|done].
Qed.

(** C2.  The invoker records what each of its invocations returned, and no
    wait is cut short by the context.  With [MaxAttempts = 3], if the first
    two invocations fail with retried errors and the third succeeds, the
    interceptor returns success after exactly these three invocations.  If
    the first invocation fails with an error that is not retried, the
    interceptor returns that very error after that one invocation.  If every
    invocation fails with a retried error, exactly [MaxAttempts] invocations
    are made and the interceptor returns the error of the last one, as the
    invoker returned it. *)
Theorem retry_outcomes (cfg : RetryConfig F) :
  (MaxAttempts cfg = 3 →
   ∀ (invoker : Invoker W) (w0 w1 w2 w3 w4 w5 : W) (e1 e2 : error),
     invoker w0 = (Some e1, w1) → retryable cfg e1 = true →
     backoffWait (InitialBackoff cfg) w1 = (None, w2) →
     invoker w2 = (Some e2, w3) → retryable cfg e2 = true →
     backoffWait (nextBackoff cfg (InitialBackoff cfg)) w3 = (None, w4) →
     invoker w4 = (None, w5) →
     RetryInterceptor (Some cfg) (recording invoker) (w0, [])
       = (None, (w5, [Some e1; Some e2; None]))) ∧
  (1 <= MaxAttempts cfg →
   ∀ (invoker : Invoker W) (w0 w1 : W) (e : error),
     invoker w0 = (Some e, w1) → retryable cfg e = false →
     RetryInterceptor (Some cfg) (recording invoker) (w0, [])
       = (Some e, (w1, [Some e]))) ∧
  (1 <= MaxAttempts cfg <= int_max →
   ∀ (invoker : Invoker W) (w0 : W),
     (∀ w, ∃ e w1, invoker w = (Some e, w1) ∧ retryable cfg e = true) →
     (∀ d w, fst (backoffWait d w) = None) →
     ∃ e w' log,
       RetryInterceptor (Some cfg) (recording invoker) (w0, [])
         = (Some e, (w', log)) ∧
       length log = Z.to_nat (MaxAttempts cfg) ∧
       last log = Some (Some e) ∧
       Forall (λ r, ∃ e', r = Some e' ∧ retryable cfg e' = true) log).
Proof.
  split; [|split].
  - intros Hmax invoker w0 w1 w2 w3 w4 w5 e1 e2 Hi1 Hr1 Hw1 Hi2 Hr2 Hw2 Hi3.
    unfold RetryInterceptor. simpl default. rewrite Hmax.
    change (Z.to_nat 3) with 3%nat.
    rewrite (retryLoop_retry _ _ _ _ _ _ _ (w1, [Some e1]) (w2, [Some e1]) e1);
      [|lia|by apply (recording_run invoker w0 w1 (Some e1) [])|done
       |by apply recording_wait].
    change (incr 1) with 2.
    rewrite (retryLoop_retry _ _ _ _ _ _ _ (w3, [Some e1; Some e2])
               (w4, [Some e1; Some e2]) e2);
      [|lia|by apply (recording_run invoker w2 w3 (Some e2) [Some e1])|done
       |by apply recording_wait].
    change (incr 2) with 3.
    apply retryLoop_success; [lia|].
    by apply (recording_run invoker w4 w5 None [Some e1; Some e2]).
  - intros Hmax invoker w0 w1 e Hi Hr.
    unfold RetryInterceptor. simpl default.
    destruct (Z.to_nat (MaxAttempts cfg)) as [|fuel] eqn:Hn; [lia|].
    apply retryLoop_final; [lia| |by left].
    by apply (recording_run invoker w0 w1 (Some e) []).
  - intros Hmax invoker w0 Hfail Hwait.
    unfold RetryInterceptor. simpl default.
    destruct (Z.to_nat (MaxAttempts cfg)) as [|fuel] eqn:Hn; [lia|].
    destruct (retryLoop_exhausted fuel cfg invoker Hfail Hwait) with
      (attempt := 1) (backoff := InitialBackoff cfg) (lastErr := @None error)
      (w := w0) (log0 := @nil (option error))
      as (e & w' & log & Hrun & Hlen & Hlast & Hall); [lia|lia|lia|].
    exists e, w', log. done.
Qed.

End Recorded.

(** The three outcomes on the simulated world, with the configuration of the
    repository's test: two failures then success, a failure that is not
    retried, and failures throughout. *)
Lemma retry_outcomes_run :
  let w0 := Fixtures.mkSim 0 0 in
  let u := Fixtures.unavailable in
  RetryInterceptor (Some Fixtures.retryCfg)
      (recording (Fixtures.scripted Millisecond Fixtures.failTwice)) (w0, [])
    = (None, (Fixtures.mkSim (33 * Millisecond) 3, [Some u; Some u; None])) ∧
  RetryInterceptor (Some Fixtures.retryCfg)
      (recording (Fixtures.scripted Millisecond (λ _, Some Fixtures.invalid))) (w0, [])
    = (Some Fixtures.invalid, (Fixtures.mkSim Millisecond 1, [Some Fixtures.invalid])) ∧
  (∃ e w' log,
     RetryInterceptor (Some Fixtures.retryCfg)
         (recording (Fixtures.scripted Millisecond (λ _, Some u))) (w0, [])
       = (Some e, (w', log)) ∧
     length log = 3%nat ∧ last log = Some (Some e) ∧
     Forall (λ r, ∃ e', r = Some e' ∧ retryable Fixtures.retryCfg e' = true) log).
Proof.
  intros w0 u.
  destruct (retry_outcomes (W := Fixtures.Sim) Fixtures.retryCfg) as (Ha & Hb & Hc).
  split; [|split].
  - apply (Ha eq_refl (Fixtures.scripted Millisecond Fixtures.failTwice)
             w0 (Fixtures.mkSim Millisecond 1) (Fixtures.mkSim (11 * Millisecond) 1)
             (Fixtures.mkSim (12 * Millisecond) 2) (Fixtures.mkSim (32 * Millisecond) 2)
             (Fixtures.mkSim (33 * Millisecond) 3) u u); reflexivity.
  - apply (Hb ltac:(simpl; lia)
             (Fixtures.scripted Millisecond (λ _, Some Fixtures.invalid))
             w0 (Fixtures.mkSim Millisecond 1) Fixtures.invalid); reflexivity.
  - apply (Hc ltac:(simpl; unfold int_max; lia)
             (Fixtures.scripted Millisecond (λ _, Some u)) w0).
    + intros w. exists u, (Fixtures.mkSim (Fixtures.clock w + Millisecond)
                             (S (Fixtures.invocations w))). by split.
    + intros d w. reflexivity.
Defined.

End RetryFacts.


(* ===================================================================== *)
(** * Properties: connection registry *)
(* ===================================================================== *)

Module ManagerFacts.
Import Manager Ops.

(** C6.  Validation fails exactly when the maximum message size or one of
    the four durations is zero or negative; in particular a configuration
    in which the five are positive is valid, whatever its other fields. *)
Theorem Validate_fails_iff (c : Config) :
  (Validate c ≠ None ↔
     MaxMsgSize c <= 0 ∨ KeepAliveTime c <= 0 ∨ KeepAliveTimeout c <= 0 ∨
     MaxReconnectDelay c <= 0 ∨ MinConnectTimeout c <= 0) ∧
  (0 < MaxMsgSize c ∧ 0 < KeepAliveTime c ∧ 0 < KeepAliveTimeout c ∧
   0 < MaxReconnectDelay c ∧ 0 < MinConnectTimeout c → Validate c = None).
Proof.
  unfold Validate. repeat case_bool_decide; split; try (intros; lia);
    split; intros; try done; try lia; tauto.
Qed.

(** The default configuration is valid, and one with a zero message size is not. *)
Lemma Validate_fails_iff_run :
  Validate DefaultConfig = None ∧
  Validate (mkConfig 0 Second Second true Second Second true true true true None) ≠ None.
Proof.
  split.
  - apply (Validate_fails_iff DefaultConfig). by vm_compute.
  - apply (Validate_fails_iff
             (mkConfig 0 Second Second true Second Second true true true true None)).
    left. simpl. lia.
Defined.

Section WithTransport.
Context {W : Type} `{Transport W} `{Elapsing W}.

Lemma lastError_snoc (rs : list (option error)) (r : option error) :
  lastError (rs ++ [r]) = match r with Some e => Some e | None => lastError rs end.
Proof. unfold lastError. by rewrite foldl_app. Qed.

(** The loop closes every handle of [order], in order, whatever the closes
    return, and keeps the last error it saw. *)
Lemma closeLoop_spec (order : list (string * ClientConn)) :
  ∀ (lastErr : option error) (s : Sys W),
  ∃ results w',
    length results = length order ∧
    closeLoop order lastErr s =
      (foldl (λ acc r, match r with Some e => Some e | None => acc end) lastErr results,
       mkSys (mgr s) w' (trace s ++ closeEvents order results)).
Proof.
  induction order as [|[name conn] rest IH]; intros lastErr s.
  - exists [], (world s). split; [done|]. simpl. unfold mret, M_ret.
    rewrite app_nil_r. by destruct s.
  - cbn [closeLoop]. run.
    destruct (connClose conn (world s)) as [r w1] eqn:Hc.
    destruct (IH (match r with Some e => Some e | None => lastErr end)
                (mkSys (mgr s) w1 (trace s ++ [EvClose conn r])))
      as (results & w' & Hlen & Hrun).
    exists (r :: results), w'. split; [simpl; by rewrite Hlen|].
    rewrite Hrun. simpl. by rewrite <- app_assoc.
Qed.

(** What [Close] does: it locks, closes every handle of [order], empties
    both maps, unlocks and returns the last error. *)
Lemma Close_spec (order : list (string * ClientConn)) (s : Sys W) :
  ∃ results w',
    length results = length order ∧
    Close order s =
      (lastError results,
       mkSys (mkManager ∅ ∅ (config (mgr s)) (metrics (mgr s))) w'
             (trace s ++ EvLock :: closeEvents order results ++ [EvUnlock])).
Proof.
  unfold Close. run.
  destruct (closeLoop_spec order None (mkSys (mgr s) (world s) (trace s ++ [EvLock])))
    as (results & w' & Hlen & Hrun).
  exists results, w'. split; [done|]. rewrite Hrun. run.
  unfold lastError. f_equal. f_equal.
  rewrite <- !app_assoc. done.
Qed.

(** C7.  After [Close], whatever the closes returned, the registry tracks
    no connection: [GetConnectionsCount] returns 0. *)
Theorem Close_count_zero (order : list (string * ClientConn)) (s : Sys W) :
  let '(_, s1) := Close order s in
  fst (GetConnectionsCount s1) = 0.
Proof.
  destruct (Close_spec order s) as (results & w' & _ & ->).
  unfold GetConnectionsCount. run. done.
Qed.

(** C4, as the code has it.  [Close] attempts the close of every tracked
    handle, once each and whatever the earlier closes returned, and returns
    the last close error it met ([nil] when no close failed). *)
Theorem Close_attempts_all (order : list (string * ClientConn)) (s : Sys W) :
  ranges (connections (mgr s)) order →
  let '(r, s') := Close order s in
  ∃ results,
    length results = length order ∧
    trace s' = trace s ++ EvLock :: closeEvents order results ++ [EvUnlock] ∧
    (∀ name conn, connections (mgr s) !! name = Some conn →
       ∃ res, EvClose conn res ∈ closeEvents order results) ∧
    length (closeEvents order results) = size (connections (mgr s)) ∧
    r = lastError results.
Proof.
  intros Hr.
  destruct (Close_spec order s) as (results & w' & Hlen & ->).
  exists results. split; [done|]. split; [done|]. split; [|split; [|done]].
  - intros name conn Hl.
    assert (Hin : (name, conn) ∈ order).
    { unfold ranges in Hr. rewrite Hr. by apply elem_of_map_to_list. }
    apply list_elem_of_lookup in Hin as [i Hi].
    destruct (lookup_lt_is_Some_2 results i) as [res Hres].
    { rewrite Hlen. by eapply lookup_lt_Some. }
    exists res. apply list_elem_of_lookup. exists i.
    unfold closeEvents. rewrite lookup_zip_with, Hi. simpl. by rewrite Hres.
  - unfold closeEvents. rewrite length_zip_with, Hlen, Nat.min_id.
    unfold ranges in Hr. rewrite Hr. by rewrite length_map_to_list.
Qed.

(** The fast path: a tracked handle that is ready or idle is returned
    after one state query made with no lock held; nothing is dialed or
    closed and only the address map may change. *)
Lemma GetConnection_fast (s : Sys W) (name address : string) (conn : ClientConn) :
  registered (mgr s) → connections (mgr s) !! name = Some conn →
  usable (GetState conn (world s)) = true →
  GetConnection name address s =
    (inl conn,
     mkSys (if bool_decide (address ≠ "")
            then mkManager (connections (mgr s)) (<[name := address]> (addresses (mgr s)))
                   (config (mgr s)) (metrics (mgr s))
            else mgr s)
           (world s)
           (trace s ++ [EvLock; EvUnlock; EvRLock; EvRUnlock; EvGetState conn])).
Proof.
  intros Hreg Hc Hu. unfold GetConnection. run.
  destruct (Hreg name conn Hc) as (a & Ha & Hne).
  case_bool_decide as Haddr; run.
  - rewrite bool_decide_eq_false_2 by done. run. rewrite Hc. run. rewrite Hu.
    rewrite <- !app_assoc. done.
  - rewrite Ha. simpl. rewrite bool_decide_eq_false_2 by done. run.
    rewrite Hc. run. rewrite Hu. rewrite <- !app_assoc. by destruct s.
Qed.

(** C5.  While a service has a tracked handle that is ready or idle, and
    every tracked handle has a registered address, successive calls of
    [GetConnection] for that service, with whatever addresses, all return
    that handle; no call dials or closes anything, and the transport and the
    tracked handles are as before. *)
Theorem GetConnection_reuses (s : Sys W) (name : string) (conn : ClientConn)
    (addrs : list string) :
  registered (mgr s) → connections (mgr s) !! name = Some conn →
  usable (GetState conn (world s)) = true →
  let '(rs, s') := GetConnections name addrs s in
  rs = map (λ _, inl conn) addrs ∧
  connections (mgr s') = connections (mgr s) ∧
  world s' = world s ∧
  dials (trace s') = dials (trace s) ∧
  closes (trace s') = closes (trace s).
Proof.
  revert s. induction addrs as [|address rest IH]; intros s Hreg Hc Hu.
  - simpl. done.
  - cbn [GetConnections]. unfold mbind, M_bind at 1.
    rewrite (GetConnection_fast s name address conn) by done.
    set (s1 := mkSys _ _ _).
    assert (Hc1 : connections (mgr s1) = connections (mgr s)).
    { subst s1. simpl. by case_bool_decide. }
    assert (Hreg1 : registered (mgr s1)).
    { subst s1. simpl. case_bool_decide as Hne; [|done].
      intros n c Hl. simpl in *. destruct (decide (name = n)) as [->|Hn].
      - exists address. by rewrite lookup_insert_eq.
      - rewrite lookup_insert_ne by done. by apply (Hreg n c). }
    specialize (IH s1 Hreg1). rewrite Hc1 in IH. specialize (IH Hc Hu).
    unfold mbind, M_bind, mret, M_ret.
    destruct (GetConnections name rest s1) as [rs s'].
    destruct IH as (-> & -> & -> & -> & ->). subst s1. simpl.
    unfold dials, closes. rewrite !omap_app. simpl. rewrite !app_nil_r. done.
Qed.

(** ** The ways a call of [GetConnection] can go *)

(** The dial options depend on the configuration and the metrics only. *)
Lemma dialOptions_maps (conns conns' : gmap string ClientConn)
    (addrs addrs' : gmap string string) (cfg : Config) (m : bool) :
  dialOptions (mkManager conns addrs cfg m) = dialOptions (mkManager conns' addrs' cfg m).
Proof. reflexivity. Qed.

(** [GetConnection] without an address to work with. *)
Lemma GetConnection_unresolved_eq (s : Sys W) (name address : string) :
  resolved (mgr s) name address = "" →
  GetConnection name address s =
    (inr (ErrAddressNotProvided name),
     mkSys (mgr s) (world s) (trace s ++ [EvLock; EvUnlock])).
Proof.
  destruct s as [[conns addrs cfg m] w tr]. unfold resolved, GetConnection. run.
  case_bool_decide as Haddr; run; intros Hres; [done|].
  rewrite Hres. rewrite bool_decide_eq_true_2 by done. run.
  by rewrite <- !app_assoc.
Qed.

(** [GetConnection] with a tracked handle that is ready or idle. *)
Lemma GetConnection_fast_eq (s : Sys W) (name address : string) (conn : ClientConn) :
  resolved (mgr s) name address ≠ "" →
  connections (mgr s) !! name = Some conn →
  usable (GetState conn (world s)) = true →
  GetConnection name address s =
    (inl conn,
     mkSys (mkManager (connections (mgr s)) (stored (mgr s) name address)
              (config (mgr s)) (metrics (mgr s)))
           (world s)
           (trace s ++ [EvLock; EvUnlock; EvRLock; EvRUnlock; EvGetState conn])).
Proof.
  destruct s as [[conns addrs cfg m] w tr].
  unfold resolved, stored, GetConnection. run. intros Hres Hc Hu.
  case_bool_decide as Haddr; run;
    rewrite bool_decide_eq_false_2 by done; run; rewrite Hc; run; rewrite Hu;
    by rewrite <- !app_assoc.
Qed.

(** [GetConnection] for a service without a handle: one dial, and the
    handle of a successful dial is installed before the lock is released. *)
Lemma GetConnection_dial_eq (s : Sys W) (name address : string)
    (d : ClientConn + error) (w2 : W) :
  resolved (mgr s) name address ≠ "" →
  connections (mgr s) !! name = None →
  DialContext (resolved (mgr s) name address) (dialOptions (mgr s)) (world s) = (d, w2) →
  GetConnection name address s =
    (dialed name d,
     mkSys (mkManager (installed name d (connections (mgr s)))
              (stored (mgr s) name address) (config (mgr s)) (metrics (mgr s)))
           w2
           (trace s ++ [EvLock; EvUnlock; EvRLock; EvRUnlock; EvLock;
                        EvDial (resolved (mgr s) name address) d]
                    ++ installing name d ++ [EvUnlock])).
Proof.
  destruct s as [[conns addrs cfg m] w tr].
  unfold resolved, stored, GetConnection. run. intros Hres Hc Hd.
  case_bool_decide as Haddr; run;
    rewrite bool_decide_eq_false_2 by done; run; rewrite Hc; run; rewrite Hc; run;
    try rewrite (dialOptions_maps _ conns _ addrs cfg m); rewrite Hd;
    destruct d as [newConn|err]; run; simpl; by rewrite <- !app_assoc.
Qed.

(** [GetConnection] with a tracked handle that the first query finds
    neither ready nor idle and the re-check finds ready or idle: the handle
    is returned from the exclusive section; nothing is closed or dialed. *)
Lemma GetConnection_recheck_eq (s : Sys W) (name address : string) (conn : ClientConn) :
  resolved (mgr s) name address ≠ "" →
  connections (mgr s) !! name = Some conn →
  usable (GetState conn (world s)) = false →
  usable (GetState conn (elapse (world s))) = true →
  GetConnection name address s =
    (inl conn,
     mkSys (mkManager (connections (mgr s)) (stored (mgr s) name address)
              (config (mgr s)) (metrics (mgr s)))
           (elapse (world s))
           (trace s ++ [EvLock; EvUnlock; EvRLock; EvRUnlock; EvGetState conn;
                        EvLock; EvGetState conn; EvUnlock])).
Proof.
  destruct s as [[conns addrs cfg m] w tr].
  unfold resolved, stored, GetConnection. run. intros Hres Hc Hu Hu'.
  case_bool_decide as Haddr; run;
    rewrite bool_decide_eq_false_2 by done; run; rewrite Hc; run; rewrite Hu; run;
    rewrite Hc; run; rewrite Hu'; run; by rewrite <- !app_assoc.
Qed.

(** [GetConnection] with a tracked handle that both queries find neither
    ready nor idle: the handle is closed and dropped, then one dial. *)
Lemma GetConnection_replace_eq (s : Sys W) (name address : string) (conn : ClientConn)
    (cr : option error) (w1 : W) (d : ClientConn + error) (w2 : W) :
  resolved (mgr s) name address ≠ "" →
  connections (mgr s) !! name = Some conn →
  usable (GetState conn (world s)) = false →
  usable (GetState conn (elapse (world s))) = false →
  connClose conn (elapse (world s)) = (cr, w1) →
  DialContext (resolved (mgr s) name address) (dialOptions (mgr s)) w1 = (d, w2) →
  GetConnection name address s =
    (dialed name d,
     mkSys (mkManager (installed name d (delete name (connections (mgr s))))
              (stored (mgr s) name address) (config (mgr s)) (metrics (mgr s)))
           w2
           (trace s ++ [EvLock; EvUnlock; EvRLock; EvRUnlock; EvGetState conn;
                        EvLock; EvGetState conn; EvClose conn cr; EvForget name;
                        EvDial (resolved (mgr s) name address) d]
                    ++ installing name d ++ [EvUnlock])).
Proof.
  destruct s as [[conns addrs cfg m] w tr].
  unfold resolved, stored, GetConnection. run. intros Hres Hc Hu Hu' Hcl Hd.
  case_bool_decide as Haddr; run;
    rewrite bool_decide_eq_false_2 by done; run; rewrite Hc; run; rewrite Hu; run;
    rewrite Hc; run; rewrite Hu'; run; rewrite Hcl; run;
    try rewrite (dialOptions_maps _ conns _ addrs cfg m); rewrite Hd;
    destruct d as [newConn|err]; run; simpl; by rewrite <- !app_assoc.
Qed.

(** The five ways a call of [GetConnection] can go. *)
Lemma GetConnection_cases (s : Sys W) (name address : string) :
  let a := resolved (mgr s) name address in
  let frame := λ conns, mkManager conns (stored (mgr s) name address)
                          (config (mgr s)) (metrics (mgr s)) in
  (a = "" ∧
   GetConnection name address s =
     (inr (ErrAddressNotProvided name),
      mkSys (mgr s) (world s) (trace s ++ [EvLock; EvUnlock]))) ∨
  (∃ conn, a ≠ "" ∧ connections (mgr s) !! name = Some conn ∧
     usable (GetState conn (world s)) = true ∧
     GetConnection name address s =
       (inl conn,
        mkSys (frame (connections (mgr s))) (world s)
          (trace s ++ [EvLock; EvUnlock; EvRLock; EvRUnlock; EvGetState conn]))) ∨
  (∃ d w2, a ≠ "" ∧ connections (mgr s) !! name = None ∧
     DialContext a (dialOptions (mgr s)) (world s) = (d, w2) ∧
     GetConnection name address s =
       (dialed name d,
        mkSys (frame (installed name d (connections (mgr s)))) w2
          (trace s ++ [EvLock; EvUnlock; EvRLock; EvRUnlock; EvLock; EvDial a d]
                   ++ installing name d ++ [EvUnlock]))) ∨
  (∃ conn, a ≠ "" ∧ connections (mgr s) !! name = Some conn ∧
     usable (GetState conn (world s)) = false ∧
     usable (GetState conn (elapse (world s))) = true ∧
     GetConnection name address s =
       (inl conn,
        mkSys (frame (connections (mgr s))) (elapse (world s))
          (trace s ++ [EvLock; EvUnlock; EvRLock; EvRUnlock; EvGetState conn;
                       EvLock; EvGetState conn; EvUnlock]))) ∨
  (∃ conn cr w1 d w2, a ≠ "" ∧ connections (mgr s) !! name = Some conn ∧
     usable (GetState conn (world s)) = false ∧
     usable (GetState conn (elapse (world s))) = false ∧
     connClose conn (elapse (world s)) = (cr, w1) ∧
     DialContext a (dialOptions (mgr s)) w1 = (d, w2) ∧
     GetConnection name address s =
       (dialed name d,
        mkSys (frame (installed name d (delete name (connections (mgr s))))) w2
          (trace s ++ [EvLock; EvUnlock; EvRLock; EvRUnlock; EvGetState conn;
                       EvLock; EvGetState conn; EvClose conn cr; EvForget name;
                       EvDial a d]
                   ++ installing name d ++ [EvUnlock]))).
Proof.
  intros a frame. subst a frame.
  destruct (decide (resolved (mgr s) name address = "")) as [He|Hne].
  { left. split; [done|]. by apply GetConnection_unresolved_eq. }
  right. destruct (connections (mgr s) !! name) as [conn|] eqn:Hc.
  - destruct (usable (GetState conn (world s))) eqn:Hu.
    { left. exists conn. repeat split; try done. by apply GetConnection_fast_eq. }
    right. right.
    destruct (usable (GetState conn (elapse (world s)))) eqn:Hu'.
    { left. exists conn. repeat split; try done. by apply GetConnection_recheck_eq. }
    right.
    destruct (connClose conn (elapse (world s))) as [cr w1] eqn:Hcl.
    destruct (DialContext (resolved (mgr s) name address) (dialOptions (mgr s)) w1)
      as [d w2] eqn:Hd.
    exists conn, cr, w1, d, w2. repeat split; try done.
    by apply (GetConnection_replace_eq s name address conn cr w1 d w2).
  - right. left.
    destruct (DialContext (resolved (mgr s) name address) (dialOptions (mgr s)) (world s))
      as [d w2] eqn:Hd.
    exists d, w2. repeat split; try done. by apply GetConnection_dial_eq.
Qed.

(** The stored address of a service after a call that had an address. *)
Lemma stored_lookup (cm : ConnectionManager) (name address : string) :
  resolved cm name address ≠ "" →
  stored cm name address !! name = Some (resolved cm name address).
Proof.
  unfold resolved, stored. case_bool_decide; [by rewrite lookup_insert_eq|].
  by destruct (addresses cm !! name).
Qed.

Lemma stored_lookup_ne (cm : ConnectionManager) (name address other : string) :
  other ≠ name → stored cm name address !! other = addresses cm !! other.
Proof.
  intros Hne. unfold stored. case_bool_decide; [|done]. by rewrite lookup_insert_ne.
Qed.

Lemma installed_lookup_ne (name other : string) (d : ClientConn + error)
    (conns : gmap string ClientConn) :
  other ≠ name → installed name d conns !! other = conns !! other.
Proof. intros Hne. destruct d; simpl; [by rewrite lookup_insert_ne|done]. Qed.


(** A visiting order of a map holds exactly the entries of the map. *)
Lemma ranges_elem {V} (m : gmap string V) (order : list (string * V)) name v :
  ranges m order → (name, v) ∈ order ↔ m !! name = Some v.
Proof. unfold ranges. intros ->. apply elem_of_map_to_list. Qed.

Lemma ranges_keys {V} (m : gmap string V) (order : list (string * V)) name :
  ranges m order → name ∈ order.*1 ↔ is_Some (m !! name).
Proof.
  intros Hr. rewrite list_elem_of_fmap. split.
  - intros ([n v] & -> & Hin). simpl. exists v. by apply (ranges_elem m order).
  - intros [v Hv]. exists (name, v). split; [done|]. by apply (ranges_elem m order).
Qed.

(** The first loop of [HealthCheck] writes the entry of every name it
    visits and leaves the other entries, the registry and the transport
    alone. *)
Lemma healthAddresses_spec (order : list (string * string)) :
  ∀ (result : gmap string ConnectionHealth) (s : Sys W),
  ∃ result' tr',
    healthAddresses order result s = (result', mkSys (mgr s) (world s) (trace s ++ tr')) ∧
    ∀ name,
      (name ∈ order.*1 →
         result' !! name =
           Some match connections (mgr s) !! name with
                | Some c => healthOf (GetState c (world s))
                | None => notConnected
                end) ∧
      (name ∉ order.*1 → result' !! name = result !! name).
Proof.
  induction order as [|[n a] rest IH]; intros result s.
  - exists result, []. split.
    + simpl. unfold mret, M_ret. rewrite app_nil_r. by destruct s.
    + intros name. split; [|done]. simpl. by intros ?%elem_of_nil.
  - cbn [healthAddresses]. run.
    destruct (connections (mgr s) !! n) as [c|] eqn:Hc; run; rewrite ?Hc; run.
    + destruct (IH (<[n := healthOf (GetState c (world s))]> result)
                  (mkSys (mgr s) (world s) (trace s ++ [EvGetState c])))
        as (result' & tr' & Hrun & Hres).
      exists result', (EvGetState c :: tr'). split.
      { rewrite Hrun. simpl. by rewrite <- app_assoc. }
      intros name. destruct (Hres name) as [Hin Hout]. simpl in Hin, Hout.
      destruct (decide (name ∈ rest.*1)) as [Hr|Hr].
      * split; [by intros _; apply Hin|]. intros Hn. exfalso. apply Hn.
        simpl. by right.
      * rewrite Hout by done. destruct (decide (name = n)) as [->|Hne].
        -- split; [|intros Hn; exfalso; apply Hn; simpl; by left].
           intros _. by rewrite lookup_insert_eq, Hc.
        -- rewrite lookup_insert_ne by done.
           split; [|done]. simpl. intros [?|?]%elem_of_cons; done.
    + destruct (IH (<[n := notConnected]> result) s)
        as (result' & tr' & Hrun & Hres).
      exists result', tr'. split; [done|].
      intros name. destruct (Hres name) as [Hin Hout].
      destruct (decide (name ∈ rest.*1)) as [Hr|Hr].
      * split; [by intros _; apply Hin|]. intros Hn. exfalso. apply Hn.
        simpl. by right.
      * rewrite Hout by done. destruct (decide (name = n)) as [->|Hne].
        -- split; [|intros Hn; exfalso; apply Hn; simpl; by left].
           intros _. by rewrite lookup_insert_eq, Hc.
        -- rewrite lookup_insert_ne by done.
           split; [|done]. simpl. intros [?|?]%elem_of_cons; done.
Qed.

(** The second loop of [HealthCheck] writes the entry of every handle it
    visits whose service has no registered address. *)
Lemma healthConnections_spec (order : list (string * ClientConn)) :
  ∀ (result : gmap string ConnectionHealth) (s : Sys W),
  (∀ n c, (n, c) ∈ order → connections (mgr s) !! n = Some c) →
  ∃ result' tr',
    healthConnections order result s
      = (result', mkSys (mgr s) (world s) (trace s ++ tr')) ∧
    ∀ name,
      (name ∈ order.*1 → addresses (mgr s) !! name = None →
         result' !! name =
           Some match connections (mgr s) !! name with
                | Some c => healthOf (GetState c (world s))
                | None => notConnected
                end) ∧
      (name ∉ order.*1 ∨ is_Some (addresses (mgr s) !! name) →
         result' !! name = result !! name).
Proof.
  induction order as [|[n c] rest IH]; intros result s Hord.
  - exists result, []. split.
    + simpl. unfold mret, M_ret. rewrite app_nil_r. by destruct s.
    + intros name. split; [|done]. simpl. by intros ?%elem_of_nil.
  - assert (Hc : connections (mgr s) !! n = Some c) by (apply Hord; by left).
    assert (Hrest : ∀ n' c', (n', c') ∈ rest → connections (mgr s) !! n' = Some c').
    { intros n' c' Hin. apply Hord. by right. }
    cbn [healthConnections]. run.
    destruct (addresses (mgr s) !! n) as [a|] eqn:Ha; run; rewrite ?Ha; run.
    + destruct (IH result s Hrest) as (result' & tr' & Hrun & Hres).
      exists result', tr'. split; [done|].
      intros name. destruct (Hres name) as [Hin Hout]. split.
      * simpl. intros [->|Hr]%elem_of_cons Hnone; [congruence|by apply Hin].
      * intros [Hn|Hsome]; apply Hout; [|by right].
        left. intros Hr. apply Hn. simpl. by right.
    + destruct (IH (<[n := healthOf (GetState c (world s))]> result)
                  (mkSys (mgr s) (world s) (trace s ++ [EvGetState c])) Hrest)
        as (result' & tr' & Hrun & Hres).
      exists result', (EvGetState c :: tr'). split.
      { rewrite Hrun. simpl. by rewrite <- app_assoc. }
      intros name. destruct (Hres name) as [Hin Hout]. simpl in Hin, Hout.
      destruct (decide (name ∈ rest.*1)) as [Hr|Hr].
      * split; [by intros _; apply Hin|].
        intros [Hn|Hsome].
        -- exfalso. apply Hn. simpl. by right.
        -- rewrite Hout by (by right).
           destruct (decide (name = n)) as [->|Hne].
           ++ rewrite Ha in Hsome. by destruct Hsome.
           ++ by rewrite lookup_insert_ne.
      * rewrite Hout by (by left). destruct (decide (name = n)) as [->|Hne].
        -- split.
           ++ intros _ _. by rewrite lookup_insert_eq, Hc.
           ++ intros [Hn|Hsome].
              ** exfalso. apply Hn. simpl. by left.
              ** rewrite Ha in Hsome. by destruct Hsome.
        -- rewrite lookup_insert_ne by done. split; [|done].
           simpl. intros [?|?]%elem_of_cons; done.
Qed.

(** C8.  [HealthCheck] returns a map and nothing else.  A service with a
    registered address and no handle is reported as NotConnected and not
    healthy; a service with a handle, registered or not, is reported under
    the name of the handle's state and healthy exactly when that state is
    Ready; no other service is reported.  Registry and transport are left as
    they were. *)
Theorem HealthCheck_report (orderA : list (string * string))
    (orderC : list (string * ClientConn)) (s : Sys W) :
  ranges (addresses (mgr s)) orderA → ranges (connections (mgr s)) orderC →
  let '(result, s') := HealthCheck orderA orderC s in
  mgr s' = mgr s ∧ world s' = world s ∧
  ∀ name,
    result !! name =
      match connections (mgr s) !! name with
      | Some c =>
          Some {| State := StateString (GetState c (world s));
                  Healthy := bool_decide (GetState c (world s) = connectivity.Ready);
                  Error := "" |}
      | None =>
          match addresses (mgr s) !! name with
          | Some _ =>
              Some {| State := "NotConnected"; Healthy := false;
                      Error := "connection not established yet" |}
          | None => None
          end
      end.
Proof.
  intros HrA HrC. unfold HealthCheck. run.
  destruct (healthAddresses_spec orderA ∅ (mkSys (mgr s) (world s) (trace s ++ [EvRLock])))
    as (r1 & tr1 & -> & H1).
  run.
  destruct (healthConnections_spec orderC r1
              (mkSys (mgr s) (world s) ((trace s ++ [EvRLock]) ++ tr1)))
    as (r2 & tr2 & -> & H2).
  { intros n c Hin. simpl. by apply (ranges_elem _ orderC). }
  run. split; [done|]. split; [done|].
  intros name. destruct (H1 name) as [H1in H1out]. destruct (H2 name) as [H2in H2out].
  simpl in *.
  pose proof (ranges_keys _ orderA name HrA) as HkA.
  pose proof (ranges_keys _ orderC name HrC) as HkC.
  destruct (connections (mgr s) !! name) as [c|] eqn:Hc;
    destruct (addresses (mgr s) !! name) as [a|] eqn:Ha.
  - rewrite H2out by (right; eauto). apply H1in. apply HkA. eauto.
  - apply H2in; [|done]. apply HkC. eauto.
  - rewrite H2out by (right; eauto). apply H1in. apply HkA. eauto.
  - rewrite H2out; [rewrite H1out; [done|]|left].
    + intros Hin. apply HkA in Hin. by destruct Hin.
    + intros Hin. apply HkC in Hin. by destruct Hin.
Qed.

(** ** Every tracked handle has a registered address *)

Lemma registered_new (cfg : option Config) (m : bool) (cm : ConnectionManager) :
  NewConnectionManager cfg m = inl cm → registered cm.
Proof.
  unfold NewConnectionManager. destruct (Validate _); [done|].
  intros [= <-] name conn Hl. simpl in Hl. by rewrite lookup_empty in Hl.
Qed.

Lemma registered_Close (order : list (string * ClientConn)) (s : Sys W) :
  registered (mgr (snd (Close order s))).
Proof.
  destruct (Close_spec order s) as (results & w' & _ & ->).
  intros name conn Hl. simpl in Hl. by rewrite lookup_empty in Hl.
Qed.

Lemma registered_CloseConnection (name : string) (s : Sys W) :
  registered (mgr s) → registered (mgr (snd (CloseConnection name s))).
Proof.
  destruct s as [[conns addrs cfg m] w tr]. intros Hreg.
  unfold CloseConnection. run.
  assert (Hdel : registered (mkManager (delete name conns) addrs cfg m)).
  { intros n c Hl. simpl in Hl. apply lookup_delete_Some in Hl as [_ Hl].
    by apply (Hreg n c). }
  destruct (conns !! name) as [c|]; run; [|done].
  by destruct (connClose c w) as [r w1].
Qed.

Lemma registered_GetConnection (name address : string) (s : Sys W) :
  registered (mgr s) → registered (mgr (snd (GetConnection name address s))).
Proof.
  intros Hreg.
  assert (Hframe : ∀ conns : gmap string ClientConn,
    (∀ n c, conns !! n = Some c → n = name ∨ connections (mgr s) !! n = Some c) →
    resolved (mgr s) name address ≠ "" →
    registered (mkManager conns (stored (mgr s) name address)
                  (config (mgr s)) (metrics (mgr s)))).
  { intros conns Hsub Hne n c Hl. simpl in *.
    destruct (decide (n = name)) as [->|Hn].
    - exists (resolved (mgr s) name address). split; [by apply stored_lookup|done].
    - rewrite stored_lookup_ne by done.
      destruct (Hsub n c Hl) as [?|Hl']; [done|]. by apply (Hreg n c). }
  destruct (GetConnection_cases s name address)
    as [(He & ->)|[(conn & Hne & Hc & Hu & ->)|[(d & w2 & Hne & Hc & Hd & ->)
       |[(conn & Hne & Hc & Hu & Hu' & ->)
       |(conn & cr & w1 & d & w2 & Hne & Hc & Hu & Hu' & Hcl & Hd & ->)]]]];
    cbn [snd mgr]; [done|apply Hframe; [|done]..].
  - intros n c Hl. by right.
  - intros n c Hl. destruct (decide (n = name)) as [?|Hn]; [by left|right].
    by rewrite installed_lookup_ne in Hl.
  - intros n c Hl. by right.
  - intros n c Hl. destruct (decide (n = name)) as [?|Hn]; [by left|right].
    rewrite installed_lookup_ne in Hl by done. by rewrite lookup_delete_ne in Hl.
Qed.

End WithTransport.

(** ** Runs on the tabulated transport *)

Lemma ranges_mgr2_ab :
  ranges (connections Fixtures.mgr2) [("a", 1%positive); ("b", 2%positive)].
Proof. unfold ranges. by vm_compute. Qed.

Lemma ranges_mgr2_ba :
  ranges (connections Fixtures.mgr2) [("b", 2%positive); ("a", 1%positive)].
Proof. unfold ranges. vm_compute. apply perm_swap. Qed.

Lemma ranges_mgr2_addresses :
  ranges (addresses Fixtures.mgr2)
    [("a", "hosta:1"); ("b", "hostb:1"); ("c", "hostc:1")].
Proof.
  unfold ranges. vm_compute.
  symmetry. apply (Permutation_cons_append [_; _]).
Qed.

Lemma registered_mgr2 : registered Fixtures.mgr2.
Proof.
  intros name conn Hl. unfold Fixtures.mgr2 in *. simpl in *.
  destruct (decide (name = "a")) as [->|Ha]; [by eexists|].
  destruct (decide (name = "b")) as [->|Hb]; [by eexists|].
  rewrite !lookup_insert_ne in Hl by done. by rewrite lookup_empty in Hl.
Qed.

(** C4 as stated fails on a registry whose two handles both fail to close:
    whichever handle the loop visits first, [Close] returns the error of
    the close it made last, not of the one it made first. *)
Lemma Close_returns_last_error :
  (ranges (connections Fixtures.mgr2) [("a", 1%positive); ("b", 2%positive)] ∧
   let '(r, s') := Close [("a", 1%positive); ("b", 2%positive)] Fixtures.sys2 in
   closes (trace s') = [(1%positive, Some Fixtures.errA); (2%positive, Some Fixtures.errB)] ∧
   firstError (closes (trace s')).*2 = Some Fixtures.errA ∧
   r = Some Fixtures.errB ∧ r ≠ firstError (closes (trace s')).*2) ∧
  (ranges (connections Fixtures.mgr2) [("b", 2%positive); ("a", 1%positive)] ∧
   let '(r, s') := Close [("b", 2%positive); ("a", 1%positive)] Fixtures.sys2 in
   closes (trace s') = [(2%positive, Some Fixtures.errB); (1%positive, Some Fixtures.errA)] ∧
   firstError (closes (trace s')).*2 = Some Fixtures.errB ∧
   r = Some Fixtures.errA ∧ r ≠ firstError (closes (trace s')).*2).
Proof.
  split; (split; [first [apply ranges_mgr2_ab | apply ranges_mgr2_ba]|]).
  all: vm_compute; repeat split; discriminate.
Qed.

(** [Close] on the registry with two handles that fail to close. *)
Lemma Close_attempts_all_run :
  let '(r, s') := Close [("a", 1%positive); ("b", 2%positive)] Fixtures.sys2 in
  ∃ results,
    length results = 2%nat ∧
    trace s' = EvLock :: closeEvents [("a", 1%positive); ("b", 2%positive)] results
                 ++ [EvUnlock] ∧
    (∀ name conn, connections Fixtures.mgr2 !! name = Some conn →
       ∃ res, EvClose conn res ∈ closeEvents [("a", 1%positive); ("b", 2%positive)] results) ∧
    length (closeEvents [("a", 1%positive); ("b", 2%positive)] results)
      = size (connections Fixtures.mgr2) ∧
    r = lastError results.
Proof.
  exact (Close_attempts_all [("a", 1%positive); ("b", 2%positive)] Fixtures.sys2
           ranges_mgr2_ab).
Defined.

(** Three calls of [GetConnection] for a service whose handle is ready. *)
Lemma GetConnection_reuses_run :
  let '(rs, s') := GetConnections "a" [""; "hosta:2"; ""] Fixtures.sys2 in
  rs = [inl 1%positive; inl 1%positive; inl 1%positive] ∧
  connections (mgr s') = connections Fixtures.mgr2 ∧
  world s' = Fixtures.net2 ∧
  dials (trace s') = [] ∧
  closes (trace s') = [].
Proof.
  exact (GetConnection_reuses Fixtures.sys2 "a" 1%positive [""; "hosta:2"; ""]
           registered_mgr2 eq_refl eq_refl).
Defined.



(** The report on the registry with two ready handles and a service that
    was never dialed. *)
Lemma HealthCheck_report_run :
  let '(result, _) :=
    HealthCheck [("a", "hosta:1"); ("b", "hostb:1"); ("c", "hostc:1")]
      [("a", 1%positive); ("b", 2%positive)] Fixtures.sys2 in
  result !! "a" = Some (mkHealth "READY" true "") ∧
  result !! "c" = Some (mkHealth "NotConnected" false "connection not established yet") ∧
  result !! "d" = None.
Proof.
  pose proof (HealthCheck_report
                [("a", "hosta:1"); ("b", "hostb:1"); ("c", "hostc:1")]
                [("a", 1%positive); ("b", 2%positive)] Fixtures.sys2
                ranges_mgr2_addresses ranges_mgr2_ab) as Hh.
  destruct (HealthCheck _ _ _) as [result s'].
  destruct Hh as (_ & _ & Hres).
  split; [|split]; rewrite Hres; reflexivity.
Defined.

End ManagerFacts.


(* ===================================================================== *)
(** * Properties: histories of a breaker *)
(* ===================================================================== *)

Module BreakerHistory.
Import Breaker History BreakerFacts.

Section WithWorld.
Context {W : Type} `{Clock W}.

Lemma precheck_bounded (cb cb1 : CircuitBreaker) (w : W) :
  1 <= SuccessThreshold (config cb) →
  precheck cb w = Some cb1 → bounded cb →
  bounded cb1 ∧ config cb1 = config cb ∧ state cb1 ≠ StateOpen.
Proof.
  intros Hst. unfold precheck, bounded.
  destruct cb as [st f s lf cfg]. simpl in *.
  repeat case_bool_decide; intros [= <-]; simpl; intros (Hf & Hs & Hc & Hh);
    repeat split; try done; try lia.
Qed.

Lemma record_bounded (cb : CircuitBreaker) (err : option error) (w : W) :
  1 <= FailureThreshold (config cb) <= int_max →
  1 <= SuccessThreshold (config cb) <= int_max →
  state cb ≠ StateOpen → bounded cb → bounded (record cb err w).
Proof.
  intros Hft Hst Hopen. unfold bounded, record.
  destruct cb as [st f s lf cfg]. simpl in *. intros (Hf & Hs & Hc & Hh).
  destruct err as [e|].
  - destruct (isRetryable _ _); simpl; [|done].
    destruct st; simpl in *; try done.
    + rewrite incr_in_range by (unfold int_min; specialize (Hc eq_refl); lia).
      specialize (Hc eq_refl).
      case_bool_decide; simpl; repeat split; try done; try lia.
    + repeat split; try done; lia.
  - destruct st; simpl in *; try done.
    + repeat split; try done; lia.
    + rewrite incr_in_range by (unfold int_min; specialize (Hh eq_refl); lia).
      specialize (Hh eq_refl).
      case_bool_decide; simpl; repeat split; try done; try lia.
Qed.

Lemma Call_bounded (cb : CircuitBreaker) (invoker : Invoker W) (w : W) :
  1 <= FailureThreshold (config cb) <= int_max →
  1 <= SuccessThreshold (config cb) <= int_max →
  bounded cb →
  bounded (snd (fst (Call cb invoker w))) ∧
  config (snd (fst (Call cb invoker w))) = config cb.
Proof.
  intros Hft Hst Hb. unfold Call.
  destruct (precheck cb w) as [cb1|] eqn:Hp; [|done].
  destruct (precheck_bounded cb cb1 w) as (Hb1 & Hc1 & Ho1); [lia|done|done|].
  destruct (invoker w) as [err w1]. simpl. split.
  - apply record_bounded; rewrite ?Hc1; done.
  - by rewrite record_config.
Qed.

(** Whatever calls are made through a new breaker, whatever they return and
    however much time passes between them, the counters stay within their
    thresholds: the failure count is between 0 and the failure threshold and
    below it while the breaker is closed, the success count is between 0 and
    the success threshold and below it while the breaker is half-open, and
    the configuration is the one the breaker was made with. *)
Theorem CallEach_bounded (cfg : CircuitBreakerConfig)
    (steps : list ((W → W) * Invoker W)) (w : W) :
  1 <= FailureThreshold cfg <= int_max →
  1 <= SuccessThreshold cfg <= int_max →
  let cb := fst (CallEach steps (NewCircuitBreaker (Some cfg)) w) in
  bounded cb ∧ config cb = cfg.
Proof.
  intros Hft Hst.
  assert (Hgen : ∀ cb0 w0, config cb0 = cfg → bounded cb0 →
            bounded (fst (CallEach steps cb0 w0)) ∧
            config (fst (CallEach steps cb0 w0)) = cfg).
  { induction steps as [|[pass invoker] rest IH]; intros cb0 w0 Hc Hb; [done|].
    simpl.
    destruct (Call_bounded cb0 invoker (pass w0)) as [Hb1 Hc1];
      rewrite ?Hc; try done.
    destruct (Call cb0 invoker (pass w0)) as [[err cb1] w1]. simpl in *.
    apply IH; [by rewrite Hc1|done]. }
  apply Hgen; [done|].
  unfold bounded. simpl. repeat split; try done; lia.
Qed.

(** Calls never change the configuration of a breaker. *)
Lemma Calls_config (k : nat) (cb : CircuitBreaker) (invoker : Invoker W) (w : W) :
  config (fst (Calls k cb invoker w)) = config cb.
Proof.
  revert cb w. induction k as [|k IH]; intros cb w; [done|]. simpl.
  unfold Call. destruct (precheck cb w) as [cb1|] eqn:Hp.
  - destruct (invoker w) as [err w1]. rewrite IH, record_config.
    unfold precheck in Hp. repeat case_bool_decide; by inversion Hp.
  - by rewrite IH.
Qed.

(** Failures of a closed breaker below the threshold are counted one by one. *)
Lemma Calls_closed_below (k : nat) (cb : CircuitBreaker) (invoker : Invoker W) (w : W) :
  (∀ w0, ∃ e w1, invoker w0 = (Some e, w1) ∧ qualifying (config cb) e = true) →
  state cb = StateClosed → 0 <= failures cb →
  failures cb + Z.of_nat k < FailureThreshold (config cb) →
  FailureThreshold (config cb) <= int_max →
  let cb' := fst (Calls k cb invoker w) in
  state cb' = StateClosed ∧ failures cb' = failures cb + Z.of_nat k ∧
  config cb' = config cb.
Proof.
  intros Hfail. revert cb w Hfail.
  induction k as [|k IH]; intros cb w Hfail Hs H0 Hlt Hmax; simpl.
  - split; [done|]. split; [lia|done].
  - unfold Call. rewrite precheck_not_open by (rewrite Hs; done).
    destruct (Hfail w) as (e & w1 & -> & Hq).
    rewrite record_failure_counted by (try done; rewrite Hs; done). cbv zeta.
    rewrite incr_in_range by (unfold int_min; lia).
    rewrite bool_decide_eq_false_2 by lia.
    set (cb1 := set_lastFailure _ _).
    destruct (IH cb1 w1) as (IH1 & IH2 & IH3); subst cb1; simpl; try done; try lia.
    simpl in *. split; [done|]. split; [lia|done].
Qed.

(** The failure that reaches the threshold opens a closed breaker. *)
Lemma Calls_reach_threshold (cb : CircuitBreaker) (invoker : Invoker W) (w : W) :
  (∀ w0, ∃ e w1, invoker w0 = (Some e, w1) ∧ qualifying (config cb) e = true) →
  state cb = StateClosed → failures cb = 0 →
  1 <= FailureThreshold (config cb) <= int_max →
  let '(cb', w') := Calls (Z.to_nat (FailureThreshold (config cb))) cb invoker w in
  state cb' = StateOpen ∧ failures cb' = FailureThreshold (config cb) ∧
  lastFailure cb' = now w'.
Proof.
  intros Hfail Hs Hf Hft.
  destruct (Z.to_nat (FailureThreshold (config cb))) as [|m] eqn:Hn; [lia|].
  rewrite Calls_snoc.
  destruct (Calls_closed_below m cb invoker w) as (Hs1 & Hn1 & Hc1);
    try done; try lia.
  destruct (Calls m cb invoker w) as [cb1 w1]. simpl in Hs1, Hn1, Hc1.
  unfold Call. rewrite precheck_not_open by (rewrite Hs1; done).
  destruct (Hfail w1) as (e & w2 & -> & Hq).
  rewrite record_failure_counted by (try done; rewrite ?Hc1, ?Hs1; done).
  cbv zeta. rewrite incr_in_range by (unfold int_min; lia).
  rewrite bool_decide_eq_true_2 by (rewrite Hc1; lia).
  simpl. split; [done|]. split; [lia|done].
Qed.

(** For any failure threshold of at least 1: while every call fails with a
    qualifying error, a closed breaker with no failure counted is still
    closed after fewer calls than the threshold, having counted each of
    them, and is open after exactly as many calls as the threshold; it then
    holds the threshold as its count and the time at which the last call
    returned as the time of its last failure. *)
Theorem Calls_open_at_threshold (cb : CircuitBreaker) (invoker : Invoker W) (w : W) :
  (∀ w0, ∃ e w1, invoker w0 = (Some e, w1) ∧ qualifying (config cb) e = true) →
  state cb = StateClosed → failures cb = 0 →
  1 <= FailureThreshold (config cb) <= int_max →
  (∀ k, (k < Z.to_nat (FailureThreshold (config cb)))%nat →
     state (fst (Calls k cb invoker w)) = StateClosed ∧
     failures (fst (Calls k cb invoker w)) = Z.of_nat k) ∧
  let '(cb', w') := Calls (Z.to_nat (FailureThreshold (config cb))) cb invoker w in
  state cb' = StateOpen ∧ failures cb' = FailureThreshold (config cb) ∧
  lastFailure cb' = now w'.
Proof.
  intros Hfail Hs Hf Hft. split.
  - intros k Hk.
    destruct (Calls_closed_below k cb invoker w) as (H1 & H2 & _); try done; try lia.
    split; [done|]. rewrite H2. lia.
  - by apply Calls_reach_threshold.
Qed.

(** A success between failures starts the count again: after a successful
    call a closed breaker stays closed through any number of failing calls
    below the threshold, whatever it had counted before. *)
Theorem success_restarts_count (cb : CircuitBreaker) (passing failing : Invoker W)
    (w w1 : W) (k : nat) :
  state cb = StateClosed → passing w = (None, w1) →
  (∀ w0, ∃ e w2, failing w0 = (Some e, w2) ∧ qualifying (config cb) e = true) →
  FailureThreshold (config cb) <= int_max →
  Z.of_nat k < FailureThreshold (config cb) →
  let '(err, cb1, w1') := Call cb passing w in
  err = None ∧ failures cb1 = 0 ∧
  state (fst (Calls k cb1 failing w1')) = StateClosed ∧
  failures (fst (Calls k cb1 failing w1')) = Z.of_nat k.
Proof.
  intros Hs Hp Hfail Hmax Hk. unfold Call.
  rewrite precheck_not_open by (rewrite Hs; done). rewrite Hp.
  rewrite record_success_other by (rewrite Hs; done).
  split; [done|]. split; [done|].
  destruct (Calls_closed_below k (set_failures 0 cb) failing w1) as (H1 & H2 & _);
    simpl; try done; try lia.
Qed.

(** A failure whose code the breaker does not count is returned to the
    caller and leaves the breaker as it was; in particular it does not start
    the count again: if one more counted failure would open the breaker, it
    still does after any such failure in between. *)
Theorem ignored_failure_keeps_count (cb : CircuitBreaker) (inv1 inv2 : Invoker W)
    (w w1 w2 : W) (e1 e2 : error) :
  state cb = StateClosed →
  inv1 w = (Some e1, w1) → qualifying (config cb) e1 = false →
  inv2 w1 = (Some e2, w2) → qualifying (config cb) e2 = true →
  incr (failures cb) >= FailureThreshold (config cb) →
  Call cb inv1 w = (Some e1, cb, w1) ∧
  ∃ cb2, Call cb inv2 w1 = (Some e2, cb2, w2) ∧ state cb2 = StateOpen.
Proof.
  intros Hs Hi1 Hq1 Hi2 Hq2 Hth. split.
  - unfold Call. rewrite precheck_not_open by (rewrite Hs; done). rewrite Hi1.
    by rewrite record_failure_ignored.
  - eexists. split.
    + apply Call_passed; [|exact Hi2]. apply precheck_not_open. by rewrite Hs.
    + rewrite record_failure_counted by (try done; rewrite Hs; done).
      cbv zeta. by rewrite bool_decide_eq_true_2.
Qed.

(** The interceptor keeps one breaker per method.  A call for [method] runs
    through the breaker the map holds for it, or through a new one, and the
    map then holds that breaker as the call left it; the breakers of all
    other methods are untouched; and the gauge, when there are metrics, gets
    the code of the breaker's state after the call: 0, 1 or 2. *)
Theorem interceptor_breakers (cfg : option CircuitBreakerConfig) (metrics : bool)
    (method : string) (reply : option positive) (invoker : Invoker W)
    (breakers : gmap string CircuitBreaker) (w : W) :
  let cb0 := default (NewCircuitBreaker cfg) (breakers !! method) in
  let '(_, cb', w1) := Call cb0 invoker w in
  let '(_, gauge, breakers', w') :=
    CircuitBreakerInterceptor cfg metrics method reply invoker breakers w in
  w' = w1 ∧
  breakers' !! method = Some cb' ∧
  (∀ other, other ≠ method → breakers' !! other = breakers !! other) ∧
  gauge = (if metrics then Some (stateCode (state cb')) else None) ∧
  (∀ v, gauge = Some v → 0 <= v <= 2).
Proof.
  unfold CircuitBreakerInterceptor, getBreaker.
  destruct (breakers !! method) as [cb|] eqn:Hl; simpl.
  - destruct (Call cb invoker w) as [[err cb'] w1].
    destruct metrics;
      destruct (bool_decide (err = None) && bool_decide (reply = None));
      (split; [done|]); (split; [by rewrite lookup_insert_eq|]);
      (split; [intros other Hne; by rewrite lookup_insert_ne|]); (split; [done|]);
      intros v Hv; try done; injection Hv as <-; by destruct (state cb').
  - destruct (Call (NewCircuitBreaker cfg) invoker w) as [[err cb'] w1].
    destruct metrics;
      destruct (bool_decide (err = None) && bool_decide (reply = None));
      (split; [done|]); (split; [by rewrite lookup_insert_eq|]);
      (split; [intros other Hne; by rewrite !lookup_insert_ne|]); (split; [done|]);
      intros v Hv; try done; injection Hv as <-; by destruct (state cb').
Qed.

(** Calls in a row through the interceptor are calls in a row through the
    breaker of the method. *)
Lemma Intercepts_Calls (n : nat) (cfg : option CircuitBreakerConfig) (metrics : bool)
    (method : string) (reply : option positive) (invoker : Invoker W) :
  ∀ (breakers : gmap string CircuitBreaker) (w : W),
  let cb0 := default (NewCircuitBreaker cfg) (breakers !! method) in
  Intercepts (S n) cfg metrics method reply invoker breakers w =
    (<[method := fst (Calls (S n) cb0 invoker w)]> breakers,
     snd (Calls (S n) cb0 invoker w)).
Proof.
  induction n as [|n IH]; intros breakers w cb0.
  - simpl. unfold CircuitBreakerInterceptor, getBreaker. subst cb0.
    destruct (breakers !! method) as [cb|] eqn:Hl; simpl.
    + destruct (Call cb invoker w) as [[err cb'] w1].
      by destruct (bool_decide (err = None) && bool_decide (reply = None)).
    + destruct (Call (NewCircuitBreaker cfg) invoker w) as [[err cb'] w1].
      destruct (bool_decide (err = None) && bool_decide (reply = None));
        simpl; by rewrite insert_insert_eq.
  - change (Intercepts (S (S n)) cfg metrics method reply invoker breakers w)
      with (let '(_, _, breakers1, w1) :=
              CircuitBreakerInterceptor cfg metrics method reply invoker breakers w in
            Intercepts (S n) cfg metrics method reply invoker breakers1 w1).
    change (Calls (S (S n)) cb0 invoker w)
      with (let '(_, cb1, w1) := Call cb0 invoker w in Calls (S n) cb1 invoker w1).
    unfold CircuitBreakerInterceptor, getBreaker. subst cb0.
    destruct (breakers !! method) as [cb|] eqn:Hl; cbn [default from_option id].
    + destruct (Call cb invoker w) as [[err cb'] w1].
      destruct (bool_decide (err = None) && bool_decide (reply = None));
        rewrite IH; rewrite lookup_insert_eq; cbn [default from_option id];
        by rewrite insert_insert_eq.
    + destruct (Call (NewCircuitBreaker cfg) invoker w) as [[err cb'] w1].
      destruct (bool_decide (err = None) && bool_decide (reply = None));
        rewrite IH; rewrite lookup_insert_eq; cbn [default from_option id];
        by rewrite !insert_insert_eq.
Qed.

(** Breakers are per method.  Once as many calls as the failure threshold
    have failed for one method through a new interceptor, a further call for
    that method made before the timeout is rejected as unavailable without
    the invoker being run, while a call for any other method is still passed
    to the invoker. *)
Theorem interceptor_isolates_methods (cfg : CircuitBreakerConfig) (metrics : bool)
    (method other : string) (reply : option positive)
    (failing invoker : Invoker W) (w : W) :
  (∀ w0, ∃ e w1, failing w0 = (Some e, w1) ∧ qualifying cfg e = true) →
  1 <= FailureThreshold cfg <= int_max →
  other ≠ method →
  let '(breakers, w1) :=
    Intercepts (Z.to_nat (FailureThreshold cfg)) (Some cfg) metrics method reply
      failing ∅ w in
  ∀ w2 : W,
    Since w2 (now w1) < Timeout cfg →
    fst (fst (fst (CircuitBreakerInterceptor (Some cfg) metrics method reply
                     invoker breakers w2))) = Some errOpen ∧
    snd (CircuitBreakerInterceptor (Some cfg) metrics method reply
           invoker breakers w2) = w2 ∧
    snd (CircuitBreakerInterceptor (Some cfg) metrics other (Some 1%positive)
           invoker breakers w2) = snd (invoker w2) ∧
    fst (fst (fst (CircuitBreakerInterceptor (Some cfg) metrics other (Some 1%positive)
                     invoker breakers w2))) = fst (invoker w2).
Proof.
  intros Hfail Hft Hne.
  destruct (Z.to_nat (FailureThreshold cfg)) as [|n] eqn:Hn; [lia|].
  rewrite Intercepts_Calls. rewrite lookup_empty. simpl default.
  pose proof (Calls_reach_threshold (NewCircuitBreaker (Some cfg)) failing w
                Hfail eq_refl eq_refl Hft) as Hopen.
  simpl config in Hopen. rewrite Hn in Hopen.
  destruct (Calls (S n) (NewCircuitBreaker (Some cfg)) failing w) as [cbN wN] eqn:HN.
  destruct Hopen as (Hso & Hfo & Hlo). simpl fst. simpl snd.
  assert (HcN : config cbN = cfg).
  { pose proof (Calls_config (S n) (NewCircuitBreaker (Some cfg)) failing w) as Hc.
    by rewrite HN in Hc. }
  intros w2 Hearly.
  unfold CircuitBreakerInterceptor, getBreaker.
  rewrite lookup_insert_eq. rewrite lookup_insert_ne by done. rewrite lookup_empty.
  simpl.
  assert (Hrej : Call cbN invoker w2 = (Some errOpen, cbN, w2)).
  { unfold Call. rewrite precheck_open_early; [done|done|].
    rewrite HcN, Hlo. done. }
  rewrite Hrej.
  assert (Hpass : Call (NewCircuitBreaker (Some cfg)) invoker w2 =
                  (fst (invoker w2),
                   record (NewCircuitBreaker (Some cfg)) (fst (invoker w2)) (snd (invoker w2)),
                   snd (invoker w2))).
  { apply Call_passed; [by apply precheck_not_open|by destruct (invoker w2)]. }
  rewrite Hpass.
  destruct reply; simpl; repeat split; try done.
  all: by destruct (fst (invoker w2)).
Qed.

End WithWorld.

(** A history on the simulated world: two failures, a wait of two seconds,
    a success, a failure that is not counted and a counted failure. *)
Lemma CallEach_bounded_run :
  let failing := Fixtures.scripted Second (λ _, Some Fixtures.unavailable) in
  let passing := Fixtures.scripted Second (λ _, None) in
  let odd := Fixtures.scripted Second (λ _, Some Fixtures.invalid) in
  let later := λ w, Fixtures.mkSim (Fixtures.clock w + 2 * Second) (Fixtures.invocations w) in
  let cb := fst (CallEach [(id, failing); (id, failing); (later, passing);
                           (id, odd); (id, failing)]
                   (NewCircuitBreaker (Some Fixtures.breakerCfg3)) (Fixtures.mkSim 0 0)) in
  bounded cb ∧ config cb = Fixtures.breakerCfg3.
Proof.
  intros failing passing odd later.
  apply (CallEach_bounded (W := Fixtures.Sim) Fixtures.breakerCfg3); simpl;
    unfold int_max; lia.
Defined.

(** The breaker of the repository's test opens at its second failure. *)
Lemma Calls_open_at_threshold_run :
  let failing := Fixtures.scripted Second (λ _, Some Fixtures.unavailable) in
  let cb := NewCircuitBreaker (Some Fixtures.breakerCfg) in
  (∀ k, (k < 2)%nat →
     state (fst (Calls k cb failing (Fixtures.mkSim 0 0))) = StateClosed ∧
     failures (fst (Calls k cb failing (Fixtures.mkSim 0 0))) = Z.of_nat k) ∧
  let '(cb', w') := Calls 2 cb failing (Fixtures.mkSim 0 0) in
  state cb' = StateOpen ∧ failures cb' = 2 ∧ lastFailure cb' = now w'.
Proof.
  intros failing cb.
  apply (Calls_open_at_threshold (W := Fixtures.Sim) cb failing (Fixtures.mkSim 0 0)).
  - intros w0. by eexists _, _.
  - reflexivity.
  - reflexivity.
  - simpl. unfold int_max. lia.
Defined.

(** One failure, a success, then one failure again: still closed. *)
Lemma success_restarts_count_run :
  let failing := Fixtures.scripted Second (λ _, Some Fixtures.unavailable) in
  let passing := Fixtures.scripted Second (λ _, None) in
  let cb := mkBreaker StateClosed 1 0 Second Fixtures.breakerCfg in
  let '(err, cb1, w1) := Call cb passing (Fixtures.mkSim Second 1) in
  err = None ∧ failures cb1 = 0 ∧
  state (fst (Calls 1 cb1 failing w1)) = StateClosed ∧
  failures (fst (Calls 1 cb1 failing w1)) = 1.
Proof.
  intros failing passing cb.
  apply (success_restarts_count (W := Fixtures.Sim) cb passing failing
           (Fixtures.mkSim Second 1) (Fixtures.mkSim (2 * Second) 2) 1).
  - reflexivity.
  - reflexivity.
  - intros w0. by eexists _, _.
  - simpl. unfold int_max. lia.
  - simpl. lia.
Defined.

(** One counted failure, an invalid-argument failure, then one counted
    failure: open. *)
Lemma ignored_failure_keeps_count_run :
  let failing := Fixtures.scripted Second (λ _, Some Fixtures.unavailable) in
  let odd := Fixtures.scripted Second (λ _, Some Fixtures.invalid) in
  let cb := mkBreaker StateClosed 1 0 Second Fixtures.breakerCfg in
  Call cb odd (Fixtures.mkSim Second 1)
    = (Some Fixtures.invalid, cb, Fixtures.mkSim (2 * Second) 2) ∧
  ∃ cb2, Call cb failing (Fixtures.mkSim (2 * Second) 2)
           = (Some Fixtures.unavailable, cb2, Fixtures.mkSim (3 * Second) 3) ∧
         state cb2 = StateOpen.
Proof.
  intros failing odd cb.
  apply (ignored_failure_keeps_count (W := Fixtures.Sim) cb odd failing
           (Fixtures.mkSim Second 1)); try reflexivity.
  by vm_compute.
Defined.

(** A first call for a method through a new interceptor with metrics. *)
Lemma interceptor_breakers_run :
  let failing := Fixtures.scripted Second (λ _, Some Fixtures.unavailable) in
  let '(_, gauge, breakers', _) :=
    CircuitBreakerInterceptor (Some Fixtures.breakerCfg) true "svc/A" (Some 1%positive)
      failing ∅ (Fixtures.mkSim 0 0) in
  (state <$> breakers' !! "svc/A") = Some StateClosed ∧
  breakers' !! "svc/B" = None ∧ gauge = Some 0.
Proof.
  intros failing.
  pose proof (interceptor_breakers (W := Fixtures.Sim) (Some Fixtures.breakerCfg) true
                "svc/A" (Some 1%positive) failing ∅ (Fixtures.mkSim 0 0)) as Hi.
  cbv zeta in Hi.
  destruct (Call _ _ _) as [[err cb'] w1] eqn:Hcall in Hi.
  destruct (CircuitBreakerInterceptor _ _ _ _ _ _ _) as [[[res gauge] bs] w'].
  destruct Hi as (_ & Hm & Ho & Hg & _).
  vm_compute in Hcall. injection Hcall as <- <- <-.
  split; [by rewrite Hm|]. split; [by rewrite Ho|]. by rewrite Hg.
Defined.

(** After the two failures of method A, A is rejected and B goes through. *)
Lemma interceptor_isolates_methods_run :
  let failing := Fixtures.scripted Second (λ _, Some Fixtures.unavailable) in
  let passing := Fixtures.scripted Second (λ _, None) in
  let '(breakers, w1) :=
    Intercepts 2 (Some Fixtures.breakerCfg) false "svc/A" (Some 1%positive)
      failing ∅ (Fixtures.mkSim 0 0) in
  fst (fst (fst (CircuitBreakerInterceptor (Some Fixtures.breakerCfg) false "svc/A"
                   (Some 1%positive) passing breakers w1))) = Some errOpen ∧
  fst (fst (fst (CircuitBreakerInterceptor (Some Fixtures.breakerCfg) false "svc/B"
                   (Some 1%positive) passing breakers w1))) = None.
Proof.
  intros failing passing.
  pose proof (interceptor_isolates_methods (W := Fixtures.Sim) Fixtures.breakerCfg false
                "svc/A" "svc/B" (Some 1%positive) failing passing (Fixtures.mkSim 0 0)) as Hi.
  change (Z.to_nat (FailureThreshold Fixtures.breakerCfg)) with 2%nat in Hi.
  destruct (Intercepts 2 _ _ _ _ _ _ _) as [breakers w1] eqn:Hrun.
  destruct (Hi ltac:(intros w0; by eexists _, _) ltac:(simpl; unfold int_max; lia)
              ltac:(done) w1) as (Ha & _ & _ & Hb).
  - apply (f_equal snd) in Hrun. vm_compute in Hrun. subst w1. by vm_compute.
  - split; [done|]. rewrite Hb. apply (f_equal snd) in Hrun. vm_compute in Hrun.
    by subst w1.
Defined.

End BreakerHistory.


(* ===================================================================== *)
(** * Properties: bounds of the retry loop and its place under the breaker *)
(* ===================================================================== *)

Module RetryBounds.
Import Retry History RetryFacts.

Section WithWorld.
Context {W F : Type} `{Sleeper W} `{Float64 F}.

(** With no attempt allowed the interceptor reports success at once: the
    invoker is not run and the world is as it was. *)
Theorem retry_no_attempts (cfg : RetryConfig F) (invoker : Invoker W) (w : W) :
  MaxAttempts cfg <= 0 →
  RetryInterceptor (Some cfg) invoker w = (None, w).
Proof.
  intros Hmax. unfold RetryInterceptor. simpl default.
  replace (Z.to_nat (MaxAttempts cfg)) with 0%nat by lia. done.
Qed.

Lemma nextBackoff_le (cfg : RetryConfig F) (backoff : Duration) :
  nextBackoff cfg backoff <= MaxBackoff cfg.
Proof. unfold nextBackoff. case_bool_decide; lia. Qed.

(** The record of a run of the loop: failures that were retried, then at
    most one more invocation, whose outcome is the result. *)
Lemma retryLoop_log (fuel : nat) (cfg : RetryConfig F) (invoker : Invoker W) :
  ∀ (attempt : Z) (backoff : Duration) (lastErr : option error) (w : W)
    (log0 : list (option error)) r w' log1,
  retryLoop fuel cfg (recording invoker) attempt backoff lastErr (w, log0)
    = (r, (w', log1)) →
  ∃ pre fin,
    log1 = log0 ++ pre ++ fin ∧
    Forall (λ o, ∃ e, o = Some e ∧ retryable cfg e = true) pre ∧
    (length (pre ++ fin) ≤ fuel)%nat ∧
    (fin = [r] ∨
     (fin = [] ∧ ((pre = [] ∧ r = lastErr) ∨ (pre ≠ [] ∧ is_Some r)))).
Proof.
  induction fuel as [|fuel IH]; intros attempt backoff lastErr w log0 r w' log1 Hrun.
  - simpl in Hrun. injection Hrun as <- <- <-.
    exists [], []. rewrite !app_nil_r. repeat split; auto.
  - cbn [retryLoop] in Hrun. case_bool_decide as Hle.
    2:{ injection Hrun as <- <- <-. exists [], []. rewrite !app_nil_r.
        repeat split; auto. simpl. lia. }
    unfold recording at 1 in Hrun.
    destruct (invoker w) as [[e|] w1].
    2:{ injection Hrun as <- <- <-. exists [], [None].
        repeat split; auto. simpl. lia. }
    destruct (FromError e) as [st ok] eqn:Hfe.
    assert (Hstop : (r, (w', log1)) = (Some e, (w1, log0 ++ [Some e])) →
              ∃ pre fin,
                log1 = log0 ++ pre ++ fin ∧
                Forall (λ o, ∃ e, o = Some e ∧ retryable cfg e = true) pre ∧
                (length (pre ++ fin) ≤ S fuel)%nat ∧
                (fin = [r] ∨
                 (fin = [] ∧ ((pre = [] ∧ r = lastErr) ∨ (pre ≠ [] ∧ is_Some r))))).
    { intros [= -> -> ->]. exists [], [Some e]. repeat split; auto. simpl. lia. }
    destruct ok; simpl in Hrun; [|by apply Hstop].
    destruct (isRetryable st (RetryableCodes cfg)) eqn:Hret; simpl in Hrun;
      [|by apply Hstop].
    case_bool_decide as Hge; [by apply Hstop|].
    assert (Hr : retryable cfg e = true).
    { unfold retryable. rewrite Hfe. simpl. by rewrite Hret. }
    destruct (backoffWait backoff w1) as [[ctxErr|] w2].
    + injection Hrun as <- <- <-. exists [Some e], [].
      rewrite app_nil_r. split; [done|]. split; [|split].
      * constructor; [eauto|constructor].
      * simpl. lia.
      * right. split; [done|]. right. split; [done|eauto].
    + destruct (IH _ _ _ _ _ _ _ _ Hrun) as (pre & fin & -> & Hall & Hlen & Hfin).
      exists (Some e :: pre), fin. split; [by rewrite <- !app_assoc|].
      split; [constructor; eauto|]. split; [simpl; lia|].
      destruct Hfin as [->|[-> [[-> ->]|[Hne Hsome]]]].
      * by left.
      * right. split; [done|]. right. split; [done|eauto].
      * right. split; [done|]. right. split; [done|done].
Qed.

(** However the invoker and the waits behave, the interceptor never runs the
    invoker more often than [MaxAttempts].  The invocations it makes are
    failures it retried, followed by at most one more; if there is one
    more, its outcome is what the interceptor returns; if there is none,
    either no invocation was made at all and the result is success, or the
    result is an error (of the last attempt, or of the context). *)
Theorem retry_log_shape (cfg : RetryConfig F) (invoker : Invoker W) (w0 : W) :
  let '(r, (_, log)) := RetryInterceptor (Some cfg) (recording invoker) (w0, []) in
  (length log ≤ Z.to_nat (MaxAttempts cfg))%nat ∧
  ∃ pre fin,
    log = pre ++ fin ∧
    Forall (λ o, ∃ e, o = Some e ∧ retryable cfg e = true) pre ∧
    (fin = [r] ∨ (fin = [] ∧ ((pre = [] ∧ r = None) ∨ (pre ≠ [] ∧ is_Some r)))).
Proof.
  unfold RetryInterceptor. simpl default.
  destruct (retryLoop _ _ _ _ _ _ _) as [r [w' log]] eqn:Hrun.
  destruct (retryLoop_log _ _ _ _ _ _ _ _ _ _ _ Hrun)
    as (pre & fin & Hlog & Hall & Hlen & Hfin).
  simpl in Hlog. subst log. split; [done|]. by exists pre, fin.
Qed.

(** A context that is done during the first wait ends the call after one
    invocation, and the caller gets the context's error in place of the
    error of that invocation. *)
Theorem retry_cancel_replaces_error (cfg : RetryConfig F) (invoker : Invoker W)
    (w w1 w2 : W) (e ctxErr : error) :
  1 < MaxAttempts cfg → invoker w = (Some e, w1) → retryable cfg e = true →
  backoffWait (InitialBackoff cfg) w1 = (Some ctxErr, w2) →
  RetryInterceptor (Some cfg) (recording invoker) (w, [])
    = (Some ctxErr, (w2, [Some e])).
Proof.
  intros Hmax Hi Hr Hw. unfold RetryInterceptor. simpl default.
  destruct (Z.to_nat (MaxAttempts cfg)) as [|fuel] eqn:Hn; [lia|].
  apply (retryLoop_cancelled _ _ _ _ _ _ _ (w1, [Some e]) (w2, [Some e]) e);
    [done| |done|].
  - by apply (recording_run invoker w w1 (Some e) []).
  - by apply recording_wait.
Qed.

(** The waits of a run of the loop, from the round of [attempt] on. *)
Lemma retryLoop_waits (fuel : nat) (cfg : RetryConfig F) (invoker : Invoker W) :
  MaxAttempts cfg <= int_max →
  ∀ (attempt : Z) (backoff : Duration) (lastErr : option error) (w : W)
    (waits0 : list Duration) r w' waits1,
  1 <= attempt →
  retryLoop fuel cfg (timed invoker) attempt backoff lastErr (w, waits0)
    = (r, (w', waits1)) →
  ∃ waits,
    waits1 = waits0 ++ waits ∧
    (length waits ≤ Z.to_nat (MaxAttempts cfg - attempt))%nat ∧
    ∀ i d, waits !! i = Some d → d = Nat.iter i (nextBackoff cfg) backoff.
Proof.
  intros Hmax.
  induction fuel as [|fuel IH];
    intros attempt backoff lastErr w waits0 r w' waits1 H1 Hrun.
  - simpl in Hrun. injection Hrun as <- <- <-.
    exists []. rewrite app_nil_r. repeat split; [simpl; lia|done].
  - assert (Hnone : (r, (w', waits1)) = (r, (w', waits0)) → waits1 = waits0 →
              ∃ waits,
                waits1 = waits0 ++ waits ∧
                (length waits ≤ Z.to_nat (MaxAttempts cfg - attempt))%nat ∧
                ∀ i d, waits !! i = Some d → d = Nat.iter i (nextBackoff cfg) backoff).
    { intros _ ->. exists []. rewrite app_nil_r. repeat split; [simpl; lia|done]. }
    cbn [retryLoop] in Hrun. case_bool_decide as Hle.
    2:{ injection Hrun as <- <- <-. by apply Hnone. }
    unfold timed at 1 in Hrun.
    destruct (invoker w) as [[e|] w1].
    2:{ injection Hrun as <- <- <-. by apply Hnone. }
    destruct (FromError e) as [st ok].
    destruct ok; simpl in Hrun; [|injection Hrun as <- <- <-; by apply Hnone].
    destruct (isRetryable st (RetryableCodes cfg)); simpl in Hrun;
      [|injection Hrun as <- <- <-; by apply Hnone].
    case_bool_decide as Hge; [injection Hrun as <- <- <-; by apply Hnone|].
    destruct (backoffWait backoff w1) as [[ctxErr|] w2].
    + injection Hrun as <- <- <-. exists [backoff]. split; [done|].
      split; [simpl; lia|].
      intros [|i] d Hl; simpl in Hl; [by injection Hl as <-|done].
    + rewrite incr_in_range in Hrun by (unfold int_min; lia).
      destruct (IH (attempt + 1) _ _ _ _ _ _ _ ltac:(lia) Hrun)
        as (waits & -> & Hlen & Hd).
      exists (backoff :: waits). split; [by rewrite <- app_assoc|].
      split; [simpl; lia|].
      intros [|i] d Hl; simpl in Hl; [by injection Hl as <-|].
      rewrite (Hd i d Hl). by rewrite Nat.iter_succ_r.
Qed.

(** The backoff schedule.  Between its attempts the interceptor waits fewer
    times than [MaxAttempts]; the first wait lasts [InitialBackoff], as
    configured, and each later wait lasts what [nextBackoff] makes of the
    one before, so that every wait after the first is at most [MaxBackoff]. *)
Theorem retry_backoff_schedule (cfg : RetryConfig F) (invoker : Invoker W) (w0 : W) :
  MaxAttempts cfg <= int_max →
  let '(_, (_, waits)) := RetryInterceptor (Some cfg) (timed invoker) (w0, []) in
  (length waits ≤ Z.to_nat (MaxAttempts cfg - 1))%nat ∧
  (∀ i d, waits !! i = Some d →
     d = Nat.iter i (nextBackoff cfg) (InitialBackoff cfg)) ∧
  (∀ i d, waits !! S i = Some d → d <= MaxBackoff cfg).
Proof.
  intros Hmax. unfold RetryInterceptor. simpl default.
  destruct (retryLoop _ _ _ _ _ _ _) as [r [w' waits]] eqn:Hrun.
  destruct (retryLoop_waits _ _ _ Hmax 1 _ _ _ _ _ _ _ ltac:(lia) Hrun)
    as (waits' & Hw & Hlen & Hd).
  simpl in Hw. subst waits'. split; [done|]. split; [done|].
  intros i d Hl. rewrite (Hd _ _ Hl). simpl. apply nextBackoff_le.
Qed.

End WithWorld.

Section UnderBreaker.
Context {W F : Type} `{Clock W} `{Sleeper W} `{Float64 F}.

(** When every invocation fails with a retried error that has property [P]
    and no wait is cut short, the loop makes all its attempts and returns
    an error with property [P]. *)
Lemma retryLoop_exhausted_with (P : error → Prop) (fuel : nat) (cfg : RetryConfig F)
    (invoker : Invoker W) :
  (∀ w, ∃ e w1, invoker w = (Some e, w1) ∧ retryable cfg e = true ∧ P e) →
  (∀ d w, fst (backoffWait d w) = None) →
  MaxAttempts cfg <= int_max →
  ∀ (attempt : Z) (backoff : Duration) (lastErr : option error) (w : W)
    (log0 : list (option error)),
    1 <= attempt → Z.of_nat (S fuel) = MaxAttempts cfg - attempt + 1 →
    ∃ e w' log,
      retryLoop (S fuel) cfg (recording invoker) attempt backoff lastErr (w, log0)
        = (Some e, (w', log0 ++ log)) ∧
      length log = S fuel ∧ last log = Some (Some e) ∧ P e.
Proof.
  intros Hfail Hwait Hmax.
  induction fuel as [|fuel IH]; intros attempt backoff lastErr w log0 Hatt Hf.
  - destruct (Hfail w) as (e & w1 & Hi & Hr & HP).
    exists e, w1, [Some e]. split; [|done].
    apply retryLoop_final; [lia| by apply recording_run |right; lia].
  - destruct (Hfail w) as (e & w1 & Hi & Hr & HP).
    destruct (backoffWait backoff w1) as [r w2] eqn:Hw.
    pose proof (Hwait backoff w1) as Hnone. rewrite Hw in Hnone. simpl in Hnone.
    subst r.
    rewrite (retryLoop_retry _ _ _ _ _ _ _ (w1, log0 ++ [Some e]) (w2, log0 ++ [Some e]) e);
      [|lia|by apply recording_run|done|by apply recording_wait].
    rewrite incr_in_range by (unfold int_min; lia).
    destruct (IH (attempt + 1) (nextBackoff cfg backoff) (Some e) w2 (log0 ++ [Some e]))
      as (e' & w' & log & Hrun & Hlen & Hlast & HP'); [lia|lia|].
    exists e', w', (Some e :: log). split; [|split; [|split]].
    + rewrite Hrun. by rewrite <- app_assoc.
    + simpl. by rewrite Hlen.
    + destruct log as [|r log]; [done|]. done.
    + done.
Qed.

(** The breaker around the retry loop sees one outcome per call, however
    many attempts the loop made.  Through a closed breaker: if every attempt
    fails with an error that the loop retries and the breaker counts, all
    [MaxAttempts] invocations are made and the breaker counts one failure;
    and whenever the last invocation of the loop succeeded, the call
    succeeds and the breaker is closed with no failure counted, whatever
    failed before. *)
Theorem breaker_over_retry (cb : Breaker.CircuitBreaker) (cfg : RetryConfig F)
    (invoker : Invoker W) (w0 : W) :
  Breaker.state cb = Breaker.StateClosed →
  (1 <= MaxAttempts cfg <= int_max →
   (∀ w, ∃ e w1, invoker w = (Some e, w1) ∧ retryable cfg e = true ∧
                 Breaker.qualifying (Breaker.config cb) e = true) →
   (∀ d w, fst (backoffWait d w) = None) →
   let '(err, cb', (_, log)) :=
     Breaker.Call cb (RetryInterceptor (Some cfg) (recording invoker)) (w0, []) in
   length log = Z.to_nat (MaxAttempts cfg) ∧
   (∃ e, err = Some e ∧ last log = Some (Some e)) ∧
   Breaker.failures cb' = incr (Breaker.failures cb)) ∧
  (let '(err, cb', (_, log)) :=
     Breaker.Call cb (RetryInterceptor (Some cfg) (recording invoker)) (w0, []) in
   last log = Some None →
   err = None ∧ Breaker.failures cb' = 0 ∧ Breaker.state cb' = Breaker.StateClosed).
Proof.
  intros Hs.
  assert (Hpass : ∀ r s',
    RetryInterceptor (Some cfg) (recording invoker) (w0, []) = (r, s') →
    Breaker.Call cb (RetryInterceptor (Some cfg) (recording invoker)) (w0, [])
      = (r, Breaker.record cb r s', s')).
  { intros r s' Hrun. apply BreakerFacts.Call_passed; [|done].
    apply BreakerFacts.precheck_not_open. by rewrite Hs. }
  split.
  - intros Hmax Hfail Hwait.
    assert (Hrun : ∃ e w' log,
      RetryInterceptor (Some cfg) (recording invoker) (w0, []) = (Some e, (w', log)) ∧
      length log = Z.to_nat (MaxAttempts cfg) ∧ last log = Some (Some e) ∧
      Breaker.qualifying (Breaker.config cb) e = true).
    { unfold RetryInterceptor. simpl default.
      destruct (Z.to_nat (MaxAttempts cfg)) as [|fuel] eqn:Hn; [lia|].
      destruct (retryLoop_exhausted_with
                  (λ e, Breaker.qualifying (Breaker.config cb) e = true)
                  fuel cfg invoker Hfail Hwait) with
        (attempt := 1) (backoff := InitialBackoff cfg) (lastErr := @None error)
        (w := w0) (log0 := @nil (option error))
        as (e & w' & log & Hrun & Hlen & Hlast & Hq); [lia|lia|lia|].
      exists e, w', log. done. }
    destruct Hrun as (e & w' & log & Hrun & Hlen & Hlast & Hq).
    rewrite (Hpass _ _ Hrun). split; [done|]. split; [eauto|].
    rewrite BreakerFacts.record_failure_counted by (try done; rewrite Hs; done).
    cbv zeta. by case_bool_decide.
  - destruct (RetryInterceptor (Some cfg) (recording invoker) (w0, []))
      as [r [w' log]] eqn:Hrun.
    rewrite (Hpass _ _ eq_refl). intros Hlast.
    unfold RetryInterceptor in Hrun. simpl default in Hrun.
    destruct (retryLoop_log _ _ _ _ _ _ _ _ _ _ _ Hrun)
      as (pre & fin & Hlog & Hall & _ & Hfin).
    simpl in Hlog. subst log.
    assert (Hr : r = None).
    { destruct Hfin as [->|[-> Hrest]].
      - rewrite last_snoc in Hlast. by injection Hlast.
      - rewrite app_nil_r in Hlast.
        destruct pre as [|o pre _] using rev_ind; [done|].
        rewrite last_snoc in Hlast. injection Hlast as ->.
        apply Forall_app in Hall as [_ Hlast'].
        apply Forall_singleton in Hlast' as (e & He & _). done. }
    subst r. rewrite BreakerFacts.record_success_other by (rewrite Hs; done).
    simpl. done.
Qed.

End UnderBreaker.

(** A configuration that allows no attempt. *)
Lemma retry_no_attempts_run :
  RetryInterceptor (Some (mkConfig 0 Millisecond Second 2 [Unavailable]))
      (Fixtures.scripted Millisecond (λ _, Some Fixtures.unavailable))
      (Fixtures.mkSim 0 0)
    = (None, Fixtures.mkSim 0 0).
Proof.
  apply (retry_no_attempts (W := Fixtures.Sim)
           (mkConfig 0 Millisecond Second 2 [Unavailable])).
  simpl. lia.
Defined.

(** A deadline five milliseconds away cuts the first wait of ten short. *)
Lemma retry_cancel_replaces_error_run :
  RetryInterceptor (Some Fixtures.retryCfg) (recording Scenarios.alwaysUnavailable)
      (Scenarios.mkTimed 0 (5 * Millisecond) 0, [])
    = (Some Scenarios.deadlineExceeded,
       (Scenarios.mkTimed (5 * Millisecond) (5 * Millisecond) 1,
        [Some Fixtures.unavailable])).
Proof.
  apply (retry_cancel_replaces_error (W := Scenarios.Timed) Fixtures.retryCfg
           Scenarios.alwaysUnavailable
           (Scenarios.mkTimed 0 (5 * Millisecond) 0)
           (Scenarios.mkTimed Millisecond (5 * Millisecond) 1)); reflexivity.
Defined.

(** The waits of the configuration of the repository's test when every
    attempt fails. *)
Lemma retry_backoff_schedule_run :
  let '(_, (_, waits)) :=
    RetryInterceptor (Some Fixtures.retryCfg)
      (timed (Fixtures.scripted Millisecond (λ _, Some Fixtures.unavailable)))
      (Fixtures.mkSim 0 0, []) in
  (length waits ≤ 2)%nat ∧
  (∀ i d, waits !! i = Some d →
     d = Nat.iter i (nextBackoff Fixtures.retryCfg) (10 * Millisecond)) ∧
  (∀ i d, waits !! S i = Some d → d <= 100 * Millisecond).
Proof.
  apply (retry_backoff_schedule (W := Fixtures.Sim) Fixtures.retryCfg
           (Fixtures.scripted Millisecond (λ _, Some Fixtures.unavailable))
           (Fixtures.mkSim 0 0)).
  simpl. unfold int_max. lia.
Defined.

(** Three failed attempts under the breaker of the repository's test count
    as one failure. *)
Lemma breaker_over_retry_run :
  let failing := Fixtures.scripted Millisecond (λ _, Some Fixtures.unavailable) in
  let '(err, cb', (_, log)) :=
    Breaker.Call (Breaker.NewCircuitBreaker (Some Fixtures.breakerCfg))
      (RetryInterceptor (Some Fixtures.retryCfg) (recording failing))
      (Fixtures.mkSim 0 0, []) in
  length log = 3%nat ∧
  (∃ e, err = Some e ∧ last log = Some (Some e)) ∧
  Breaker.failures cb' = incr 0.
Proof.
  intros failing.
  destruct (breaker_over_retry (W := Fixtures.Sim)
              (Breaker.NewCircuitBreaker (Some Fixtures.breakerCfg)) Fixtures.retryCfg
              failing (Fixtures.mkSim 0 0) eq_refl) as [Hex _].
  apply Hex.
  - simpl. unfold int_max. lia.
  - intros w. by eexists _, _.
  - intros d w. reflexivity.
Defined.

End RetryBounds.


(* ===================================================================== *)
(** * Properties: metrics *)
(* ===================================================================== *)

Module MetricsFacts.
Import Metrics.

Section WithWorld.
Context {W : Type} `{Clock W} `{Elapsing W}.

(** The metrics interceptor runs the invoker once and returns its error.
    Without metrics it records nothing and leaves the world as the invoker
    left it.  With metrics it records exactly one request, under the code
    name OK for success, the name of the status code for a status error and
    Unknown for any other error; the duration it records is the time between
    its two readings of the clock, the first made before the invoker is
    called and the second after it has returned.  A call that an open
    breaker beneath it rejects is recorded as well, as Unavailable and with
    the time between the two readings, although nothing was invoked. *)
Theorem MetricsInterceptor_records (serviceName method : string) (m : bool)
    (invoker : Invoker W) (w : W) :
  (let '(err, req, w') := MetricsInterceptor serviceName m method invoker w in
   err = fst (invoker w) ∧
   w' = (if m then elapse (snd (invoker w)) else snd (invoker w)) ∧
   req = (if m
          then Some (mkRequest serviceName method
                       match err with
                       | None => "OK"
                       | Some (StatusError c _) => CodeString c
                       | Some (OtherError _) => "Unknown"
                       end
                       (Since w' (now w)))
          else None)) ∧
  (∀ cb : Breaker.CircuitBreaker,
     Breaker.state cb = Breaker.StateOpen →
     Since w (Breaker.lastFailure cb) < Breaker.Timeout (Breaker.config cb) →
     MetricsInterceptor serviceName true method (History.throughBreaker cb invoker) w
       = (Some Breaker.errOpen,
          Some (mkRequest serviceName method "Unavailable" (Since (elapse w) (now w))),
          elapse w)).
Proof.
  split.
  - unfold MetricsInterceptor. destruct m; simpl.
    + destruct (invoker w) as [[[c msg|msg]|] w1]; done.
    + destruct (invoker w) as [err w1]; done.
  - intros cb Hs Ht. unfold MetricsInterceptor, History.throughBreaker. simpl.
    unfold Breaker.Call. by rewrite BreakerFacts.precheck_open_early by done.
Qed.

End WithWorld.

(** After [UpdateGRPCConnectionState service state]: the series of [state]
    reads 1, each of the five state labels other than [state] reads 0, and
    every other series is as before.  So when [state] is one of the five
    labels exactly that one reads 1, and when it is not, all five read 0 and
    a further series is set. *)
Theorem UpdateGRPCConnectionState_series (service state : string) (g : StateGauges) :
  let g' := UpdateGRPCConnectionState service state g in
  g' !! (service, state) = Some 1 ∧
  (∀ l, l ∈ stateLabels → l ≠ state → g' !! (service, l) = Some 0) ∧
  (∀ s l, s ≠ service ∨ ((l ∉ stateLabels) ∧ l ≠ state) →
     g' !! (s, l) = g !! (s, l)).
Proof.
  unfold UpdateGRPCConnectionState, setGauge, stateLabels. cbv zeta.
  split; [by rewrite lookup_insert_eq|]. split.
  - intros l Hl Hne.
    rewrite lookup_insert_ne by congruence.
    rewrite !elem_of_cons, elem_of_nil in Hl.
    destruct Hl as [->|[->|[->|[->|[->|[]]]]]];
      repeat (first [ rewrite lookup_insert_eq; reflexivity
                    | rewrite lookup_insert_ne by (intros [=]) ]).
  - intros s l Hother.
    assert (Hne : ∀ l', (l' ∈ ["Idle"; "Connecting"; "Ready"; "TransientFailure"; "Shutdown"]
                         ∨ l' = state) → (service, l') ≠ (s, l)).
    { intros l' Hl' [= -> ->]. destruct Hother as [?|[Hnot Hns]]; [done|].
      destruct Hl' as [?|?]; done. }
    rewrite !lookup_insert_ne; [done|..]; apply Hne;
      first [ by right | left; rewrite !elem_of_cons; tauto ].
Qed.

(** A call that an open breaker rejects, under the metrics interceptor, on
    a clock that advances by a nanosecond between its two readings: the
    recorded duration is that nanosecond. *)
Lemma MetricsInterceptor_records_run :
  MetricsInterceptor "svc" true "svc/A"
      (History.throughBreaker
         (Breaker.mkBreaker Breaker.StateOpen 2 0 (2 * Second) Fixtures.breakerCfg)
         (Fixtures.scripted Second (λ _, None)))
      (Fixtures.mkSim (2 * Second + 1) 2)
    = (Some Breaker.errOpen, Some (mkRequest "svc" "svc/A" "Unavailable" 1),
       Fixtures.mkSim (2 * Second + 2) 2).
Proof.
  exact (proj2 (MetricsInterceptor_records (W := Fixtures.Sim) "svc" "svc/A" true
                  (Fixtures.scripted Second (λ _, None))
                  (Fixtures.mkSim (2 * Second + 1) 2))
           (Breaker.mkBreaker Breaker.StateOpen 2 0 (2 * Second) Fixtures.breakerCfg)
           eq_refl eq_refl).
Defined.

(** The state name of the transport is not one of the five labels. *)
Lemma UpdateGRPCConnectionState_series_run :
  let g' := UpdateGRPCConnectionState "svc" "READY" ∅ in
  g' !! ("svc", "READY") = Some 1 ∧ g' !! ("svc", "Ready") = Some 0 ∧
  g' !! ("other", "Ready") = None.
Proof.
  destruct (UpdateGRPCConnectionState_series "svc" "READY" ∅) as (H1 & H0 & Hf).
  split; [exact H1|]. split.
  - apply H0; [|done]. unfold stateLabels. rewrite !elem_of_cons. tauto.
  - rewrite Hf; [done|]. by left.
Defined.

End MetricsFacts.


(* ===================================================================== *)
(** * Properties: the registry, operation by operation *)
(* ===================================================================== *)

Module RegistryFacts.
Import Manager Ops ManagerFacts.

Section WithTransport.
Context {W : Type} `{Transport W} `{Elapsing W}.

(** What a caller can rely on after [GetConnection].  The configuration is
    as before and no other service is touched.  If a handle is returned, it
    is the handle the registry now tracks for the service, under the
    address the call worked with.  If the dial failed, the error names the
    service and wraps the dial's error, and the registry tracks no handle
    for the service.  If no address was provided, the call was made with an
    empty address and changed neither registry nor transport.  No other
    error is returned. *)
Theorem GetConnection_outcomes (s : Sys W) (name address : string) :
  let '(r, s') := GetConnection name address s in
  config (mgr s') = config (mgr s) ∧ metrics (mgr s') = metrics (mgr s) ∧
  (∀ other, other ≠ name →
     connections (mgr s') !! other = connections (mgr s) !! other ∧
     addresses (mgr s') !! other = addresses (mgr s) !! other) ∧
  match r with
  | inl conn =>
      connections (mgr s') !! name = Some conn ∧
      addresses (mgr s') !! name = Some (resolved (mgr s) name address)
  | inr (ErrCreateConnection n err) =>
      n = name ∧ connections (mgr s') !! name = None ∧
      addresses (mgr s') !! name = Some (resolved (mgr s) name address) ∧
      last (trace s') = Some EvUnlock ∧
      ∃ tr, trace s' = tr ++ [EvDial (resolved (mgr s) name address) (inr err); EvUnlock]
  | inr (ErrAddressNotProvided n) =>
      n = name ∧ address = "" ∧ mgr s' = mgr s ∧ world s' = world s
  | inr (ErrInvalidConfig _) => False
  end.
Proof.
  destruct (GetConnection_cases s name address)
    as [(He & ->)|[(conn & Hne & Hc & Hu & ->)|[(d & w2 & Hne & Hc & Hd & ->)
       |[(conn & Hne & Hc & Hu & Hu' & ->)
       |(conn & cr & w1 & d & w2 & Hne & Hc & Hu & Hu' & Hcl & Hd & ->)]]]]; simpl.
  - repeat split; try done.
    unfold resolved in He. by case_bool_decide.
  - split; [done|]. split; [done|]. split.
    + intros other Ho. split; [done|]. by apply stored_lookup_ne.
    + split; [done|]. by apply stored_lookup.
  - split; [done|]. split; [done|]. split.
    + intros other Ho. split; [by apply installed_lookup_ne|by apply stored_lookup_ne].
    + destruct d as [newConn|err]; simpl.
      * split; [by rewrite lookup_insert_eq|by apply stored_lookup].
      * split; [done|]. split; [done|]. split; [by apply stored_lookup|].
        split; [by rewrite last_app|].
        eexists (trace s ++ [EvLock; EvUnlock; EvRLock; EvRUnlock; EvLock]).
        by rewrite <- app_assoc.
  - split; [done|]. split; [done|]. split.
    + intros other Ho. split; [done|]. by apply stored_lookup_ne.
    + split; [done|]. by apply stored_lookup.
  - split; [done|]. split; [done|]. split.
    + intros other Ho. split; [|by apply stored_lookup_ne].
      rewrite installed_lookup_ne by done. by rewrite lookup_delete_ne.
    + destruct d as [newConn|err]; simpl.
      * split; [by rewrite lookup_insert_eq|by apply stored_lookup].
      * split; [done|]. split; [by rewrite lookup_delete_eq|].
        split; [by apply stored_lookup|]. split; [by rewrite last_app|].
        eexists (trace s ++ [EvLock; EvUnlock; EvRLock; EvRUnlock; EvGetState conn;
                              EvLock; EvGetState conn; EvClose conn cr; EvForget name]).
        by rewrite <- app_assoc.
Qed.

(** The first call for a service.  With an address to work with and no
    handle tracked, [GetConnection] dials exactly once, at that address,
    with the options of the configuration, and closes nothing.  The result
    is the dial's: its handle, which the registry then tracks, or its error
    wrapped, and then the registry still tracks nothing for the service, so
    that the next call dials again. *)
Theorem GetConnection_first_dial (s : Sys W) (name address : string) :
  resolved (mgr s) name address ≠ "" →
  connections (mgr s) !! name = None →
  let '(d, w2) := DialContext (resolved (mgr s) name address)
                    (dialOptions (mgr s)) (world s) in
  let '(r, s') := GetConnection name address s in
  r = dialed name d ∧ world s' = w2 ∧
  connections (mgr s') = installed name d (connections (mgr s)) ∧
  dials (trace s') = dials (trace s) ++ [resolved (mgr s) name address] ∧
  closes (trace s') = closes (trace s) ∧
  (∀ err, d = inr err → connections (mgr s') !! name = None).
Proof.
  intros Hne Hc.
  destruct (DialContext _ _ _) as [d w2] eqn:Hd.
  rewrite (GetConnection_dial_eq s name address d w2) by done. simpl.
  unfold dials, closes. rewrite !omap_app. simpl.
  destruct d as [newConn|err0]; simpl; rewrite ?app_nil_r;
    repeat split; done.
Qed.

(** Replacing a stale handle.  With an address to work with and a tracked
    handle that the first query finds neither ready nor idle,
    [GetConnection] queries the handle again inside the exclusive section,
    in the transport as it is by then.  If that query finds the handle
    ready or idle, the handle is returned and kept: nothing is closed and
    nothing is dialed.  Otherwise the handle is closed exactly once, before
    the dial, and dropped; what the close returns plays no part in the
    result.  One dial is then made in the transport as the close left it;
    the result is the dial's, and when the dial fails the service is left
    without a handle. *)
Theorem GetConnection_replaces_stale (s : Sys W) (name address : string)
    (conn : ClientConn) :
  resolved (mgr s) name address ≠ "" →
  connections (mgr s) !! name = Some conn →
  usable (GetState conn (world s)) = false →
  let w0 := elapse (world s) in
  let '(r, s') := GetConnection name address s in
  if usable (GetState conn w0) then
    r = inl conn ∧ world s' = w0 ∧
    connections (mgr s') = connections (mgr s) ∧
    closes (trace s') = closes (trace s) ∧
    dials (trace s') = dials (trace s) ∧
    (∃ tr, trace s' = tr ++ [EvLock; EvGetState conn; EvUnlock])
  else
    let '(cr, w1) := connClose conn w0 in
    let '(d, w2) := DialContext (resolved (mgr s) name address)
                      (dialOptions (mgr s)) w1 in
    r = dialed name d ∧ world s' = w2 ∧
    connections (mgr s') = installed name d (delete name (connections (mgr s))) ∧
    closes (trace s') = closes (trace s) ++ [(conn, cr)] ∧
    dials (trace s') = dials (trace s) ++ [resolved (mgr s) name address] ∧
    (∃ tr, trace s' = tr ++ [EvLock; EvGetState conn; EvClose conn cr; EvForget name;
                             EvDial (resolved (mgr s) name address) d]
                         ++ installing name d ++ [EvUnlock]) ∧
    (∀ err, d = inr err → connections (mgr s') !! name = None).
Proof.
  intros Hne Hc Hu w0. subst w0.
  destruct (usable (GetState conn (elapse (world s)))) eqn:Hu'.
  - rewrite (GetConnection_recheck_eq s name address conn) by done. simpl.
    unfold dials, closes. rewrite !omap_app. simpl. rewrite !app_nil_r.
    repeat split; try done.
    eexists (trace s ++ [EvLock; EvUnlock; EvRLock; EvRUnlock; EvGetState conn]).
    by rewrite <- app_assoc.
  - destruct (connClose conn (elapse (world s))) as [cr w1] eqn:Hcl.
    destruct (DialContext _ _ w1) as [d w2] eqn:Hd.
    rewrite (GetConnection_replace_eq s name address conn cr w1 d w2) by done. simpl.
    unfold dials, closes. rewrite !omap_app. simpl.
    split; [done|]. split; [done|]. split; [done|].
    split; [by destruct d; simpl; rewrite ?app_nil_r|].
    split; [by destruct d|]. split.
    + eexists (trace s ++ [EvLock; EvUnlock; EvRLock; EvRUnlock; EvGetState conn]).
      by rewrite <- !app_assoc.
    + intros err ->. simpl. by rewrite lookup_delete_eq.
Qed.

(** A new address does not move a usable handle.  Called with a non-empty
    address for a service whose tracked handle is ready or idle,
    [GetConnection] stores the new address and returns the handle it already
    has: nothing is dialed or closed, so the handle stays connected to
    wherever it was dialed before. *)
Theorem GetConnection_keeps_handle (s : Sys W) (name address : string)
    (conn : ClientConn) :
  address ≠ "" →
  connections (mgr s) !! name = Some conn →
  usable (GetState conn (world s)) = true →
  let '(r, s') := GetConnection name address s in
  r = inl conn ∧
  addresses (mgr s') !! name = Some address ∧
  connections (mgr s') = connections (mgr s) ∧
  world s' = world s ∧
  dials (trace s') = dials (trace s) ∧ closes (trace s') = closes (trace s).
Proof.
  intros Ha Hc Hu.
  assert (Hres : resolved (mgr s) name address = address).
  { unfold resolved. by rewrite bool_decide_eq_true_2. }
  rewrite (GetConnection_fast_eq s name address conn) by (rewrite ?Hres; done).
  simpl. unfold dials, closes. rewrite !omap_app. simpl. rewrite !app_nil_r.
  repeat split; try done.
  unfold stored. rewrite bool_decide_eq_true_2 by done. by rewrite lookup_insert_eq.
Qed.

(** [CloseConnection], by whether the service has a handle. *)
Lemma CloseConnection_eq (s : Sys W) (name : string) :
  CloseConnection name s =
    match connections (mgr s) !! name with
    | Some conn =>
        let '(r, w1) := connClose conn (world s) in
        (r, mkSys (mkManager (delete name (connections (mgr s))) (addresses (mgr s))
                     (config (mgr s)) (metrics (mgr s)))
              w1 (trace s ++ [EvLock; EvForget name; EvClose conn r; EvUnlock]))
    | None =>
        (None, mkSys (mkManager (delete name (connections (mgr s))) (addresses (mgr s))
                        (config (mgr s)) (metrics (mgr s)))
                 (world s) (trace s ++ [EvLock; EvForget name; EvUnlock]))
    end.
Proof.
  destruct s as [[conns addrs cfg m] w tr]. unfold CloseConnection. run.
  destruct (conns !! name) as [conn|] eqn:Hc; run.
  - destruct (connClose conn w) as [r w1]. run. by rewrite <- !app_assoc.
  - by rewrite <- !app_assoc.
Qed.

(** [CloseConnection] forgets the handle of the service, whatever the close
    returns, and keeps its address; it returns what the close returned.
    Called for a service without a handle, in particular a second time, it
    returns no error and does not touch the transport. *)
Theorem CloseConnection_forgets (s : Sys W) (name : string) :
  let '(r1, s1) := CloseConnection name s in
  let '(r2, s2) := CloseConnection name s1 in
  connections (mgr s1) = delete name (connections (mgr s)) ∧
  addresses (mgr s1) = addresses (mgr s) ∧
  match connections (mgr s) !! name with
  | Some conn => (r1, world s1) = connClose conn (world s) ∧
                 closes (trace s1) = closes (trace s) ++ [(conn, r1)]
  | None => r1 = None ∧ world s1 = world s ∧ closes (trace s1) = closes (trace s)
  end ∧
  r2 = None ∧ mgr s2 = mgr s1 ∧ world s2 = world s1 ∧
  closes (trace s2) = closes (trace s1).
Proof.
  rewrite (CloseConnection_eq s name).
  assert (Hsecond : ∀ s1 : Sys W, connections (mgr s1) !! name = None →
            CloseConnection name s1 =
              (None, mkSys (mgr s1) (world s1)
                       (trace s1 ++ [EvLock; EvForget name; EvUnlock]))).
  { intros s1 Hn. rewrite CloseConnection_eq, Hn.
    rewrite delete_id by done. by destruct s1 as [[? ? ? ?] ? ?]. }
  destruct (connections (mgr s) !! name) as [conn|] eqn:Hc.
  - destruct (connClose conn (world s)) as [r w1] eqn:Hcl.
    rewrite Hsecond by (simpl; by rewrite lookup_delete_eq). simpl.
    unfold closes. rewrite !omap_app. simpl. rewrite !app_nil_r.
    repeat split; done.
  - rewrite Hsecond by (simpl; by rewrite lookup_delete_eq). simpl.
    unfold closes. rewrite !omap_app. simpl. rewrite !app_nil_r.
    repeat split; done.
Qed.

(** Releasing one connection keeps the address: after [CloseConnection] for
    a service with a handle and a registered address, [GetConnection] with
    an empty address dials the registered address again, in the transport
    as the close left it. *)
Theorem CloseConnection_then_GetConnection (s : Sys W) (name a : string)
    (conn : ClientConn) :
  connections (mgr s) !! name = Some conn →
  addresses (mgr s) !! name = Some a → a ≠ "" →
  let '(cr, w1) := connClose conn (world s) in
  let '(d, w2) := DialContext a (dialOptions (mgr s)) w1 in
  let '(r1, s1) := CloseConnection name s in
  let '(r2, s2) := GetConnection name "" s1 in
  r1 = cr ∧ r2 = dialed name d ∧ world s2 = w2 ∧
  connections (mgr s2) = installed name d (delete name (connections (mgr s))) ∧
  dials (trace s2) = dials (trace s) ++ [a].
Proof.
  intros Hc Ha Hne. rewrite (CloseConnection_eq s name), Hc.
  destruct (connClose conn (world s)) as [cr w1] eqn:Hcl.
  destruct (DialContext a (dialOptions (mgr s)) w1) as [d w2] eqn:Hd.
  set (s1 := mkSys _ w1 _).
  assert (Hres : resolved (mgr s1) name "" = a).
  { unfold resolved. subst s1. simpl. by rewrite Ha. }
  rewrite (GetConnection_dial_eq s1 name "" d w2).
  - subst s1. simpl. unfold dials. rewrite !omap_app. simpl. rewrite !app_nil_r.
    simpl in Hres. rewrite Hres.
    destruct d as [newConn|err]; simpl; rewrite ?app_nil_r; repeat split; done.
  - by rewrite Hres.
  - subst s1. simpl. by rewrite lookup_delete_eq.
  - rewrite Hres. subst s1. simpl.
    by destruct s as [[conns addrs cfg m] w tr].
Qed.

(** Without an address there is no connection: [GetConnection] with an
    empty address for a service that has no registered address returns the
    address error, dials nothing and leaves registry and transport as they
    were.  [Close] forgets every address, so after it this is so for every
    service, until an address is given again. *)
Theorem GetConnection_unregistered (s : Sys W) (name : string)
    (order : list (string * ClientConn)) :
  (addresses (mgr s) !! name = None →
   GetConnection name "" s =
     (inr (ErrAddressNotProvided name),
      mkSys (mgr s) (world s) (trace s ++ [EvLock; EvUnlock]))) ∧
  (let s1 := snd (Close order s) in
   GetConnection name "" s1 =
     (inr (ErrAddressNotProvided name),
      mkSys (mgr s1) (world s1) (trace s1 ++ [EvLock; EvUnlock]))).
Proof.
  split.
  - intros Hn. apply GetConnection_unresolved_eq. unfold resolved. simpl.
    by rewrite Hn.
  - destruct (Close_spec order s) as (results & w' & _ & ->). simpl.
    apply GetConnection_unresolved_eq. unfold resolved. simpl.
    by rewrite lookup_empty.
Qed.

(** ** Invariants over sequences of operations *)

Lemma registered_size (cm : ConnectionManager) :
  registered cm → (size (connections cm) ≤ size (addresses cm))%nat.
Proof.
  intros Hreg. rewrite <- !size_dom. apply subseteq_size.
  intros name [conn Hc]%elem_of_dom.
  destruct (Hreg name conn Hc) as (a & Ha & _). apply elem_of_dom. eauto.
Qed.

Lemma healthConnections_mgr (order : list (string * ClientConn)) :
  ∀ (result : gmap string ConnectionHealth) (s : Sys W),
    mgr (snd (healthConnections order result s)) = mgr s.
Proof.
  induction order as [|[n c] rest IH]; intros result s; [done|].
  cbn [healthConnections]. run.
  destruct (addresses (mgr s) !! n); run; by rewrite IH.
Qed.

Lemma HealthCheck_mgr (orderA : list (string * string))
    (orderC : list (string * ClientConn)) (s : Sys W) :
  mgr (snd (HealthCheck orderA orderC s)) = mgr s.
Proof.
  unfold HealthCheck. run.
  destruct (healthAddresses_spec orderA ∅ (mkSys (mgr s) (world s) (trace s ++ [EvRLock])))
    as (r1 & tr1 & -> & _).
  run.
  pose proof (healthConnections_mgr orderC r1
                (mkSys (mgr s) (world s) ((trace s ++ [EvRLock]) ++ tr1))) as Hm.
  destruct (healthConnections orderC r1 _) as [r2 s2]. run. done.
Qed.

Lemma step_invariant (op : Op) (s : Sys W) :
  registered (mgr s) →
  registered (mgr (snd (step op s))) ∧
  config (mgr (snd (step op s))) = config (mgr s).
Proof.
  intros Hreg. destruct op as [name address|name|order| |orderA orderC];
    unfold step, mbind, M_bind, mret, M_ret.
  - pose proof (registered_GetConnection name address s Hreg) as Hr.
    destruct (GetConnection_cases s name address)
      as [(_ & He)|[(? & _ & _ & _ & He)|[(? & ? & _ & _ & _ & He)
         |[(? & _ & _ & _ & _ & He)
         |(? & ? & ? & ? & ? & _ & _ & _ & _ & _ & _ & He)]]]];
      rewrite He in Hr |- *; done.
  - pose proof (registered_CloseConnection name s Hreg) as Hr.
    rewrite CloseConnection_eq in Hr |- *.
    destruct (connections (mgr s) !! name) as [conn|]; [|done].
    by destruct (connClose conn (world s)).
  - pose proof (registered_Close order s) as Hr.
    destruct (Close_spec order s) as (results & w' & _ & He).
    rewrite He in Hr |- *. done.
  - unfold GetConnectionsCount. run. done.
  - pose proof (HealthCheck_mgr orderA orderC s) as Hm.
    destruct (HealthCheck orderA orderC s) as [r s']. simpl in *. by rewrite Hm.
Qed.

(** Whatever operations are run on a new registry, in whatever transport:
    every tracked handle belongs to a service with a registered, non-empty
    address, so the registry never tracks more handles than it has
    addresses; and the configuration stays the validated one the registry
    was made with. *)
Theorem registry_invariant (cfg : option Config) (m : bool) (cm : ConnectionManager)
    (ops : list Op) (w : W) :
  NewConnectionManager cfg m = inl cm →
  let s' := snd (exec ops (mkSys cm w [])) in
  registered (mgr s') ∧
  (size (connections (mgr s')) ≤ size (addresses (mgr s')))%nat ∧
  config (mgr s') = default DefaultConfig cfg ∧
  Validate (config (mgr s')) = None.
Proof.
  intros Hnew.
  assert (Hgen : ∀ s : Sys W, registered (mgr s) →
            registered (mgr (snd (exec ops s))) ∧
            config (mgr (snd (exec ops s))) = config (mgr s)).
  { induction ops as [|op rest IH]; intros s Hreg; [done|].
    cbn [exec]. unfold mbind, M_bind.
    destruct (step_invariant op s Hreg) as [Hr Hc].
    destruct (step op s) as [[] s1]. simpl in Hr, Hc.
    destruct (IH s1 Hr) as [Hr' Hc']. split; [done|]. by rewrite Hc', Hc. }
  destruct (Hgen (mkSys cm w []) (registered_new cfg m cm Hnew)) as [Hr Hc].
  simpl in Hc. cbv zeta. split; [done|]. split; [by apply registered_size|].
  rewrite Hc. unfold NewConnectionManager in Hnew.
  destruct (Validate (default DefaultConfig cfg)) eqn:Hv; [done|].
  injection Hnew as <-. done.
Qed.

(** In a registry in which every tracked handle has a registered address,
    the health report has exactly one entry for each registered service and
    none for any other name. *)
Theorem HealthCheck_lists_registered (orderA : list (string * string))
    (orderC : list (string * ClientConn)) (s : Sys W) :
  registered (mgr s) →
  ranges (addresses (mgr s)) orderA → ranges (connections (mgr s)) orderC →
  let result := fst (HealthCheck orderA orderC s) in
  (∀ name, is_Some (result !! name) ↔ is_Some (addresses (mgr s) !! name)) ∧
  size result = size (addresses (mgr s)).
Proof.
  intros Hreg HrA HrC. unfold HealthCheck. run.
  destruct (healthAddresses_spec orderA ∅ (mkSys (mgr s) (world s) (trace s ++ [EvRLock])))
    as (r1 & tr1 & -> & H1).
  run.
  destruct (healthConnections_spec orderC r1
              (mkSys (mgr s) (world s) ((trace s ++ [EvRLock]) ++ tr1)))
    as (r2 & tr2 & -> & H2).
  { intros n c Hin. simpl. by apply (ranges_elem _ orderC). }
  run. cbv zeta. simpl in *.
  assert (Hdom : ∀ name, is_Some (r2 !! name) ↔ is_Some (addresses (mgr s) !! name)).
  { intros name. destruct (H1 name) as [H1in H1out]. destruct (H2 name) as [_ H2out].
    pose proof (ranges_keys _ orderA name HrA) as HkA.
    pose proof (ranges_keys _ orderC name HrC) as HkC.
    destruct (addresses (mgr s) !! name) as [a|] eqn:Ha.
    - rewrite H2out by (right; eauto). rewrite H1in by (apply HkA; eauto).
      split; eauto.
    - rewrite H2out.
      + rewrite H1out; [by rewrite lookup_empty|].
        intros Hin. apply HkA in Hin. by destruct Hin.
      + left. intros Hin. apply HkC in Hin as [c Hc].
        destruct (Hreg name c Hc) as (a & Ha' & _). congruence. }
  split; [done|].
  rewrite <- !size_dom. f_equal. apply set_eq. intros name.
  rewrite !elem_of_dom. apply Hdom.
Qed.

End WithTransport.

(** [NewConnectionManager] succeeds exactly when the configuration, the
    default one for a nil pointer, has its message size and its four
    durations positive, and otherwise returns the validation error, wrapped;
    for a nil pointer it always succeeds.  The registry it returns is empty:
    it holds the configuration and the metrics it was given and no address
    and no handle. *)
Theorem NewConnectionManager_spec (cfg : option Config) (m : bool) :
  let c := default DefaultConfig cfg in
  let positive := 0 < MaxMsgSize c ∧ 0 < KeepAliveTime c ∧ 0 < KeepAliveTimeout c ∧
                  0 < MaxReconnectDelay c ∧ 0 < MinConnectTimeout c in
  (positive → NewConnectionManager cfg m = inl (mkManager ∅ ∅ c m)) ∧
  (¬ positive → ∃ cause, Validate c = Some cause ∧
                         NewConnectionManager cfg m = inr (ErrInvalidConfig cause)) ∧
  NewConnectionManager None m = inl (mkManager ∅ ∅ DefaultConfig m).
Proof.
  cbv zeta. unfold NewConnectionManager, Validate. split; [|split].
  - intros (H1 & H2 & H3 & H4 & H5).
    by rewrite !bool_decide_eq_false_2 by lia.
  - intros Hneg. repeat case_bool_decide; try (eexists; split; reflexivity).
    exfalso. apply Hneg. lia.
  - reflexivity.
Qed.

(** The interceptors [createConnection] chains come in one fixed order:
    logging, metrics, circuit breaker, retry, each present exactly when its
    switch is on (metrics also needs a metrics object), so the breaker is
    always outside the retry loop.  The receive and the send limit are both
    the configured message size. *)
Theorem dialOptions_chain (cm : ConnectionManager) :
  let opts := dialOptions cm in
  optChain opts `sublist_of`
    [LoggingInterceptor; MetricsInterceptor; CircuitBreakerInterceptor; RetryInterceptor] ∧
  (LoggingInterceptor ∈ optChain opts ↔ EnableLogging (config cm) = true) ∧
  (MetricsInterceptor ∈ optChain opts ↔
     EnableMetrics (config cm) = true ∧ metrics cm = true) ∧
  (CircuitBreakerInterceptor ∈ optChain opts ↔ EnableCircuitBreaker (config cm) = true) ∧
  (RetryInterceptor ∈ optChain opts ↔ EnableRetry (config cm) = true) ∧
  optMaxCallRecvMsgSize opts = MaxMsgSize (config cm) ∧
  optMaxCallSendMsgSize opts = MaxMsgSize (config cm) ∧
  optCredentials opts = TransportCredentials (config cm).
Proof.
  destruct cm as [conns addrs c m]. cbv zeta. unfold dialOptions. simpl.
  destruct (EnableLogging c), (EnableMetrics c), m, (EnableCircuitBreaker c),
    (EnableRetry c); simpl.
  all: split; [repeat constructor|].
  all: rewrite ?elem_of_cons, ?elem_of_nil.
  all: repeat split; intros; try done; try (intuition discriminate).
Qed.

(** ** Runs on the tabulated transports *)

(** A call for a service that has an address and no handle yet, and a call
    for a service whose address cannot be dialed. *)
Lemma GetConnection_outcomes_run :
  (let '(r, s') := GetConnection "c" "" Fixtures.sys2 in
   r = inl 3%positive ∧
   connections (mgr s') !! "c" = Some 3%positive ∧
   connections (mgr s') !! "a" = Some 1%positive ∧
   addresses (mgr s') !! "c" = Some "hostc:1") ∧
  (let '(r, s') := GetConnection "a" "" Scenarios.sys1bad in
   r = inr (ErrCreateConnection "a" Scenarios.dialError) ∧
   connections (mgr s') !! "a" = None ∧
   closes (trace s') = [(1%positive, Some Fixtures.errA)]).
Proof.
  split.
  - pose proof (GetConnection_outcomes Fixtures.sys2 "c" "") as Ho.
    destruct (GetConnection "c" "" Fixtures.sys2) as [r s'] eqn:Hrun.
    assert (Hr : r = inl 3%positive).
    { apply (f_equal fst) in Hrun. vm_compute in Hrun. by subst r. }
    subst r. destruct Ho as (_ & _ & Hother & Hc & Ha).
    split; [done|]. split; [done|]. split; [|done].
    destruct (Hother "a") as [Hca _]; [done|].
    etrans; [exact Hca|reflexivity].
  - pose proof (GetConnection_outcomes Scenarios.sys1bad "a" "") as Ho.
    destruct (GetConnection "a" "" Scenarios.sys1bad) as [r s'] eqn:Hrun.
    assert (Hr : r = inr (ErrCreateConnection "a" Scenarios.dialError)).
    { apply (f_equal fst) in Hrun. vm_compute in Hrun. by subst r. }
    subst r. destruct Ho as (_ & _ & _ & _ & Hc & _).
    split; [done|]. split; [done|].
    apply (f_equal (λ p, closes (trace (snd p)))) in Hrun. by vm_compute in Hrun.
Defined.

(** The first call for a service on the empty registry. *)
Lemma GetConnection_first_dial_run :
  let '(r, s') := GetConnection "a" "hosta:1" Fixtures.sys0 in
  r = inl 3%positive ∧ world s' = Fixtures.net2 ∧
  connections (mgr s') = <["a" := 3%positive]> ∅ ∧
  dials (trace s') = ["hosta:1"] ∧ closes (trace s') = [] ∧
  (∀ err, @inl Manager.ClientConn error 3%positive = inr err →
          connections (mgr s') !! "a" = None).
Proof.
  exact (GetConnection_first_dial Fixtures.sys0 "a" "hosta:1"
           ltac:(by vm_compute) eq_refl).
Defined.

(** The failed handle 1 of service a, on a transport in which it becomes
    ready again before the re-check: it is kept and returned.  And on a
    transport in which it stays failed: it is closed, its close error
    dropped, and handle 7 is dialed at the registered address. *)
Lemma GetConnection_replaces_stale_run :
  (let '(r, s') := GetConnection "a" "" Scenarios.sysFlux in
   r = inl 1%positive ∧
   connections (mgr s') !! "a" = Some 1%positive ∧
   closes (trace s') = [] ∧ dials (trace s') = []) ∧
  (let '(r, s') := GetConnection "a" "" Scenarios.sysStuck in
   r = inl 7%positive ∧
   connections (mgr s') !! "a" = Some 7%positive ∧
   closes (trace s') = [(1%positive, Some Fixtures.errA)] ∧
   dials (trace s') = ["good:1"]).
Proof.
  split.
  - pose proof (GetConnection_replaces_stale Scenarios.sysFlux "a" "" 1%positive
                  ltac:(by vm_compute) eq_refl eq_refl) as Hs.
    cbv zeta in Hs.
    assert (Hu : usable (GetState 1%positive (elapse (world Scenarios.sysFlux))) = true)
      by reflexivity.
    rewrite Hu in Hs.
    destruct (GetConnection "a" "" Scenarios.sysFlux) as [r s'].
    destruct Hs as (Hr & _ & Hc & Hcs & Hds & _).
    rewrite Hr, Hc, Hcs, Hds. by vm_compute.
  - pose proof (GetConnection_replaces_stale Scenarios.sysStuck "a" "" 1%positive
                  ltac:(by vm_compute) eq_refl eq_refl) as Hs.
    cbv zeta in Hs.
    assert (Hu : usable (GetState 1%positive (elapse (world Scenarios.sysStuck))) = false)
      by reflexivity.
    rewrite Hu in Hs.
    destruct (connClose 1%positive (elapse (world Scenarios.sysStuck)))
      as [cr w1] eqn:Hcl.
    vm_compute in Hcl. injection Hcl as <- <-.
    destruct (DialContext _ _ _) as [d w2] eqn:Hd in Hs.
    vm_compute in Hd. injection Hd as <- <-.
    destruct (GetConnection "a" "" Scenarios.sysStuck) as [r s'].
    destruct Hs as (Hr & _ & Hc & Hcs & Hds & _).
    rewrite Hr, Hc, Hcs, Hds. by vm_compute.
Defined.

(** A new address for a service whose handle is ready. *)
Lemma GetConnection_keeps_handle_run :
  let '(r, s') := GetConnection "a" "elsewhere:9" Fixtures.sys2 in
  r = inl 1%positive ∧
  addresses (mgr s') !! "a" = Some "elsewhere:9" ∧
  connections (mgr s') = connections Fixtures.mgr2 ∧
  world s' = Fixtures.net2 ∧
  dials (trace s') = [] ∧ closes (trace s') = [].
Proof.
  exact (GetConnection_keeps_handle Fixtures.sys2 "a" "elsewhere:9" 1%positive
           ltac:(done) eq_refl eq_refl).
Defined.

(** Release, then acquire again with an empty address. *)
Lemma CloseConnection_then_GetConnection_run :
  let '(r1, s1) := CloseConnection "a" Fixtures.sys2 in
  let '(r2, s2) := GetConnection "a" "" s1 in
  r1 = Some Fixtures.errA ∧ r2 = inl 3%positive ∧ dials (trace s2) = ["hosta:1"].
Proof.
  pose proof (CloseConnection_then_GetConnection Fixtures.sys2 "a" "hosta:1" 1%positive
                eq_refl eq_refl ltac:(done)) as Hs.
  destruct (connClose 1%positive (world Fixtures.sys2)) as [cr w1] eqn:Hcl.
  vm_compute in Hcl. injection Hcl as <- <-.
  destruct (DialContext "hosta:1" _ _) as [d w2] eqn:Hd in Hs.
  vm_compute in Hd. injection Hd as <- <-.
  destruct (CloseConnection "a" Fixtures.sys2) as [r1 s1].
  destruct (GetConnection "a" "" s1) as [r2 s2].
  by destruct Hs as (-> & -> & _ & _ & ->).
Defined.

(** No address for service x, before and after [Close]. *)
Lemma GetConnection_unregistered_run :
  fst (GetConnection "x" "" Fixtures.sys2) = inr (ErrAddressNotProvided "x") ∧
  fst (GetConnection "a" ""
         (snd (Close [("a", 1%positive); ("b", 2%positive)] Fixtures.sys2)))
    = inr (ErrAddressNotProvided "a").
Proof.
  destruct (GetConnection_unregistered Fixtures.sys2 "x" []) as [Hx _].
  destruct (GetConnection_unregistered Fixtures.sys2 "a"
              [("a", 1%positive); ("b", 2%positive)]) as [_ Ha].
  split.
  - by rewrite Hx.
  - cbv zeta in Ha. by rewrite Ha.
Defined.

(** Operations on a new registry with the default configuration. *)
Lemma registry_invariant_run :
  let s' := snd (exec [OpGetConnection "a" "hosta:1"; OpGetConnection "b" "";
                       OpCloseConnection "a"; OpGetConnectionsCount;
                       OpGetConnection "a" ""; OpHealthCheck [] [];
                       OpClose [("a", 3%positive)]; OpGetConnection "c" "hostc:1"]
                   (mkSys (mkManager ∅ ∅ DefaultConfig true) Fixtures.net2 [])) in
  registered (mgr s') ∧
  (size (connections (mgr s')) ≤ size (addresses (mgr s')))%nat ∧
  config (mgr s') = DefaultConfig ∧
  Validate (config (mgr s')) = None.
Proof.
  exact (registry_invariant None true (mkManager ∅ ∅ DefaultConfig true) _
           Fixtures.net2 eq_refl).
Defined.

(** The report on the registry of two handles and three addresses. *)
Lemma HealthCheck_lists_registered_run :
  let result :=
    fst (HealthCheck [("a", "hosta:1"); ("b", "hostb:1"); ("c", "hostc:1")]
           [("a", 1%positive); ("b", 2%positive)] Fixtures.sys2) in
  (∀ name, is_Some (result !! name) ↔ is_Some (addresses Fixtures.mgr2 !! name)) ∧
  size result = size (addresses Fixtures.mgr2).
Proof.
  exact (HealthCheck_lists_registered _ _ Fixtures.sys2
           registered_mgr2 ranges_mgr2_addresses ranges_mgr2_ab).
Defined.

(** A configuration with a negative keepalive timeout is refused. *)
Lemma NewConnectionManager_spec_run :
  NewConnectionManager (Some DefaultConfig) true
    = inl (mkManager ∅ ∅ DefaultConfig true) ∧
  ∃ cause,
    NewConnectionManager
      (Some (mkConfig 1024 Second (-1) true Second Second true true true true None)) false
    = inr (ErrInvalidConfig cause).
Proof.
  split.
  - by apply (NewConnectionManager_spec (Some DefaultConfig) true).
  - destruct (NewConnectionManager_spec
                (Some (mkConfig 1024 Second (-1) true Second Second true true true true None))
                false) as (_ & Hbad & _).
    destruct Hbad as (cause & _ & Hnew).
    + simpl. lia.
    + by exists cause.
Defined.

(** The default configuration without a metrics object. *)
Lemma dialOptions_chain_run :
  optChain (dialOptions Fixtures.mgr0)
    = [LoggingInterceptor; CircuitBreakerInterceptor; RetryInterceptor] ∧
  MetricsInterceptor ∉ optChain (dialOptions Fixtures.mgr0).
Proof.
  destruct (dialOptions_chain Fixtures.mgr0) as (_ & _ & Hm & _).
  split; [reflexivity|]. rewrite Hm. by intros [? _].
Defined.

End RegistryFacts.
